(** * abTEM detectors: the polar detector geometry of [abtem/detect.py]

    A shallow embedding of the region labeler ([_polar_regions]), the
    label grouper ([_PolarDetector._label_to_index]), the bin computation
    ([_PolarDetector._get_bins]), the region resolver
    ([_PolarDetector._get_regions]) and of the [detect] /
    [allocate_measurement] methods of the detector classes built on them.

    Numbers.  Every finite float is a rational ([Q]).  The development has
    two models of the float operations.  In the first one the operations
    are exact; it carries the results on the structure of the code: the
    grouping of the labels, the regions, the shapes, the errors raised.
    In the second one (the definitions with suffix [_fl], at the end of the
    definitions) every operation is followed by a rounding
    [fl : Q -> option Q], [None] standing for a result that is not finite;
    [binary64] and [binary32] are the IEEE 754 roundings to nearest, ties
    to even, and the results on bin counts and on the labels at the rim of
    a band are stated on this model.  With the rounding [exact],
    [_get_bins_fl] is [_get_bins].  A NumPy division whose result is not finite
    (nan, inf) is [None].  NumPy integer arrays hold [Z]; bin counts and
    labels stay far below 2^63, so no wrap-around is written for them.
    [np.sqrt] and [np.arctan2] are parameters of the labeler. *)

From Stdlib Require Import String.
From Stdlib Require Import ZArith QArith Qround Qabs List Lia Bool Arith.
From Stdlib Require Import Permutation Sorting.Sorted Lqa Field Qfield.
Import ListNotations.

Open Scope Z_scope.

(** ** Exceptions and results *)

Inductive exn : Type :=
| OuterNotSet          (* RuntimeError('The outer integration angle is not set.') *)
| ZeroSizedRegion      (* RuntimeError('Zero-sized detector region.') *)
| MaxAngleExceeded     (* RuntimeError('Detector max angle exceeds the cutoff scattering angle.') *)
| UnsupportedResample  (* RuntimeError('') of _resampled_gpts *)
| GridUndefined        (* raised by waves.grid.check_is_defined() *)
| ZeroDivisionError    (* Python float or int division by zero *)
| ValueError           (* NumPy: max of an empty array, impossible reshape or
                          broadcast, concatenation of no array; int(...) of
                          a float that is nan *)
| IndexError           (* list index out of range *)
| TypeError            (* arithmetic on None *)
| NanToInt             (* not an exception: NumPy stores nan into an integer
                          array; the stored value depends on the platform and
                          the model follows the run no further *)
| ExternalError        (* raised by a collaborator that is not part of detect.py *)
| OverflowError        (* int(...) of a float that is inf, float(...) of an
                          integer beyond the doubles *)
| NotFollowed.         (* not an exception: a float became inf or nan where
                          nothing raises; the model follows the run no
                          further *)

Inductive result (A : Type) : Type :=
| Ok (a : A)
| Err (e : exn).
Arguments Ok {A} a.
Arguments Err {A} e.

Definition bind {A B : Type} (r : result A) (k : A -> result B) : result B :=
  match r with
  | Ok a => k a
  | Err e => Err e
  end.

Notation "x <- r ;; k" := (bind r (fun x => k))
  (at level 61, r at next level, right associativity).

(** ** Float helpers *)

(** Python float division: raises on a zero divisor. *)
Definition py_div (x y : Q) : result Q :=
  if Qeq_bool y 0 then Err ZeroDivisionError else Ok (x / y)%Q.

(** NumPy array division: no exception, a non-finite entry instead.  The
    quotient is kept in lowest terms. *)
Definition np_div (x y : Q) : option Q :=
  if Qeq_bool y 0 then None else Some (Qred (x / y)).

(** Conversion of a float to an integer, as done when a float array is
    stored into an integer array and by [int(...)]: truncation toward 0. *)
Definition trunc (q : Q) : Z := Z.quot (Qnum q) (Zpos (Qden q)).

(** [x % m] on floats, with the sign of the divisor. *)
Definition py_mod (x m : Q) : Q := (x - inject_Z (Qfloor (x / m)) * m)%Q.

(** [np.clip(x, lo, hi)] is [minimum(hi, maximum(x, lo))]. *)
Definition clip (x lo hi : Z) : Z := Z.min hi (Z.max x lo).

(** The double [np.pi]. *)
Definition np_pi : Q := (884279719003555 # 281474976710656)%Q.
Definition two_pi : Q := (2 * np_pi)%Q.

(** ** Spatial frequencies *)

(** [np.fft.fftfreq(n, d)]: the signed frequency numbers
    0, 1, ..., (n-1)/2, -(n/2), ..., -1, each times 1/(n*d). *)
Definition fft_number (n i : nat) : Z :=
  if (i <? (n - 1) / 2 + 1)%nat then Z.of_nat i else Z.of_nat i - Z.of_nat n.

Definition fftfreq (n : nat) (d : Q) : list Q :=
  map (fun i => (inject_Z (fft_number n i) * (1 / (inject_Z (Z.of_nat n) * d)))%Q)
      (seq 0 n).

(** Modelled from the spec: [abtem.utils.spatial_frequencies] is not part of
    the sources at hand.  Section 4.1: two 1D arrays of signed spatial
    frequencies in standard FFT frequency ordering, scaled to the grid
    extents. *)
Definition spatial_frequencies (gpts : nat * nat) (sampling : Q * Q)
  : list Q * list Q :=
  (fftfreq (fst gpts) (fst sampling), fftfreq (snd gpts) (snd sampling)).

(** ** The polar region labeler *)

Section Labeler.

(** [np.sqrt] and [np.arctan2]. *)
Variable sqrt : Q -> Q.
Variable arctan2 : Q -> Q -> Q.

(** alpha = sqrt(alpha_x ** 2 + alpha_y ** 2), for one cell. *)
Definition alpha_of (k : Q * Q) : Q := sqrt (fst k ^ 2 + snd k ^ 2)%Q.

(** valid = (alpha >= inner) & (alpha <= outer) *)
Definition valid (inner outer : Q) (k : Q * Q) : bool :=
  Qle_bool inner (alpha_of k) && Qle_bool (alpha_of k) outer.

(** The value stored in radial_bins for a valid cell (outer <> inner), in
    exact arithmetic; [radial_bin_fl] rounds every operation. *)
Definition radial_bin (inner outer : Q) (nbins_radial : Z) (k : Q * Q) : Z :=
  trunc (inject_Z nbins_radial * (alpha_of k - inner) / (outer - inner))%Q.

(** angles = arctan2(alpha_x, alpha_y) % (2 pi), as a fraction of 2 pi *)
Definition angle_fraction (k : Q * Q) : Q :=
  (py_mod (arctan2 (fst k) (snd k)) two_pi / two_pi)%Q.

(** angular_bins = clip(floor(nbins_azimuthal * (angles / (2 pi))),
                        0, nbins_azimuthal - 1) *)
Definition angular_bin (nbins_azimuthal : Z) (k : Q * Q) : Z :=
  clip (Qfloor (inject_Z nbins_azimuthal * angle_fraction k)%Q)
       0 (nbins_azimuthal - 1).

(** One entry of [bins]. *)
Definition cell_label (inner outer : Q) (nbins_radial nbins_azimuthal : Z)
           (k : Q * Q) : Z :=
  if valid inner outer k
  then angular_bin nbins_azimuthal k
       + radial_bin inner outer nbins_radial k * nbins_azimuthal
  else -1.

(** The frequencies of the cells, in the order of the flattened arrays:
    cell (i, j) of a (n0, n1) grid has flat index i * n1 + j. *)
Definition cells (kx ky : list Q) : list (Q * Q) := list_prod kx ky.

(** Lines 27-39 of [_polar_regions], on given frequency axes.  The
    division by outer - inner is one array operation: with
    outer = inner and some valid cell it yields nan in every valid cell. *)
Definition label_cells (kx ky : list Q) (inner outer : Q)
           (nbins_radial nbins_azimuthal : Z) : result (list Z) :=
  if Qeq_bool (outer - inner) 0 && existsb (valid inner outer) (cells kx ky)
  then Err NanToInt
  else Ok (map (cell_label inner outer nbins_radial nbins_azimuthal)
               (cells kx ky)).

(** The frequency axes of lines 19-23. *)
Definition frequency_axes (gpts : nat * nat) (angular_sampling : Q * Q)
  : result (list Q * list Q) :=
  s0 <- py_div 1 (fst angular_sampling) ;;
  s0 <- py_div s0 (inject_Z (Z.of_nat (fst gpts))) ;;
  s1 <- py_div 1 (snd angular_sampling) ;;
  s1 <- py_div s1 (inject_Z (Z.of_nat (snd gpts))) ;;
  Ok (spatial_frequencies gpts (s0, s1)).

Definition _polar_regions (gpts : nat * nat) (angular_sampling : Q * Q)
           (inner outer : Q) (nbins_radial nbins_azimuthal : Z)
  : result (list Z) :=
  k <- frequency_axes gpts angular_sampling ;;
  label_cells (fst k) (snd k) inner outer nbins_radial nbins_azimuthal.

End Labeler.

(** ** The label-to-index grouper *)

(** [labels[i]] *)
Definition label_at (labels : list Z) (i : nat) : Z := nth i labels (-1).

(** [labels.argsort()]: the indices of [labels], ordered by label.  NumPy's
    default sort promises no order among equal labels; the model keeps
    them in index order. *)
Fixpoint insert_index (labels : list Z) (i : nat) (order : list nat) : list nat :=
  match order with
  | [] => [i]
  | j :: rest =>
      if label_at labels i <=? label_at labels j
      then i :: order
      else j :: insert_index labels i rest
  end.

Definition argsort (labels : list Z) : list nat :=
  fold_right (insert_index labels) [] (seq 0 (length labels)).

(** [np.searchsorted(a, v, side='left')] and [side='right'] on a sorted
    array: the number of entries below [v], and not above [v]. *)
Fixpoint searchsorted_left (a : list Z) (v : Z) : nat :=
  match a with
  | [] => 0
  | x :: a' => if x <? v then S (searchsorted_left a' v) else 0
  end.

Fixpoint searchsorted_right (a : list Z) (v : Z) : nat :=
  match a with
  | [] => 0
  | x :: a' => if x <=? v then S (searchsorted_right a' v) else 0
  end.

(** [np.max(labels)]; an empty array raises. *)
Definition np_max (labels : list Z) : result Z :=
  match labels with
  | [] => Err ValueError
  | x :: rest => Ok (fold_left Z.max rest x)
  end.

(** [a[l:h]] *)
Definition slice {A : Type} (a : list A) (l h : nat) : list A :=
  firstn (h - l) (skipn l a).

(** [xp.arange(0, n)] *)
Definition arange (n : Z) : list Z := map Z.of_nat (seq 0 (Z.to_nat n)).

(** [_PolarDetector._label_to_index], with the generator run to its end. *)
Definition _label_to_index (labels : list Z) : result (list (list nat)) :=
  let labels_order := argsort labels in
  let sorted_labels := map (label_at labels) labels_order in
  let indices := labels_order in
  m <- np_max labels ;;
  let index := arange (m + 1) in
  Ok (map (fun v => slice indices (searchsorted_left sorted_labels v)
                                  (searchsorted_right sorted_labels v))
          index).

(** ** Detector parameters and bins *)

(** The key of a cached call of [_get_regions]:
    (gpts, angular_sampling, cutoff_scattering_angle). *)
Definition cache_key : Type := (nat * nat) * (Q * Q) * option Q.

(** The fields of a [_PolarDetector]; [None] is Python's [None].  [cache]
    is the content of the [Cache(1)] of [__init__]: at most one remembered
    call of [_get_regions] with its result. *)
Record PolarDetector : Type := mkPolarDetector {
  _inner : option Q;
  _outer : option Q;
  _radial_steps : Q;
  _azimuthal_steps : Q;
  _max_detected_angle : option Q;
  cache : option (cache_key * list (list nat))
}.

(** [int(np.ceil(x))] *)
Definition ceil (q : Q) : Z := Qceiling q.

(** [_PolarDetector._get_bins], in exact arithmetic; [_get_bins_fl] rounds
    every operation. *)
Definition _get_bins (self : PolarDetector) (cutoff_scattering_angle : option Q)
  : result (Z * Z * Q * Q) :=
  let inner := match _inner self with None => 0%Q | Some i => i end in
  outer <- match _outer self with
           | None =>
               match cutoff_scattering_angle with
               | None => Err OuterNotSet
               | Some c =>
                   r <- py_div c (_radial_steps self) ;;
                   Ok (inject_Z (Qfloor r) * _radial_steps self)%Q
               end
           | Some o => Ok o
           end ;;
  r <- py_div (outer - inner) (_radial_steps self) ;;
  let nbins_radial := ceil r in
  a <- py_div two_pi (_azimuthal_steps self) ;;
  let nbins_azimuthal := ceil a in
  Ok (nbins_radial, nbins_azimuthal, inner, outer).

(** ** Waves *)

(** What the detectors read from a [Waves] object.  [intensity] is
    abs2(fft2(waves.array)), one flattened array of gpts[0] * gpts[1]
    entries per batch element: [fft2] and [abs2] are device functions
    outside detect.py. *)
Record Waves : Type := mkWaves {
  gpts : nat * nat;
  angular_sampling : Q * Q;
  cutoff_scattering_angles : Q * Q;
  wavelength : Q;
  grid_defined : bool;
  intensity : list (list Q)
}.

(** [min(t)] of a pair of floats. *)
Definition min_pair (t : Q * Q) : Q :=
  if Qle_bool (fst t) (snd t) then fst t else snd t.

(** ** The cached region resolver *)

Definition pair_eqb (a b : Q * Q) : bool :=
  Qeq_bool (fst a) (fst b) && Qeq_bool (snd a) (snd b).

Definition cutoff_eqb (a b : option Q) : bool :=
  match a, b with
  | Some x, Some y => Qeq_bool x y
  | None, None => true
  | _, _ => false
  end.

Definition key_eqb (a b : cache_key) : bool :=
  let '(ga, sa, ca) := a in
  let '(gb, sb, cb) := b in
  (fst ga =? fst gb)%nat && (snd ga =? snd gb)%nat
  && pair_eqb sa sb && cutoff_eqb ca cb.

Definition set_cache (self : PolarDetector)
           (c : option (cache_key * list (list nat))) : PolarDetector :=
  mkPolarDetector (_inner self) (_outer self) (_radial_steps self)
                  (_azimuthal_steps self) (_max_detected_angle self) c.

(** Modelled from the spec: [watched_property] and [Event] come from
    abtem.base_classes, which is not part of the sources at hand.
    Sections 3 and 4.4: a write to a geometry parameter fires a change
    notification, and the notification invalidates the cache of the
    detector, whatever the value written. *)
Definition notify_changed (self : PolarDetector) : PolarDetector :=
  set_cache self None.

Section Regions.

Variable sqrt : Q -> Q.
Variable arctan2 : Q -> Q -> Q.

(** The body of [_PolarDetector._get_regions]. *)
Definition compute_regions (self : PolarDetector) (gpts : nat * nat)
           (angular_sampling : Q * Q) (cutoff_scattering_angle : option Q)
  : result (list (list nat)) :=
  b <- _get_bins self cutoff_scattering_angle ;;
  let '(nbins_radial, nbins_azimuthal, inner, outer) := b in
  region_labels <- _polar_regions sqrt arctan2 gpts
                     (fst angular_sampling / 1000, snd angular_sampling / 1000)%Q
                     (inner / 1000)%Q (outer / 1000)%Q
                     nbins_radial nbins_azimuthal ;;
  if forallb (Z.eqb (-1)) region_labels
  then Err ZeroSizedRegion
  else _label_to_index region_labels.

(** Modelled from the spec: [cached_method] comes from abtem.base_classes,
    which is not part of the sources at hand.  Section 4.4: a
    single-entry memoization of the body keyed by
    (gpts, angular_sampling, cutoff_scattering_angle).  A call that
    raises stores nothing. *)
Definition _get_regions (self : PolarDetector) (gpts : nat * nat)
           (angular_sampling : Q * Q) (cutoff_scattering_angle : option Q)
  : result (list (list nat)) * PolarDetector :=
  let key := (gpts, angular_sampling, cutoff_scattering_angle) in
  let miss :=
    match compute_regions self gpts angular_sampling cutoff_scattering_angle with
    | Ok regions => (Ok regions, set_cache self (Some (key, regions)))
    | Err e => (Err e, self)
    end in
  match cache self with
  | Some (key', regions) =>
      if key_eqb key' key then (Ok regions, self) else miss
  | None => miss
  end.

(** ** AnnularDetector *)

(** [xp.sum] of a float array *)
Definition np_sum (a : list Q) : Q := fold_right Qplus 0%Q a.

(** [a[indices]] for a flattened array [a] *)
Definition take_indices (a : list Q) (indices : list nat) : list Q :=
  map (fun i => nth i a 0%Q) indices.

(** [AnnularDetector._integrate_array], on a batch of flattened arrays of
    shape [gpts]; a non-finite quotient is [None]. *)
Definition _integrate_array (self : PolarDetector) (array : list (list Q))
           (gpts : nat * nat) (angular_sampling : Q * Q)
           (cutoff_scattering_angle : option Q) (normalize : bool)
  : result (list (option Q)) * PolarDetector :=
  let '(r, self') :=
    _get_regions self gpts angular_sampling cutoff_scattering_angle in
  (regions <- r ;;
   match regions with
   | [] => Err IndexError
   | indices :: _ =>
       let values := map (fun a => np_sum (take_indices a indices)) array in
       if normalize
       then Ok (map (fun a => np_div (np_sum (take_indices a indices)) (np_sum a))
                    array)
       else Ok (map Some values)
   end,
   self').

(** [AnnularDetector.detect] *)
Definition annular_detect (self : PolarDetector) (waves : Waves)
           (normalize : bool) : result (list (option Q)) * PolarDetector :=
  _integrate_array self (intensity waves) (gpts waves)
                   (angular_sampling waves)
                   (Some (min_pair (cutoff_scattering_angles waves)))
                   normalize.

(** ** SegmentedDetector *)

(** [xp.cumsum] *)
Fixpoint cumsum_from (acc : nat) (l : list nat) : list nat :=
  match l with
  | [] => []
  | x :: l' => (acc + x)%nat :: cumsum_from (acc + x) l'
  end.

(** separators = concatenate(([0], cumsum([len(ring) for ring in indices]))) *)
Definition separators_of (indices : list (list nat)) : list nat :=
  0%nat :: cumsum_from 0 (map (@length nat) indices).

(** Modelled from the spec: [sum_run_length_encoded] is a device function
    outside detect.py.  Section 4.5:
    output[..., g] = sum(values[..., separators[g]:separators[g+1]]),
    one output cell per pair of neighbouring separators. *)
Fixpoint run_sums (values : list Q) (separators : list nat) : list Q :=
  match separators with
  | [] => []
  | lo :: rest =>
      match rest with
      | [] => []
      | hi :: _ => np_sum (slice values lo hi) :: run_sums values rest
      end
  end.

Definition sum_run_length_encoded (array : list (list Q))
           (separators : list nat) : list (list Q) :=
  map (fun a => run_sums a separators) array.

(** [count] consecutive rows of [width] entries each. *)
Fixpoint rows {A : Type} (count width : nat) (flat : list A) : list (list A) :=
  match count with
  | O => []
  | S c => firstn width flat :: rows c width (skipn width flat)
  end.

(** [a.reshape((-1, n1, n2))] for a 2D array [a] with rows of [width]
    entries. *)
Definition reshape3 (a : list (list Q)) (width : nat) (n1 n2 : Z)
  : result (list (list (list Q))) :=
  let size := (length a * width)%nat in
  if (n1 <? 0) || (n2 <? 0) || (n1 * n2 =? 0) then Err ValueError
  else if (Z.of_nat size mod (n1 * n2) =? 0) then
    let d := (size / Z.to_nat (n1 * n2))%nat in
    Ok (map (rows (Z.to_nat n1) (Z.to_nat n2))
            (rows d (Z.to_nat (n1 * n2)) (concat a)))
  else Err ValueError.

Definition divide_block (block : list (list Q)) (t : Q)
  : list (list (option Q)) :=
  map (map (fun x => np_div x t)) block.

(** [a / total[:, None, None]] with NumPy's broadcasting of the first
    axis: equal lengths go entry by entry, a length of 1 is repeated. *)
Definition divide_by_total (a : list (list (list Q))) (total : list Q)
  : result (list (list (list (option Q)))) :=
  if (length a =? length total)%nat
  then Ok (map (fun p => divide_block (fst p) (snd p)) (combine a total))
  else match total, a with
       | [t], _ => Ok (map (fun block => divide_block block t) a)
       | _, [block] => Ok (map (divide_block block) total)
       | _, _ => Err ValueError
       end.

(** The property [SegmentedDetector.nbins_radial], in exact arithmetic;
    [nbins_radial_fl] rounds every operation. *)
Definition nbins_radial (self : PolarDetector) : result Z :=
  match _outer self, _inner self with
  | Some outer, Some inner =>
      r <- py_div (outer - inner) (_radial_steps self) ;; Ok (trunc r)
  | _, _ => Err TypeError
  end.

(** The property [SegmentedDetector.nbins_angular], in exact arithmetic;
    [nbins_angular_fl] rounds every operation. *)
Definition nbins_angular (self : PolarDetector) : result Z :=
  r <- py_div two_pi (_azimuthal_steps self) ;; Ok (trunc r).

(** [SegmentedDetector.detect] *)
Definition segmented_detect (self : PolarDetector) (waves : Waves)
  : result (list (list (list (option Q)))) * PolarDetector :=
  let '(r, self') :=
    _get_regions self (gpts waves) (angular_sampling waves)
                 (Some (min_pair (cutoff_scattering_angles waves))) in
  (indices <- r ;;
   let total := map np_sum (intensity waves) in
   let separators := separators_of indices in
   match indices with
   | [] => Err ValueError
   | _ :: _ =>
       let rearranged :=
         map (fun a => take_indices a (concat indices)) (intensity waves) in
       let result := sum_run_length_encoded rearranged separators in
       n1 <- nbins_radial self' ;;
       n2 <- nbins_angular self' ;;
       reshaped <- reshape3 result (length separators - 1) n1 n2 ;;
       divide_by_total reshaped total
   end,
   self').

End Regions.

(** ** Constructors and setters *)

(** [AnnularDetector.__init__] *)
Definition AnnularDetector (inner outer : Q) : PolarDetector :=
  mkPolarDetector (Some inner) (Some outer) (outer - inner)%Q two_pi
                  (Some outer) None.

(** [FlexibleAnnularDetector.__init__] *)
Definition FlexibleAnnularDetector (step_size : Q) : PolarDetector :=
  mkPolarDetector None None step_size two_pi None None.

(** [SegmentedDetector.__init__] *)
Definition SegmentedDetector (inner outer : Q) (nbins_radial nbins_angular : Z)
  : result PolarDetector :=
  radial_steps <- py_div (outer - inner) (inject_Z nbins_radial) ;;
  azimuthal_steps <- py_div two_pi (inject_Z nbins_angular) ;;
  Ok (mkPolarDetector (Some inner) (Some outer) radial_steps azimuthal_steps
                      (Some outer) None).

(** The setter of [inner] (AnnularDetector and SegmentedDetector) *)
Definition set_inner (value : Q) (self : PolarDetector) : PolarDetector :=
  notify_changed
    (mkPolarDetector (Some value) (_outer self) (_radial_steps self)
                     (_azimuthal_steps self) (_max_detected_angle self)
                     (cache self)).

(** The body of the setter of [AnnularDetector.outer] *)
Definition annular_write_outer (value : Q) (self : PolarDetector) : PolarDetector :=
  mkPolarDetector (_inner self) (Some value) (_radial_steps self)
                  (_azimuthal_steps self) (Some value) (cache self).

(** The setter of [AnnularDetector.outer], a watched property *)
Definition annular_set_outer (value : Q) (self : PolarDetector) : PolarDetector :=
  notify_changed (annular_write_outer value self).

(** [AnnularDetector.__copy__]: [self.__class__(self.inner, self.outer)] *)
Definition annular_copy (self : PolarDetector) : result PolarDetector :=
  match _inner self, _outer self with
  | Some inner, Some outer => Ok (AnnularDetector inner outer)
  | _, _ => Err TypeError
  end.

(** The setter of [SegmentedDetector.outer] *)
Definition segmented_set_outer (value : Q) (self : PolarDetector) : PolarDetector :=
  notify_changed
    (mkPolarDetector (_inner self) (Some value) (_radial_steps self)
                     (_azimuthal_steps self) (_max_detected_angle self)
                     (cache self)).

(** ** PixelatedDetector *)

(** [max_angle] is a string, a number or [None]. *)
Inductive angle_option : Type :=
| AngleStr (s : string)
| AngleNum (q : Q)
| AngleNone.

(** [resample] is [False], a string or something else (a number, [True]). *)
Inductive resample_option : Type :=
| ResampleFalse
| ResampleStr (s : string)
| ResampleOther.

Record PixelatedDetector : Type := mkPixelatedDetector {
  _max_angle : angle_option;
  _resample : resample_option
}.

(** [PixelatedDetector.__init__] with its defaults:
    max_angle = 'valid', resample = False. *)
Definition PixelatedDetector_default : PixelatedDetector :=
  mkPixelatedDetector (AngleStr "valid") ResampleFalse.

(** [check_max_angle_exceeded] *)
Definition check_max_angle_exceeded (waves : Waves) (max_angle : angle_option)
  : result unit :=
  match max_angle with
  | AngleStr _ => Ok tt
  | AngleNone => Ok tt
  | AngleNum a =>
      if Qlt_le_dec (min_pair (cutoff_scattering_angles waves)) a
      then Err MaxAngleExceeded
      else Ok tt
  end.

(** [max(t)] of a pair of floats *)
Definition max_pair (t : Q * Q) : Q :=
  if Qlt_le_dec (fst t) (snd t) then snd t else fst t.

(** [PixelatedDetector._resampled_gpts]; the quotients of the 'uniform'
    branch are exact here, those of the code are rounded. *)
Definition _resampled_gpts (self : PixelatedDetector) (gpts : nat * nat)
           (angular_sampling : Q * Q) : result ((Z * Z) * (Q * Q)) :=
  match _resample self with
  | ResampleFalse =>
      Ok ((Z.of_nat (fst gpts), Z.of_nat (snd gpts)), angular_sampling)
  | ResampleStr s =>
      if String.eqb s "uniform" then
        f0 <- py_div (fst angular_sampling) (max_pair angular_sampling) ;;
        f1 <- py_div (snd angular_sampling) (max_pair angular_sampling) ;;
        let n0 := ceil (inject_Z (Z.of_nat (fst gpts)) * f0) in
        let n1 := ceil (inject_Z (Z.of_nat (snd gpts)) * f1) in
        let new_gpts :=
          if Z.abs (n0 - n1) <=? 2 then (Z.min n0 n1, Z.min n0 n1) else (n0, n1) in
        s0 <- py_div (fst angular_sampling) f0 ;;
        s1 <- py_div (snd angular_sampling) f1 ;;
        Ok (new_gpts, (s0, s1))
      else Err UnsupportedResample
  | ResampleOther => Err UnsupportedResample
  end.

Section Pixelated.

(** [waves.downsampled_gpts(max_angle)], a method of the waves; [None]
    when it raises. *)
Variable downsampled_gpts : Waves -> angle_option -> option (nat * nat).

(** [PixelatedDetector.allocate_measurement], up to the shape of the
    allocated array; [scan] is the shape of the scan, if any.  The
    calibrations and the [Measurement] container are not modelled. *)
Definition allocate_measurement (self : PixelatedDetector) (waves : Waves)
           (scan : option (list Z)) : result (list Z) :=
  _ <- (if grid_defined waves then Ok tt else Err GridUndefined) ;;
  _ <- check_max_angle_exceeded waves (_max_angle self) ;;
  g <- match downsampled_gpts waves (_max_angle self) with
       | Some g => Ok g
       | None => Err ExternalError
       end ;;
  r <- _resampled_gpts self g (angular_sampling waves) ;;
  let '(new_gpts, new_angular_sampling) := r in
  s0 <- py_div 1 (fst new_angular_sampling) ;;
  s0 <- py_div s0 (inject_Z (fst new_gpts)) ;;
  s1 <- py_div 1 (snd new_angular_sampling) ;;
  s1 <- py_div s1 (inject_Z (snd new_gpts)) ;;
  let scan_shape := match scan with None => [] | Some shape => shape end in
  Ok (scan_shape ++ [fst new_gpts; snd new_gpts]).

End Pixelated.

(** * Square root and arctangent on concrete grids

    For running the labeler on a concrete grid: a square root that is exact
    on squares of rationals (and rounds down to a multiple of 1/den
    elsewhere), and an [arctan2] that is exact on the axes and diagonals
    and stays within the right octant elsewhere, so that it falls into the
    same azimuthal bin as the true angle whenever the number of azimuthal
    bins is 1, 2, 4 or 8. *)

Definition sqrt_grid (q : Q) : Q :=
  Z.sqrt (Qnum q * Zpos (Qden q)) # Qden q.

(** [arctan2_grid a b] stands for [np.arctan2(a, b)], the angle in
    (-pi, pi] of the point with abscissa [b] and ordinate [a]. *)
Definition arctan2_grid (a b : Q) : Q :=
  let half_pi := (np_pi / 2)%Q in
  if Qeq_bool a 0 && Qeq_bool b 0 then 0%Q
  else if Qle_bool 0 a
       then if Qle_bool 0 b
            then (half_pi * (a / (a + b)))%Q
            else (half_pi + half_pi * (- b / (a - b)))%Q
       else if Qle_bool 0 b
            then (half_pi * (a / (b - a)))%Q
            else (- np_pi + half_pi * (a / (a + b)))%Q.


(** ** A small grid for concrete runs

    4 x 4 grid points, 1 mrad per pixel on both axes: the frequency
    numbers are 0, 1, -2, -1 on each axis and alpha takes the values
    0, 1, sqrt 2, 2, sqrt 5 and sqrt 8 mrad.  One batch element of uniform
    intensity 1. *)
Definition small_waves : Waves :=
  mkWaves (4, 4)%nat (1, 1)%Q (2, 2)%Q (1 # 40)%Q true [repeat 1%Q 16].

(** * The remaining parts of detect.py *)

(** ** AbstractDetector: the save file *)

(** [s.endswith(suffix)] *)
Definition ends_with (suffix s : string) : bool :=
  let l := list_ascii_of_string s in
  let suf := list_ascii_of_string suffix in
  (length suf <=? length l)%nat
  && if list_eq_dec Ascii.ascii_dec (skipn (length l - length suf) l) suf
     then true else false.

(** The [_save_file] set by [AbstractDetector.__init__]. *)
Definition init_save_file (save_file : option string) : option string :=
  match save_file with
  | Some s => if ends_with ".hdf5" s then Some s else Some (s ++ ".hdf5")%string
  | None => None
  end.

(** ** Measurements *)

(** [Calibration(offset, sampling, units)] *)
Record Calibration : Type := mkCalibration {
  offset : Q;
  sampling : Q;
  units : string
}.

(** What the detectors read from a scan object. *)
Record Scan : Type := mkScan {
  scan_shape : list Z;
  scan_calibrations : list Calibration
}.

(** [Measurement(array, calibrations)], with the zero array given by its
    shape. *)
Record Measurement : Type := mkMeasurement {
  measurement_shape : list Z;
  measurement_calibrations : list Calibration
}.

(** [FlexibleAnnularMeasurement(array, spatial_sampling, angular_sampling,
    angular_offset)] *)
Record FlexibleAnnularMeasurement : Type := mkFlexibleAnnularMeasurement {
  flexible_shape : list Z;
  spatial_sampling : list Q;
  flexible_angular_sampling : Q;
  flexible_angular_offset : Q
}.

(** The shape and the calibrations taken from the scan: empty without a
    scan. *)
Definition scan_shape_of (scan : option Scan) : list Z :=
  match scan with None => [] | Some s => scan_shape s end.

Definition scan_calibrations_of (scan : option Scan) : list Calibration :=
  match scan with None => [] | Some s => scan_calibrations s end.

(** [_PolarDetector.allocate_measurement], without the write to the save
    file. *)
Definition polar_allocate_measurement (self : PolarDetector) (waves : Waves)
           (scan : option Scan) : result Measurement :=
  let shape := scan_shape_of scan in
  let calibrations := scan_calibrations_of scan in
  b <- _get_bins self (Some (min_pair (cutoff_scattering_angles waves))) ;;
  let '(nbins_radial, nbins_azimuthal, inner, _) := b in
  let '(shape, calibrations) :=
    if 1 <? nbins_radial
    then (shape ++ [nbins_radial],
          calibrations ++ [mkCalibration inner (_radial_steps self) "mrad"])
    else (shape, calibrations) in
  let '(shape, calibrations) :=
    if 1 <? nbins_azimuthal
    then (shape ++ [nbins_azimuthal],
          calibrations ++ [mkCalibration 0 (_azimuthal_steps self) "rad"])
    else (shape, calibrations) in
  Ok (mkMeasurement shape calibrations).

(** ** FlexibleAnnularDetector.detect and _PolarDetector.show *)

(** [array[i] = v] on a list *)
Fixpoint update {A : Type} (l : list A) (i : nat) (v : A) : list A :=
  match l, i with
  | [], _ => []
  | _ :: l', O => v :: l'
  | x :: l', S i' => x :: update l' i' v
  end.

(** [array.ravel()[indices] = v]: NumPy checks the indices before it
    writes. *)
Definition assign (array : list Z) (indices : list nat) (v : Z)
  : result (list Z) :=
  if forallb (fun i => i <? length array)%nat indices
  then Ok (fold_left (fun a i => update a i v) indices array)
  else Err IndexError.

(** for i, indices in enumerate(regions): array.ravel()[indices] = i *)
Fixpoint scatter (array : list Z) (i : nat) (regions : list (list nat))
  : result (list Z) :=
  match regions with
  | [] => Ok array
  | indices :: rest =>
      a <- assign array indices (Z.of_nat i) ;;
      scatter a (S i) rest
  end.

Section PolarMethods.

Variable sqrt : Q -> Q.
Variable arctan2 : Q -> Q -> Q.


(** [_PolarDetector.show], up to the array of region numbers, flattened,
    before [fftshift] and the plot. *)
Definition show_array (self : PolarDetector) (waves : Waves)
  : result (list Z) * PolarDetector :=
  if grid_defined waves
  then
    let array := repeat (-1) (fst (gpts waves) * snd (gpts waves)) in
    let '(r, self') :=
      _get_regions sqrt arctan2 self (gpts waves) (angular_sampling waves)
                   (Some (min_pair (cutoff_scattering_angles waves))) in
    (regions <- r ;; scatter array 0 regions, self')
  else (Err GridUndefined, self).

End PolarMethods.

(** ** PixelatedDetector: nodes and weights of the bilinear resampling *)

(** [np.fft.fftshift] of a 1D array: a roll by n // 2. *)
Definition fftshift {A : Type} (l : list A) : list A :=
  skipn ((length l + 1) / 2) l ++ firstn ((length l + 1) / 2) l.

(** One entry of [distances]: k_new[j] - k[i], set to inf ([None]) when
    negative. *)
Definition distance (k_new k : Q) : option Q :=
  if Qlt_le_dec (k_new - k) 0 then None else Some (k_new - k)%Q.

(** [a < b] on distances, inf being [None]. *)
Definition inf_lt (a b : option Q) : bool :=
  match a, b with
  | Some x, Some y => if Qlt_le_dec x y then true else false
  | Some _, None => true
  | None, _ => false
  end.

(** [min(0)] and [argmin(0)] of one column of [distances]: the smallest
    entry and the first index that holds it. *)
Fixpoint argmin_from (best_i : nat) (best : option Q) (i : nat)
         (column : list (option Q)) : nat * option Q :=
  match column with
  | [] => (best_i, best)
  | x :: rest =>
      if inf_lt x best
      then argmin_from i x (S i) rest
      else argmin_from best_i best (S i) rest
  end.

Definition column_argmin (column : list (option Q)) : result (nat * option Q) :=
  match column with
  | [] => Err ValueError
  | x :: rest => Ok (argmin_from 0 x 1 rest)
  end.

(** One entry of [w]: the smallest distance over k[1] - k[0], with inf
    replaced by 0; [None] is a value that is not finite (nan, -inf). *)
Definition weight_of (smallest : option Q) (spacing : Q) : option Q :=
  match smallest with
  | None => if Qlt_le_dec spacing 0 then None else Some 0%Q
  | Some dist =>
      if Qeq_bool spacing 0
      then if Qeq_bool dist 0 then None else Some 0%Q
      else Some (dist / spacing)%Q
  end.

Fixpoint sequence {A : Type} (l : list (result A)) : result (list A) :=
  match l with
  | [] => Ok []
  | r :: rest => a <- r ;; tail <- sequence rest ;; Ok (a :: tail)
  end.

(** The body of the loop of [_bilinear_nodes_and_weight] for one axis with
    [n] old and [m] new grid points and samplings [r] and [d]: the node
    and the weight of every new frequency. *)
Definition axis_nodes_and_weights (n m : nat) (r d : Q)
  : result (list nat * list (option Q)) :=
  let k := fftshift (fftfreq n r) in
  let k_new := fftshift (fftfreq m d) in
  columns <- sequence (map (fun kn => column_argmin (map (distance kn) k))
                           k_new) ;;
  match k with
  | k0 :: k1 :: _ =>
      Ok (map fst columns,
          map (fun c => weight_of (snd c) (k1 - k0)) columns)
  | _ => Err IndexError
  end.

(** [PixelatedDetector._bilinear_nodes_and_weight], up to the broadcast of
    the four arrays: (v, vw) for the first axis, (u, uw) for the second. *)
Definition _bilinear_nodes_and_weight
           (old_shape new_shape : nat * nat)
           (old_angular_sampling new_angular_sampling : Q * Q)
  : result ((list nat * list (option Q)) * (list nat * list (option Q))) :=
  r0 <- py_div 1 (fst old_angular_sampling) ;;
  r0 <- py_div r0 (inject_Z (Z.of_nat (fst old_shape))) ;;
  r1 <- py_div 1 (snd old_angular_sampling) ;;
  r1 <- py_div r1 (inject_Z (Z.of_nat (snd old_shape))) ;;
  d0 <- py_div 1 (fst new_angular_sampling) ;;
  d0 <- py_div d0 (inject_Z (Z.of_nat (fst new_shape))) ;;
  d1 <- py_div 1 (snd new_angular_sampling) ;;
  d1 <- py_div d1 (inject_Z (Z.of_nat (snd new_shape))) ;;
  first <- axis_nodes_and_weights (fst old_shape) (fst new_shape) r0 d0 ;;
  second <- axis_nodes_and_weights (snd old_shape) (snd new_shape) r1 d1 ;;
  Ok (first, second).


(** * src/abtem/transform.py *)

(** A NumPy matrix as the list of its rows. *)
Definition matrix := list (list Q).

(** The part of an ASE [Atoms] object that [is_orthogonal] and
    [standardize_cell] read and write: the 3 x 3 cell, one lattice vector
    per row, and the positions, one row per atom.  [Atoms.set_cell] stores
    the cell and leaves the positions where they are. *)
Record Atoms := mkAtoms {
  atoms_cell : matrix;
  atoms_positions : matrix
}.

(** The shape of every ASE cell. *)
Definition is_3x3 (m : matrix) : Prop :=
  length m = 3%nat /\ Forall (fun row => length row = 3%nat) m.

(** m[i, j] *)
Definition entry (m : matrix) (i j : nat) : Q := nth j (nth i m []) 0%Q.

(** m[:, j] *)
Definition column (m : matrix) (j : nat) : list Q :=
  map (fun row => nth j row 0%Q) m.

(** [np.identity(3)] *)
Definition identity3 : matrix := [[1; 0; 0]; [0; 1; 0]; [0; 0; 1]]%Q.

(** [np.abs] of a matrix *)
Definition np_abs (m : matrix) : matrix := map (map Qabs) m.

(** m * t for a scalar t *)
Definition matrix_scale (m : matrix) (t : Q) : matrix :=
  map (map (fun x => x * t)%Q) m.

Definition vector_add (a b : list Q) : list Q :=
  map (fun xy => fst xy + snd xy)%Q (combine a b).

Definition vector_sub (a b : list Q) : list Q :=
  map (fun xy => fst xy - snd xy)%Q (combine a b).

(** a + b and a - b for matrices of one shape *)
Definition matrix_add (a b : matrix) : matrix :=
  map (fun rows => vector_add (fst rows) (snd rows)) (combine a b).

Definition matrix_sub (a b : matrix) : matrix :=
  map (fun rows => vector_sub (fst rows) (snd rows)) (combine a b).

(** [np.argmax] of a 1D array: the first index of the largest entry. *)
Fixpoint argmax_from (best_i : nat) (best : Q) (i : nat) (l : list Q) : nat :=
  match l with
  | [] => best_i
  | x :: rest =>
      if Qlt_le_dec best x
      then argmax_from i x (S i) rest
      else argmax_from best_i best (S i) rest
  end.

Definition argmax (l : list Q) : nat :=
  match l with
  | [] => 0%nat
  | x :: rest => argmax_from 0 x 1 rest
  end.

(** [np.argmax(m, 0)] for a matrix with three columns: one row index per
    column. *)
Definition argmax_axis0 (m : matrix) : list nat :=
  map (fun j => argmax (column m j)) (seq 0 3).

(** m[indices]: the rows of m picked by an index array *)
Definition take_rows (m : matrix) (indices : list nat) : matrix :=
  map (fun i => nth i m []) indices.

(** [np.sum(m, axis=0)] for a matrix with three columns *)
Definition sum_axis0 (m : matrix) : list Q :=
  map (fun j => np_sum (column m j)) (seq 0 3).

(** m[~np.eye(3, dtype=bool)]: the six entries off the diagonal, row by
    row. *)
Definition off_diagonal (m : matrix) : list Q :=
  flat_map (fun i => map (entry m i)
                         (filter (fun j => negb (j =? i)%nat) (seq 0 3)))
           (seq 0 3).

(** The default of [tol]: 1e-12. *)
Definition default_tol : Q := 1 # 1000000000000.

(** [is_orthogonal(atoms, tol)] *)
Definition is_orthogonal (atoms : Atoms) (tol : Q) : bool :=
  negb (existsb (fun x => if Qlt_le_dec tol (Qabs x) then true else false)
                (off_diagonal (atoms_cell atoms))).

(** [standardize_cell(atoms, tol)]: the atoms after the call, which changes
    them in place and returns nothing. *)
Definition standardize_cell (atoms : Atoms) (tol : Q) : Atoms :=
  let old_cell := atoms_cell atoms in
  let cell := matrix_add (np_abs old_cell) (matrix_scale identity3 tol) in
  let cell := take_rows cell (argmax_axis0 cell) in
  let shift := map (fun s => s / 2)%Q (sum_axis0 (matrix_sub cell old_cell)) in
  mkAtoms cell (map (fun p => vector_add p shift) (atoms_positions atoms)).

(** * Rounded arithmetic

    The definitions above compute with exact rationals.  Where a value
    goes through [floor], [ceil] or [int], the rounding of the float
    operations decides the result, and the definitions below follow the
    code operation by operation through a rounding. *)

(** A rounding sends the exact result of an operation to the float the
    operation returns, and to [None] when that float is not finite. *)
Definition rounding : Type := Q -> option Q.

(** No rounding at all. *)
Definition exact : rounding := fun x => Some x.

(** 2^e *)
Definition pow2 (e : Z) : Q :=
  match e with
  | Z0 => 1%Q
  | Zpos p => inject_Z (2 ^ Zpos p)
  | Zneg p => (1 # (2 ^ p))%Q
  end.

(** floor(log2 a) of a positive rational *)
Definition ilog2 (a : Q) : Z :=
  let l := Z.log2 (Qnum a) - Z.log2 (Zpos (Qden a)) in
  if Qle_bool (pow2 l) a then l else l - 1.

(** The nearest integer, ties to even. *)
Definition round_half_even (q : Q) : Z :=
  let f := Qfloor q in
  match Qcompare (q - inject_Z f) (1 # 2) with
  | Lt => f
  | Gt => f + 1
  | Eq => if Z.even f then f else f + 1
  end.

(** IEEE 754 rounding to nearest, ties to even, into the binary format with
    [prec] significant bits and least and largest exponents [emin] and
    [emax] of the last bit: subnormal numbers included, [None] beyond the
    largest finite number. *)
Definition binary_round (prec emin emax : Z) (x : Q) : option Q :=
  if Qeq_bool x 0 then Some 0%Q
  else
    let a := Qabs x in
    let e := Z.max (ilog2 a - (prec - 1)) emin in
    let m := round_half_even (a / pow2 e) in
    let r := Qred (inject_Z m * pow2 e) in
    if Qle_bool r (inject_Z (2 ^ prec - 1) * pow2 emax)
    then Some (if Qle_bool 0 x then r else Qred (- r))
    else None.

(** Python floats and [numpy.float64]; [numpy.float32]. *)
Definition binary64 : rounding := binary_round 53 (-1074) 971.
Definition binary32 : rounding := binary_round 24 (-149) 104.

(** The double and the single that a decimal literal denotes. *)
Definition double (x : Q) : Q :=
  match binary64 x with Some y => y | None => 0%Q end.

Definition single (x : Q) : Q :=
  match binary32 x with Some y => y | None => 0%Q end.

(** ** [_get_bins] with rounding *)

(** The cutoff scattering angle comes from the waves, as a Python float or
    as a [numpy.float64]: they divide by zero differently. *)
Inductive float_kind : Type := PyFloat | NpFloat64.

(** A float that is inf reaches [int(np.ceil(...))], which raises. *)
Definition finite (x : option Q) : result Q :=
  match x with
  | Some y => Ok y
  | None => Err OverflowError
  end.

(** [_PolarDetector._get_bins], every operation rounded by [fl].  The
    limits and steps of the detector are Python floats.  With a
    [numpy.float64] cutoff a radial step of zero raises nothing at the
    division: outer becomes nan and [int(np.ceil(nan))] raises a
    ValueError. *)
Definition _get_bins_fl (fl : rounding) (self : PolarDetector)
           (cutoff_scattering_angle : option (float_kind * Q))
  : result (Z * Z * Q * Q) :=
  let inner := match _inner self with None => 0%Q | Some i => i end in
  outer <- match _outer self with
           | None =>
               match cutoff_scattering_angle with
               | None => Err OuterNotSet
               | Some (kind, c) =>
                   if Qeq_bool (_radial_steps self) 0
                   then match kind with
                        | PyFloat => Err ZeroDivisionError
                        | NpFloat64 => Err ValueError
                        end
                   else
                     q <- finite (fl (c / _radial_steps self)%Q) ;;
                     finite (fl (inject_Z (Qfloor q) * _radial_steps self)%Q)
               end
           | Some o => Ok o
           end ;;
  r <- (if Qeq_bool (_radial_steps self) 0 then Err ZeroDivisionError
        else w <- finite (fl (outer - inner)%Q) ;;
             finite (fl (w / _radial_steps self)%Q)) ;;
  a <- (if Qeq_bool (_azimuthal_steps self) 0 then Err ZeroDivisionError
        else finite (fl (two_pi / _azimuthal_steps self)%Q)) ;;
  Ok (ceil r, ceil a, inner, outer).

(** ** The polar region labeler with rounding *)

Section RoundedLabeler.

(** [fl] rounds the operations on Python floats, [fla] those on the
    frequency arrays; a Python scalar that meets an array is first brought
    to the format of the array, by [fla] too. *)
Variable fl : rounding.
Variable fla : rounding.

(** [np.sqrt] and [np.arctan2] on the arrays. *)
Variable sqrt : Q -> Q.
Variable arctan2 : Q -> Q -> Q.

(** A value that is not finite is stored into an integer array sooner or
    later; the model follows the run no further. *)
Definition stored (x : option Q) : result Q :=
  match x with
  | Some y => Ok y
  | None => Err NanToInt
  end.

(** alpha of one cell; [None] is inf, from an overflow of the squares. *)
Definition alpha_fl (k : Q * Q) : option Q :=
  match fla (fst k * fst k)%Q, fla (snd k * snd k)%Q with
  | Some x2, Some y2 =>
      match fla (x2 + y2)%Q with
      | Some s => Some (sqrt s)
      | None => None
      end
  | _, _ => None
  end.

(** [a % b] of NumPy: the exact remainder of C [fmod], with the sign of
    [a], and [b] added, in one rounded addition, when the signs of the
    remainder and of [b] differ. *)
Definition np_mod (a b : Q) : result Q :=
  if Qeq_bool b 0 then Err NanToInt
  else
    let r := (a - b * inject_Z (trunc (a / b)))%Q in
    if Qeq_bool r 0 then Ok 0%Q
    else if xorb (negb (Qle_bool 0 b)) (negb (Qle_bool 0 r))
         then stored (fla (r + b)%Q)
         else Ok r.

(** One entry of [angular_bins]; [tp] and [na] are 2 pi and
    nbins_azimuthal in the format of the arrays. *)
Definition angular_bin_fl (tp na : Q) (nbins_azimuthal : Z) (k : Q * Q)
  : result Z :=
  angle <- np_mod (arctan2 (fst k) (snd k)) tp ;;
  f <- stored (fla (angle / tp)%Q) ;;
  v <- stored (fla (na * f)%Q) ;;
  Ok (clip (Qfloor v) 0 (nbins_azimuthal - 1)).

(** The value stored in radial_bins for a valid cell; [ci], [d] and [n]
    are inner, outer - inner and nbins_radial in the format of the
    arrays. *)
Definition radial_bin_fl (ci d n alpha : Q) : result Z :=
  t <- stored (fla (alpha - ci)%Q) ;;
  p <- stored (fla (n * t)%Q) ;;
  q <- (if Qeq_bool d 0 then Err NanToInt else stored (fla (p / d)%Q)) ;;
  Ok (trunc q).

(** One entry of [bins]. *)
Definition cell_label_fl (ci co d n tp na : Q) (nbins_azimuthal : Z)
           (k : Q * Q) : result Z :=
  azimuthal <- angular_bin_fl tp na nbins_azimuthal k ;;
  match alpha_fl k with
  | Some alpha =>
      if Qle_bool ci alpha && Qle_bool alpha co
      then radial <- radial_bin_fl ci d n alpha ;;
           Ok (azimuthal + radial * nbins_azimuthal)
      else Ok (-1)
  | None => Ok (-1)
  end.

(** Lines 22-39 of [_polar_regions] on given frequency axes. *)
Definition label_cells_fl (kx ky : list Q) (inner outer : Q)
           (nbins_radial nbins_azimuthal : Z) : result (list Z) :=
  ci <- stored (fla inner) ;;
  co <- stored (fla outer) ;;
  width <- stored (fl (outer - inner)%Q) ;;
  d <- stored (fla width) ;;
  n <- stored (fla (inject_Z nbins_radial)) ;;
  na <- stored (fla (inject_Z nbins_azimuthal)) ;;
  tp <- stored (fla two_pi) ;;
  sequence (map (cell_label_fl ci co d n tp na nbins_azimuthal)
                (cells kx ky)).

(** Python float division, rounded. *)
Definition py_div_fl (x y : Q) : result Q :=
  if Qeq_bool y 0 then Err ZeroDivisionError else stored (fl (x / y)%Q).

(** Modelled from the spec: [abtem.utils.spatial_frequencies] is not part of
    the sources at hand, and section 4.1 does not give the format of the
    two arrays: they hold the frequencies of [spatial_frequencies], brought
    to the format of the arrays. *)
Definition spatial_frequencies_fl (gpts : nat * nat) (sampling : Q * Q)
  : result (list Q * list Q) :=
  kx <- sequence (map (fun x => stored (fla x))
                      (fst (spatial_frequencies gpts sampling))) ;;
  ky <- sequence (map (fun y => stored (fla y))
                      (snd (spatial_frequencies gpts sampling))) ;;
  Ok (kx, ky).

(** The frequency axes of lines 19-23. *)
Definition frequency_axes_fl (gpts : nat * nat) (angular_sampling : Q * Q)
  : result (list Q * list Q) :=
  s0 <- py_div_fl 1 (fst angular_sampling) ;;
  s0 <- py_div_fl s0 (inject_Z (Z.of_nat (fst gpts))) ;;
  s1 <- py_div_fl 1 (snd angular_sampling) ;;
  s1 <- py_div_fl s1 (inject_Z (Z.of_nat (snd gpts))) ;;
  spatial_frequencies_fl gpts (s0, s1).

Definition _polar_regions_fl (gpts : nat * nat) (angular_sampling : Q * Q)
           (inner outer : Q) (nbins_radial nbins_azimuthal : Z)
  : result (list Z) :=
  k <- frequency_axes_fl gpts angular_sampling ;;
  label_cells_fl (fst k) (snd k) inner outer nbins_radial nbins_azimuthal.

End RoundedLabeler.

(** ** Concrete runs with rounding *)

(** The correctly rounded square root of a binary format: the float
    nearest to the square root of [x], ties to even. *)
Definition binary_sqrt (prec emin : Z) (x : Q) : Q :=
  if Qle_bool x 0 then 0%Q
  else
    let e := Z.max (ilog2 x / 2 - (prec - 1)) emin in
    let y := (x / pow2 (2 * e))%Q in
    let m := Z.sqrt (Qfloor y) in
    let half := (inject_Z (m * m + m) + (1 # 4))%Q in
    let m' := match Qcompare y half with
              | Lt => m
              | Gt => m + 1
              | Eq => if Z.even m then m else m + 1
              end in
    Qred (inject_Z m' * pow2 e).

Definition sqrt64 : Q -> Q := binary_sqrt 53 (-1074).
Definition sqrt32 : Q -> Q := binary_sqrt 24 (-149).

(** A 1 x 4 grid, 1 mrad per pixel: the frequency numbers of the second
    axis are 0, 1, -2, -1 and alpha takes the values 0, 1, 2, 1 mrad.  One
    batch element of uniform intensity 1. *)
Definition rim_waves : Waves :=
  mkWaves (1, 4)%nat (1, 1)%Q (2, 2)%Q (1 # 40)%Q true [repeat 1%Q 4].

(** ** The segmented detector with rounding *)

(** A float that became inf or nan where nothing raises. *)
Definition followed (x : option Q) : result Q :=
  match x with
  | Some y => Ok y
  | None => Err NotFollowed
  end.

(** [x / n] for a Python float [x] and a Python integer [n]: the integer
    is converted to a float first. *)
Definition py_div_int (fl : rounding) (x : option Q) (n : Z) : result Q :=
  d <- finite (fl (inject_Z n)) ;;
  if Qeq_bool d 0 then Err ZeroDivisionError
  else x' <- followed x ;; followed (fl (x' / d)%Q).

(** [SegmentedDetector.__init__] *)
Definition SegmentedDetector_fl (fl : rounding) (inner outer : Q)
           (nbins_radial nbins_angular : Z) : result PolarDetector :=
  radial_steps <- py_div_int fl (fl (outer - inner)%Q) nbins_radial ;;
  azimuthal_steps <- py_div_int fl (Some two_pi) nbins_angular ;;
  Ok (mkPolarDetector (Some inner) (Some outer) radial_steps azimuthal_steps
                      (Some outer) None).

(** The property [SegmentedDetector.nbins_radial] *)
Definition nbins_radial_fl (fl : rounding) (self : PolarDetector) : result Z :=
  match _outer self, _inner self with
  | Some outer, Some inner =>
      if Qeq_bool (_radial_steps self) 0 then Err ZeroDivisionError
      else w <- finite (fl (outer - inner)%Q) ;;
           x <- finite (fl (w / _radial_steps self)%Q) ;;
           Ok (trunc x)
  | _, _ => Err TypeError
  end.

(** The property [SegmentedDetector.nbins_angular] *)
Definition nbins_angular_fl (fl : rounding) (self : PolarDetector) : result Z :=
  if Qeq_bool (_azimuthal_steps self) 0 then Err ZeroDivisionError
  else x <- finite (fl (two_pi / _azimuthal_steps self)%Q) ;; Ok (trunc x).

(** The setter of [SegmentedDetector.nbins_radial] *)
Definition set_nbins_radial_fl (fl : rounding) (value : Z) (self : PolarDetector)
  : result PolarDetector :=
  match _outer self, _inner self with
  | Some outer, Some inner =>
      steps <- py_div_int fl (fl (outer - inner)%Q) value ;;
      Ok (notify_changed
            (mkPolarDetector (_inner self) (_outer self) steps
                             (_azimuthal_steps self) (_max_detected_angle self)
                             (cache self)))
  | _, _ => Err TypeError
  end.

(** The setter of [SegmentedDetector.nbins_angular] *)
Definition set_nbins_angular_fl (fl : rounding) (value : Z) (self : PolarDetector)
  : result PolarDetector :=
  steps <- py_div_int fl (Some two_pi) value ;;
  Ok (notify_changed
        (mkPolarDetector (_inner self) (_outer self) (_radial_steps self)
                         steps (_max_detected_angle self) (cache self))).

(** ** Allocated measurements with rounding *)

(** [_PolarDetector.allocate_measurement], without the write to the save
    file; [kind] is the kind of float that
    [min(waves.cutoff_scattering_angles)] is. *)
Definition polar_allocate_measurement_fl (fl : rounding) (kind : float_kind)
           (self : PolarDetector) (waves : Waves) (scan : option Scan)
  : result Measurement :=
  let shape := scan_shape_of scan in
  let calibrations := scan_calibrations_of scan in
  b <- _get_bins_fl fl self
         (Some (kind, min_pair (cutoff_scattering_angles waves))) ;;
  let '(nbins_radial, nbins_azimuthal, inner, _) := b in
  let '(shape, calibrations) :=
    if 1 <? nbins_radial
    then (shape ++ [nbins_radial],
          calibrations ++ [mkCalibration inner (_radial_steps self) "mrad"])
    else (shape, calibrations) in
  let '(shape, calibrations) :=
    if 1 <? nbins_azimuthal
    then (shape ++ [nbins_azimuthal],
          calibrations ++ [mkCalibration 0 (_azimuthal_steps self) "rad"])
    else (shape, calibrations) in
  Ok (mkMeasurement shape calibrations).

(** [FlexibleAnnularDetector.allocate_measurement] *)
Definition flexible_allocate_measurement_fl (fl : rounding) (kind : float_kind)
           (self : PolarDetector) (waves : Waves) (scan : option Scan)
  : result FlexibleAnnularMeasurement :=
  measurement <- polar_allocate_measurement_fl fl kind self waves scan ;;
  match rev (measurement_calibrations measurement) with
  | [] => Err IndexError
  | last :: before =>
      Ok (mkFlexibleAnnularMeasurement
            (measurement_shape measurement)
            (map sampling (rev before))
            (sampling last) (offset last))
  end.

(** ** Accurate roundings *)

(** [y] is [x] rounded by [fl], with a relative error of at most [u]; for
    doubles that are not subnormal [u] is 2^-53. *)
Definition rounds_to (fl : rounding) (u x y : Q) : Prop :=
  fl x = Some y /\ (Qabs (y - x) <= u * Qabs x)%Q.

(** The unit roundoff of the doubles. *)
Definition u64 : Q := 1 # 2 ^ 53.
(** * Properties of the grouper *)

Section GrouperFacts.

Variable labels : list Z.

Let key := label_at labels.
Let le_key (i j : nat) : Prop := key i <= key j.

Lemma insert_index_perm (i : nat) (order : list nat) :
  Permutation (insert_index labels i order) (i :: order).
Proof.
  induction order as [|j rest IH]; simpl.
  - apply Permutation_refl.
  - destruct (label_at labels i <=? label_at labels j).
    + apply Permutation_refl.
    + apply perm_trans with (j :: i :: rest).
      * apply perm_skip, IH.
      * apply perm_swap.
Qed.

Lemma insert_index_sorted (i : nat) (order : list nat) :
  StronglySorted le_key order ->
  StronglySorted le_key (insert_index labels i order).
Proof.
  induction 1 as [|j rest Hs IH Hall]; simpl.
  - constructor; constructor.
  - destruct (label_at labels i <=? label_at labels j) eqn:E.
    + apply Z.leb_le in E.
      constructor.
      * constructor; assumption.
      * constructor; [exact E|].
        rewrite Forall_forall in Hall |- *.
        intros x Hx. specialize (Hall x Hx). unfold le_key, key in *. lia.
    + apply Z.leb_gt in E.
      constructor; [exact IH|].
      rewrite Forall_forall in Hall |- *.
      intros x Hx.
      apply (Permutation_in x (insert_index_perm i rest)) in Hx.
      destruct Hx as [<-|Hx].
      * unfold le_key, key. lia.
      * apply Hall, Hx.
Qed.

Lemma argsort_perm : Permutation (argsort labels) (seq 0 (length labels)).
Proof.
  unfold argsort.
  induction (seq 0 (length labels)) as [|i l IH]; simpl.
  - constructor.
  - apply perm_trans with (i :: fold_right (insert_index labels) [] l).
    + apply insert_index_perm.
    + apply perm_skip, IH.
Qed.

Lemma argsort_sorted : StronglySorted le_key (argsort labels).
Proof.
  unfold argsort.
  induction (seq 0 (length labels)) as [|i l IH]; simpl.
  - constructor.
  - apply insert_index_sorted, IH.
Qed.

Lemma argsort_NoDup : NoDup (argsort labels).
Proof.
  apply (Permutation_NoDup (Permutation_sym argsort_perm)), seq_NoDup.
Qed.

Lemma in_argsort (i : nat) : In i (argsort labels) <-> (i < length labels)%nat.
Proof.
  split; intro H.
  - apply (Permutation_in i argsort_perm) in H. apply in_seq in H. lia.
  - apply (Permutation_in i (Permutation_sym argsort_perm)).
    apply in_seq. lia.
Qed.

(** On a sorted index list whose labels all exceed [v], no index carries [v]. *)
Lemma filter_above (v : Z) (order : list nat) :
  Forall (fun j => v < key j) order ->
  filter (fun i => key i =? v) order = [].
Proof.
  induction 1 as [|j rest Hj _ IH]; simpl; [reflexivity|].
  destruct (key j =? v) eqn:E; [apply Z.eqb_eq in E; lia | exact IH].
Qed.

Lemma slice_from_start (v : Z) (order : list nat) :
  StronglySorted le_key order ->
  Forall (fun j => v <= key j) order ->
  firstn (searchsorted_right (map key order) v) order
  = filter (fun i => key i =? v) order.
Proof.
  induction 1 as [|j rest Hs IH Hall]; intro Hge; simpl; [reflexivity|].
  inversion Hge as [|? ? Hj Hrest]; subst.
  destruct (key j <=? v) eqn:E.
  - apply Z.leb_le in E.
    assert (key j = v) as Ej by lia.
    rewrite (proj2 (Z.eqb_eq _ _) Ej). simpl. f_equal. apply IH, Hrest.
  - apply Z.leb_gt in E.
    destruct (key j =? v) eqn:E'; [apply Z.eqb_eq in E'; lia|].
    simpl. symmetry. apply filter_above.
    rewrite Forall_forall in Hall |- *. intros x Hx.
    specialize (Hall x Hx). unfold le_key in Hall. lia.
Qed.

(** The run between the two binary-search bounds holds exactly the
    indices labelled [v]. *)
Lemma slice_is_filter (v : Z) (order : list nat) :
  StronglySorted le_key order ->
  slice order (searchsorted_left (map key order) v)
              (searchsorted_right (map key order) v)
  = filter (fun i => key i =? v) order.
Proof.
  unfold slice.
  induction 1 as [|j rest Hs IH Hall]; simpl; [reflexivity|].
  destruct (key j <? v) eqn:E.
  - apply Z.ltb_lt in E.
    assert ((key j <=? v) = true) as -> by (apply Z.leb_le; lia).
    assert ((key j =? v) = false) as -> by (apply Z.eqb_neq; lia).
    simpl. exact IH.
  - apply Z.ltb_ge in E.
    assert (Forall (fun x => v <= key x) (j :: rest)) as Hge.
    { constructor; [exact E|].
      rewrite Forall_forall in Hall |- *. intros x Hx.
      specialize (Hall x Hx). unfold le_key in Hall. lia. }
    rewrite Nat.sub_0_r. simpl skipn.
    apply (slice_from_start v (j :: rest)); [constructor; assumption | exact Hge].
Qed.

Lemma np_max_spec (m : Z) :
  np_max labels = Ok m -> In m labels /\ Forall (fun x => x <= m) labels.
Proof.
  unfold np_max. destruct labels as [|x rest]; [discriminate|].
  intro H. injection H as <-.
  clear key le_key. revert x.
  induction rest as [|y rest IH]; intro x; simpl.
  - split; [left; reflexivity | constructor; [lia | constructor]].
  - destruct (IH (Z.max x y)) as [Hin Hall].
    inversion Hall as [|? ? Hxy Hrest]; subst.
    split.
    + destruct Hin as [Hin|Hin].
      * simpl. lia.
      * simpl. auto.
    + constructor; [lia|]. constructor; [lia | exact Hrest].
Qed.

(** What [_label_to_index] returns: one group for each of 0 .. max(labels),
    the group of [v] holding the indices labelled [v]. *)
Lemma label_to_index_groups (groups : list (list nat)) :
  _label_to_index labels = Ok groups ->
  exists m, np_max labels = Ok m /\
    groups = map (fun v => filter (fun i => key i =? v) (argsort labels))
                 (arange (m + 1)).
Proof.
  unfold _label_to_index.
  destruct (np_max labels) as [m|e] eqn:Em; simpl; [|discriminate].
  intro H. injection H as <-.
  exists m. split; [reflexivity|].
  apply map_ext. intro v.
  apply slice_is_filter, argsort_sorted.
Qed.

End GrouperFacts.

(** * Properties of the labeler *)

Lemma trunc_nonneg (q : Q) : (0 <= q)%Q -> trunc q = Qfloor q /\ 0 <= trunc q.
Proof.
  destruct q as [n d]. unfold Qle, trunc, Qfloor. simpl. intro H.
  assert (0 <= n) as Hn by lia.
  split.
  - apply Z.quot_div_nonneg; lia.
  - apply Z.quot_pos; lia.
Qed.

Lemma clip_range (x n : Z) : 1 <= n -> 0 <= clip x 0 (n - 1) <= n - 1.
Proof. unfold clip. lia. Qed.

Lemma scaled_bin_nonneg (n : Z) (alpha inner outer : Q) :
  0 <= n -> (inner <= alpha)%Q -> (inner < outer)%Q ->
  (0 <= inject_Z n * (alpha - inner) / (outer - inner))%Q.
Proof.
  intros Hn Ha Hio.
  unfold Qdiv. apply Qmult_le_0_compat.
  - apply Qmult_le_0_compat.
    + unfold Qle. simpl. lia.
    + lra.
  - apply Qinv_le_0_compat. lra.
Qed.

Lemma scaled_bin_at_outer (n : Z) (alpha inner outer : Q) :
  (inner < outer)%Q -> (alpha == outer)%Q ->
  Qfloor (inject_Z n * (alpha - inner) / (outer - inner)) = n.
Proof.
  intros Hio Ha.
  transitivity (Qfloor (inject_Z n)); [|apply Qfloor_Z].
  apply Qfloor_comp.
  rewrite Ha. field. lra.
Qed.

Lemma nth_error_list_prod {A B : Type} (l1 : list A) (l2 : list B)
      (i j : nat) (a : A) (b : B) :
  nth_error l1 i = Some a -> nth_error l2 j = Some b ->
  nth_error (list_prod l1 l2) (i * length l2 + j) = Some (a, b).
Proof.
  revert i. induction l1 as [|x l1 IH]; intros i Hi Hj.
  - destruct i; discriminate.
  - simpl list_prod. destruct i as [|i]; simpl in Hi.
    + injection Hi as ->. simpl.
      rewrite nth_error_app1.
      * rewrite nth_error_map, Hj. reflexivity.
      * rewrite length_map. apply nth_error_Some. rewrite Hj. discriminate.
    + rewrite nth_error_app2; rewrite length_map; [|simpl; lia].
      replace (S i * length l2 + j - length l2)%nat with (i * length l2 + j)%nat
        by (simpl; lia).
      apply IH; assumption.
Qed.

Lemma label_at_map {A : Type} (f : A -> Z) (l : list A) (i : nat) (k : A) :
  nth_error l i = Some k -> label_at (map f l) i = f k.
Proof.
  intro H. unfold label_at.
  apply nth_error_nth. rewrite nth_error_map, H. reflexivity.
Qed.

Lemma label_at_outside (labels : list Z) (i : nat) :
  (length labels <= i)%nat -> label_at labels i = -1.
Proof. intro H. unfold label_at. apply nth_overflow, H. Qed.

Section LabelerFacts.

Variable sqrt : Q -> Q.
Variable arctan2 : Q -> Q -> Q.
Variables inner outer : Q.
Variables nbins_radial nbins_azimuthal : Z.

Hypothesis band : (inner < outer)%Q.
Hypothesis radial_count : 0 <= nbins_radial.

Lemma valid_bounds (k : Q * Q) :
  valid sqrt inner outer k = true <->
  (inner <= alpha_of sqrt k)%Q /\ (alpha_of sqrt k <= outer)%Q.
Proof.
  unfold valid. rewrite andb_true_iff, !Qle_bool_iff. reflexivity.
Qed.

Lemma radial_bin_floor (k : Q * Q) :
  valid sqrt inner outer k = true ->
  radial_bin sqrt inner outer nbins_radial k
  = Qfloor (inject_Z nbins_radial * (alpha_of sqrt k - inner) / (outer - inner))
  /\ 0 <= radial_bin sqrt inner outer nbins_radial k.
Proof.
  intro Hv. apply valid_bounds in Hv. destruct Hv as [Hlo _].
  unfold radial_bin. apply trunc_nonneg.
  apply scaled_bin_nonneg; assumption.
Qed.

Lemma label_cells_ok (kx ky : list Q) :
  label_cells sqrt arctan2 kx ky inner outer nbins_radial nbins_azimuthal
  = Ok (map (cell_label sqrt arctan2 inner outer nbins_radial nbins_azimuthal)
            (cells kx ky)).
Proof.
  unfold label_cells.
  assert (Qeq_bool (outer - inner) 0 = false) as ->.
  { apply not_true_is_false. intro H. apply Qeq_bool_iff in H. lra. }
  reflexivity.
Qed.

(** With at least one azimuthal bin, the valid cells are the cells with a
    label that is not negative. *)
Lemma cell_label_sign (k : Q * Q) :
  1 <= nbins_azimuthal ->
  (valid sqrt inner outer k = true ->
     0 <= cell_label sqrt arctan2 inner outer nbins_radial nbins_azimuthal k)
  /\ (valid sqrt inner outer k = false ->
     cell_label sqrt arctan2 inner outer nbins_radial nbins_azimuthal k = -1).
Proof.
  intro Hna. unfold cell_label.
  split; intro Hv; rewrite Hv; [|reflexivity].
  destruct (radial_bin_floor k Hv) as [_ Hr].
  pose proof (clip_range
    (Qfloor (inject_Z nbins_azimuthal * angle_fraction arctan2 k))
    nbins_azimuthal Hna) as Hc.
  unfold angular_bin. nia.
Qed.

End LabelerFacts.

(** * The regions form a partition of the valid cells *)

Lemma in_arange (n v : Z) : In v (arange n) <-> 0 <= v < n.
Proof.
  unfold arange. rewrite in_map_iff. split.
  - intros [k [<- Hk]]. apply in_seq in Hk. lia.
  - intro H. exists (Z.to_nat v). split; [lia|]. apply in_seq. lia.
Qed.

Lemma nth_error_arange (n : Z) (a : nat) (v : Z) :
  nth_error (arange n) a = Some v -> v = Z.of_nat a /\ Z.of_nat a < n.
Proof.
  unfold arange. rewrite nth_error_map. intro H.
  destruct (nth_error (seq 0 (Z.to_nat n)) a) as [k|] eqn:E; [|discriminate].
  injection H as <-.
  assert (a < length (seq 0 (Z.to_nat n)))%nat as Hlt
    by (apply nth_error_Some; rewrite E; discriminate).
  rewrite length_seq in Hlt.
  apply nth_error_nth with (d := 0%nat) in E.
  rewrite seq_nth in E by exact Hlt. simpl in E. subst k. lia.
Qed.

Lemma length_arange (n : Z) : length (arange n) = Z.to_nat n.
Proof. unfold arange. rewrite length_map, length_seq. reflexivity. Qed.

Section GroupFacts.

Variable labels : list Z.
Variable groups : list (list nat).
Hypothesis grouped : _label_to_index labels = Ok groups.

(** The group at position [a] holds the indices labelled [a]. *)
Lemma group_members (a : nat) (g : list nat) (i : nat) :
  nth_error groups a = Some g ->
  (In i g <-> (i < length labels)%nat /\ label_at labels i = Z.of_nat a).
Proof.
  destruct (label_to_index_groups labels groups grouped) as [m [_ ->]].
  rewrite nth_error_map.
  destruct (nth_error (arange (m + 1)) a) as [v|] eqn:E; [|discriminate].
  intro H. injection H as <-.
  apply nth_error_arange in E. destruct E as [-> _].
  rewrite filter_In, in_argsort, Z.eqb_eq. reflexivity.
Qed.

(** An index is in some group exactly when its label is not negative. *)
Lemma grouped_indices (i : nat) :
  (exists g, In g groups /\ In i g)
  <-> (i < length labels)%nat /\ 0 <= label_at labels i.
Proof.
  destruct (label_to_index_groups labels groups grouped) as [m [Hm Hg]].
  split.
  - intros [g [Hg_in Hi]].
    apply In_nth_error in Hg_in. destruct Hg_in as [a Ha].
    apply (group_members a g i Ha) in Hi. destruct Hi as [Hlt Hl].
    split; [exact Hlt | lia].
  - intros [Hlt Hl].
    destruct (np_max_spec labels m Hm) as [_ Hall].
    rewrite Forall_forall in Hall.
    assert (label_at labels i <= m) as Hle.
    { apply Hall. unfold label_at. apply nth_In, Hlt. }
    exists (filter (fun j => label_at labels j =? label_at labels i)
                   (argsort labels)).
    split.
    + rewrite Hg. apply in_map_iff. exists (label_at labels i).
      split; [reflexivity|]. apply in_arange. lia.
    + rewrite filter_In, in_argsort, Z.eqb_eq. auto.
Qed.


Lemma group_NoDup (g : list nat) : In g groups -> NoDup g.
Proof.
  destruct (label_to_index_groups labels groups grouped) as [m [_ ->]].
  rewrite in_map_iff. intros [v [<- _]].
  apply NoDup_filter, argsort_NoDup.
Qed.

(** One group per label from 0 to the largest label present. *)
Lemma groups_count (m : Z) :
  np_max labels = Ok m -> length groups = Z.to_nat (m + 1).
Proof.
  destruct (label_to_index_groups labels groups grouped) as [m' [Hm ->]].
  intro H. rewrite H in Hm. injection Hm as <-.
  rewrite length_map. apply length_arange.
Qed.

End GroupFacts.

Lemma label_to_index_total (labels : list Z) :
  labels <> [] -> exists groups, _label_to_index labels = Ok groups.
Proof.
  intro H. unfold _label_to_index.
  destruct labels as [|x rest]; [contradiction|].
  simpl. eexists. reflexivity.
Qed.

Lemma forallb_minus_one (labels : list Z) :
  forallb (Z.eqb (-1)) labels = true <-> Forall (fun x => x = -1) labels.
Proof.
  rewrite forallb_forall, Forall_forall.
  split; intros H x Hx; specialize (H x Hx).
  - apply Z.eqb_eq in H. lia.
  - apply Z.eqb_eq. lia.
Qed.



(** * The number of groups *)

(** What the grouper yields on the labels of the labeler: one group per
    label from 0 to the largest label that occurs, whatever the bin
    counts. *)
Lemma regions_count (sqrt : Q -> Q) (arctan2 : Q -> Q -> Q)
      (shape : nat * nat) (sampling : Q * Q) (inner outer : Q) (nr na : Z)
      (labels : list Z) (groups : list (list nat)) (m : Z) :
  _polar_regions sqrt arctan2 shape sampling inner outer nr na = Ok labels ->
  _label_to_index labels = Ok groups ->
  np_max labels = Ok m ->
  length groups = Z.to_nat (m + 1).
Proof.
  intros _ Hg Hm. apply (groups_count labels groups Hg m Hm).
Qed.

(** C3 (fails on the code). Two segmented detectors with 2 radial and
    4 azimuthal bins on a 4 x 4 grid with 1 mrad per pixel.  With inner = 0
    and outer = 1/2 only the central cell is valid and the grouper yields
    one group, not 8.  With outer = 2 the cells with alpha = outer get
    radial bin 2 and the grouper yields 12 groups, not 8. *)
Theorem group_count_differs_from_bin_count :
  (exists d,
      SegmentedDetector 0 (1 # 2) 2 4 = Ok d
      /\ _get_bins d (Some 2%Q) = Ok (2, 4, 0%Q, (1 # 2)%Q)
      /\ compute_regions sqrt_grid arctan2_grid d (4, 4)%nat (1, 1)%Q (Some 2%Q)
         = Ok [[0%nat]])
  /\ (exists d,
         SegmentedDetector 0 2 2 4 = Ok d
         /\ _get_bins d (Some 2%Q) = Ok (2, 4, 0%Q, 2%Q)
         /\ compute_regions sqrt_grid arctan2_grid d (4, 4)%nat (1, 1)%Q
                            (Some 2%Q)
            = Ok [[0]; []; []; []; [1; 5]; [4; 7]; [3; 15]; [12; 13];
                  []; []; [2]; [8]]%nat).
Proof.
  split; eexists; (split; [reflexivity|]);
    (split; [vm_compute; reflexivity|]); vm_compute; reflexivity.
Qed.

(** * Segmented detection when the group count is off *)

(** C7 (fails on the code). On the 4 x 4 grid, one batch element, 4 angular
    bins.  With 2 radial bins and outer = 1/2 only the central cell is
    valid, the grouper yields one group and the reshape to (-1, 2, 4)
    raises.  With 2 radial bins and outer = 2 it yields 12 groups and the
    reshape raises.  With 1 radial bin and outer = 2 it yields 8 groups
    and [detect] returns an array of shape (2, 1, 4) for a batch of one. *)
Theorem segmented_detect_shape_failure :
  (exists d,
      SegmentedDetector 0 (1 # 2) 2 4 = Ok d
      /\ nbins_radial d = Ok 2 /\ nbins_angular d = Ok 4
      /\ fst (segmented_detect sqrt_grid arctan2_grid d small_waves)
         = Err ValueError)
  /\ (exists d,
         SegmentedDetector 0 2 2 4 = Ok d
         /\ nbins_radial d = Ok 2 /\ nbins_angular d = Ok 4
         /\ fst (segmented_detect sqrt_grid arctan2_grid d small_waves)
            = Err ValueError)
  /\ (exists d,
         SegmentedDetector 0 2 1 4 = Ok d
         /\ nbins_radial d = Ok 1 /\ nbins_angular d = Ok 4
         /\ fst (segmented_detect sqrt_grid arctan2_grid d small_waves)
            = Ok [[[Some (3 # 16); Some (1 # 8); Some (1 # 8); Some (1 # 8)]];
                  [[Some 0; Some 0; Some (1 # 16); Some (1 # 16)]]]%Q).
Proof.
  split; [|split]; eexists; (split; [reflexivity|]);
    (split; [vm_compute; reflexivity|]);
    (split; [vm_compute; reflexivity|]);
    vm_compute; reflexivity.
Qed.

(** * Mutating the outer limit of an annular detector *)

(** C5 (fails on the code). An annular detector built with inner = 0 and
    outer = 3/2 detects 9/16 of the uniform intensity on the 4 x 4 grid.
    After [outer] is set to 3 it still detects 9/16, whether or not the
    write clears the cache, while a detector built with outer = 3, which
    is also what [__copy__] makes of the mutated detector, detects all of
    it: the setter leaves the radial step of the constructor in place, so
    the band is cut into two radial bins and only the first is summed. *)
Theorem annular_outer_mutation_differs_from_fresh :
  let detect d := annular_detect sqrt_grid arctan2_grid d small_waves true in
  let d1 := snd (detect (AnnularDetector 0 (3 # 2))) in
  fst (detect (AnnularDetector 0 (3 # 2))) = Ok [Some (9 # 16)%Q]
  /\ fst (detect (annular_set_outer 3 d1)) = Ok [Some (9 # 16)%Q]
  /\ fst (detect (annular_write_outer 3 d1)) = Ok [Some (9 # 16)%Q]
  /\ _get_bins (annular_set_outer 3 d1) (Some 2%Q) = Ok (2, 1, 0%Q, 3%Q)
  /\ annular_copy (annular_set_outer 3 d1) = Ok (AnnularDetector 0 3)
  /\ fst (detect (AnnularDetector 0 3)) = Ok [Some 1%Q]
  /\ _get_bins (AnnularDetector 0 3) (Some 2%Q) = Ok (1, 1, 0%Q, 3%Q).
Proof.
  cbv zeta.
  split; [vm_compute; reflexivity|].
  split; [vm_compute; reflexivity|].
  split; [vm_compute; reflexivity|].
  split; [vm_compute; reflexivity|].
  split; [vm_compute; reflexivity|].
  split; vm_compute; reflexivity.
Qed.

(** * Zero-sized regions *)


(** C4 (fails on the code). On the 4 x 4 grid no cell has alpha = 3, so
    inner = outer = 3 makes every cell invalid; an annular or segmented
    detector built with these limits has a radial step of 0 and
    [_get_bins] raises a division by zero before any label is computed. *)
Theorem equal_limits_raise_division_by_zero :
  existsb (valid sqrt_grid (3 / 1000) (3 / 1000))
          (cells [0 # 4000; 4 # 4000; -8 # 4000; -4 # 4000]
                 [0 # 4000; 4 # 4000; -8 # 4000; -4 # 4000])%Q = false
  /\ _get_bins (AnnularDetector 3 3) (Some 2%Q) = Err ZeroDivisionError
  /\ compute_regions sqrt_grid arctan2_grid (AnnularDetector 3 3)
                     (4, 4)%nat (1, 1)%Q (Some 2%Q) = Err ZeroDivisionError
  /\ fst (annular_detect sqrt_grid arctan2_grid (AnnularDetector 3 3)
                         small_waves true) = Err ZeroDivisionError
  /\ (exists d, SegmentedDetector 3 3 2 4 = Ok d
                /\ fst (segmented_detect sqrt_grid arctan2_grid d small_waves)
                   = Err ZeroDivisionError).
Proof.
  split; [vm_compute; reflexivity|].
  split; [vm_compute; reflexivity|].
  split; [vm_compute; reflexivity|].
  split; [vm_compute; reflexivity|].
  eexists. split; [reflexivity|]. vm_compute. reflexivity.
Qed.

(** * Divisions *)

Lemma py_div_ok (x y : Q) : ~ (y == 0)%Q -> py_div x y = Ok (x / y)%Q.
Proof.
  intro H. unfold py_div.
  destruct (Qeq_bool y 0) eqn:E; [|reflexivity].
  apply Qeq_bool_iff in E. contradiction.
Qed.

(** * The check of the maximum angle *)

Lemma min_pair_spec (t : Q * Q) :
  (min_pair t <= fst t)%Q /\ (min_pair t <= snd t)%Q
  /\ (min_pair t = fst t \/ min_pair t = snd t).
Proof.
  unfold min_pair.
  destruct (Qle_bool (fst t) (snd t)) eqn:E.
  - apply Qle_bool_iff in E. repeat split; auto; lra.
  - assert (~ (fst t <= snd t)%Q) as H
      by (intro H; apply Qle_bool_iff in H; rewrite H in E; discriminate).
    repeat split; auto; lra.
Qed.

(** C8. For waves with a defined grid and a numeric [max_angle] above the
    smaller of the two cutoff scattering angles,
    [PixelatedDetector.allocate_measurement] raises the error
    'Detector max angle exceeds the cutoff scattering angle.', whatever
    the scan, the resampling mode and the downsampled grid. *)
Theorem allocate_measurement_max_angle_exceeded
        (downsampled_gpts : Waves -> angle_option -> option (nat * nat))
        (self : PixelatedDetector) (waves : Waves) (scan : option (list Z))
        (max_angle : Q) :
  grid_defined waves = true ->
  _max_angle self = AngleNum max_angle ->
  (min_pair (cutoff_scattering_angles waves) < max_angle)%Q ->
  allocate_measurement downsampled_gpts self waves scan = Err MaxAngleExceeded.
Proof.
  intros Hgrid Hangle Hlt.
  unfold allocate_measurement. rewrite Hgrid. simpl.
  rewrite Hangle. unfold check_max_angle_exceeded.
  destruct (Qlt_le_dec (min_pair (cutoff_scattering_angles waves)) max_angle)
    as [_|Hle]; [reflexivity | lra].
Qed.

Lemma allocate_measurement_max_angle_exceeded_witness :
  allocate_measurement (fun _ _ => Some (4, 4)%nat)
                       (mkPixelatedDetector (AngleNum 3) ResampleFalse)
                       small_waves None
  = Err MaxAngleExceeded.
Proof.
  apply (allocate_measurement_max_angle_exceeded
           (fun _ _ => Some (4, 4)%nat)
           (mkPixelatedDetector (AngleNum 3) ResampleFalse)
           small_waves None 3).
  - reflexivity.
  - reflexivity.
  - reflexivity.
Defined.

Lemma bind_not_error {A B : Type} (r : result A) (k : A -> result B) (e : exn) :
  r <> Err e -> (forall a, k a <> Err e) -> bind r k <> Err e.
Proof.
  intros Hr Hk. destruct r as [a|e']; simpl; [apply Hk|].
  intro H. injection H as ->. apply Hr. reflexivity.
Qed.

Lemma py_div_error (x y : Q) (e : exn) :
  e <> ZeroDivisionError -> py_div x y <> Err e.
Proof.
  intros He. unfold py_div. destruct (Qeq_bool y 0); [|discriminate].
  intro H. injection H as H. auto.
Qed.

Lemma resampled_gpts_error (self : PixelatedDetector) (g : nat * nat)
      (sampling : Q * Q) :
  _resampled_gpts self g sampling <> Err MaxAngleExceeded.
Proof.
  unfold _resampled_gpts.
  destruct (_resample self) as [|s|]; [discriminate| |discriminate].
  destruct (String.eqb s "uniform"); [|discriminate].
  repeat (apply bind_not_error; [apply py_div_error; discriminate | intro]).
  discriminate.
Qed.

(** C10. When [max_angle] is a string, [check_max_angle_exceeded] returns
    without comparing anything, and
    [PixelatedDetector.allocate_measurement] does not raise the
    max-angle-exceeded error, whatever the cutoff scattering angles of the
    waves; this covers the default 'valid'. *)
Theorem string_max_angle_is_not_checked
        (downsampled_gpts : Waves -> angle_option -> option (nat * nat))
        (s : string) (resample : resample_option)
        (waves : Waves) (scan : option (list Z)) :
  check_max_angle_exceeded waves (AngleStr s) = Ok tt
  /\ allocate_measurement downsampled_gpts
                          (mkPixelatedDetector (AngleStr s) resample) waves scan
     <> Err MaxAngleExceeded
  /\ allocate_measurement downsampled_gpts PixelatedDetector_default waves scan
     <> Err MaxAngleExceeded.
Proof.
  assert (forall self, _max_angle self = AngleStr (match _max_angle self with
                                                   | AngleStr t => t
                                                   | _ => s
                                                   end) ->
                       allocate_measurement downsampled_gpts self waves scan
                       <> Err MaxAngleExceeded) as H.
  { intros self Hs. unfold allocate_measurement.
    apply bind_not_error; [destruct (grid_defined waves); discriminate | intros _].
    apply bind_not_error; [rewrite Hs; discriminate | intros _].
    apply bind_not_error;
      [destruct (downsampled_gpts waves (_max_angle self)); discriminate | intro g].
    apply bind_not_error; [apply resampled_gpts_error | intros [n a]].
    repeat (apply bind_not_error; [apply py_div_error; discriminate | intro]).
    discriminate. }
  split; [reflexivity|].
  split; apply H; reflexivity.
Qed.

(** * Annular detection *)

Lemma np_sum_perm (l l' : list Q) :
  Permutation l l' -> (np_sum l == np_sum l')%Q.
Proof.
  induction 1; simpl.
  - reflexivity.
  - rewrite IHPermutation. reflexivity.
  - ring.
  - rewrite IHPermutation1. exact IHPermutation2.
Qed.

Lemma take_indices_all (a : list Q) : take_indices a (seq 0 (length a)) = a.
Proof.
  unfold take_indices.
  apply nth_ext with (d := 0%Q) (d' := 0%Q).
  - rewrite length_map, length_seq. reflexivity.
  - intros n Hn. rewrite length_map, length_seq in Hn.
    rewrite (nth_indep _ 0%Q (nth 0 a 0%Q)) by (rewrite length_map, length_seq; exact Hn).
    rewrite (map_nth (fun i => nth i a 0%Q)).
    rewrite seq_nth by exact Hn. reflexivity.
Qed.

(** Summing over a region that holds every index once gives the total. *)
Lemma np_sum_full_region (a : list Q) (region : list nat) :
  NoDup region ->
  (forall i, In i region <-> (i < length a)%nat) ->
  (np_sum (take_indices a region) == np_sum a)%Q.
Proof.
  intros Hnd Hin.
  assert (Permutation region (seq 0 (length a))) as Hp.
  { apply NoDup_Permutation; [exact Hnd | apply seq_NoDup|].
    intro i. rewrite Hin, in_seq. lia. }
  rewrite <- (take_indices_all a) at 2.
  apply np_sum_perm. unfold take_indices. apply Permutation_map, Hp.
Qed.

Lemma np_div_same (x y : Q) : (x == y)%Q -> ~ (y == 0)%Q -> np_div x y = Some 1%Q.
Proof.
  intros Hxy Hy. unfold np_div.
  destruct (Qeq_bool y 0) eqn:E; [apply Qeq_bool_iff in E; contradiction|].
  f_equal. change 1%Q with (Qred 1). apply Qred_complete.
  rewrite Hxy. field. exact Hy.
Qed.

Lemma Qfloor_zero (q : Q) : Qfloor q = 0 <-> (0 <= q)%Q /\ (q < 1)%Q.
Proof.
  pose proof (Qfloor_le q) as Hlo.
  pose proof (Qlt_floor q) as Hhi.
  split.
  - intro E. rewrite E in Hlo, Hhi. simpl in Hhi. split; assumption.
  - intros [H0 H1].
    assert (Qfloor q < 1) as Hup.
    { apply Z.lt_nge. intro Hge.
      assert (inject_Z 1 <= inject_Z (Qfloor q))%Q as Hi
        by (rewrite <- Zle_Qle; exact Hge).
      change (inject_Z 1) with 1%Q in Hi. lra. }
    assert (0 <= Qfloor q) as Hdown.
    { change 0 with (Qfloor 0). apply Qfloor_resp_le, H0. }
    lia.
Qed.

Lemma two_pi_nonzero : ~ (two_pi == 0)%Q.
Proof. intro H. vm_compute in H. discriminate H. Qed.

(** The bins of a freshly built annular detector: one radial bin, one
    azimuthal bin. *)
Lemma annular_bins (inner outer : Q) (cutoff : option Q) :
  (inner < outer)%Q ->
  _get_bins (AnnularDetector inner outer) cutoff = Ok (1, 1, inner, outer).
Proof.
  intro Hband. unfold _get_bins, AnnularDetector.
  cbn [_inner _outer _radial_steps _azimuthal_steps bind].
  rewrite py_div_ok by (intro E; lra). cbn [bind].
  rewrite py_div_ok by exact two_pi_nonzero. cbn [bind].
  assert (ceil ((outer - inner) / (outer - inner)) = 1) as ->.
  { unfold ceil. transitivity (Qceiling (inject_Z 1)); [|apply Qceiling_Z].
    apply Qceiling_comp. change (inject_Z 1) with 1%Q. field. lra. }
  reflexivity.
Qed.

(** With one radial and one azimuthal bin, label 0 marks the cells with
    inner <= alpha < outer. *)
Lemma single_bin_label_zero (sqrt : Q -> Q) (arctan2 : Q -> Q -> Q)
      (inner outer : Q) (k : Q * Q) :
  (inner < outer)%Q ->
  (cell_label sqrt arctan2 inner outer 1 1 k = 0
   <-> (inner <= alpha_of sqrt k)%Q /\ (alpha_of sqrt k < outer)%Q).
Proof.
  intro Hband. unfold cell_label.
  destruct (valid sqrt inner outer k) eqn:Hv.
  - destruct (radial_bin_floor sqrt inner outer 1 Hband ltac:(lia) k Hv)
      as [Hr Hr0].
    apply valid_bounds in Hv. destruct Hv as [Hlo Hhi].
    assert (angular_bin arctan2 1 k = 0) as -> by (unfold angular_bin, clip; lia).
    rewrite Hr. rewrite Z.mul_1_r, Z.add_0_l. rewrite Qfloor_zero.
    change (inject_Z 1) with 1%Q.
    split.
    + intros [_ H1]. split; [exact Hlo|].
      apply Qnot_le_lt. intro Hge.
      assert (1 <= 1 * (alpha_of sqrt k - inner) / (outer - inner))%Q as H.
      { apply Qle_shift_div_l; lra. }
      lra.
    + intros [_ Hlt]. split.
      * apply (scaled_bin_nonneg 1); [lia | exact Hlo | exact Hband].
      * apply Qlt_shift_div_r; lra.
  - split; [lia|].
    intros [Hlo Hhi].
    assert (valid sqrt inner outer k = true) as Hv'
      by (apply valid_bounds; auto; split; [exact Hlo | lra]).
    rewrite Hv' in Hv. discriminate.
Qed.

(** The ratio that [AnnularDetector.detect] returns, in exact arithmetic.
    For a freshly built annular detector with inner < outer, on waves
    whose grid has at least one valid cell, [detect] with normalize=True
    returns one entry per batch element, the sum of the intensity over the
    single region divided by the sum over the whole grid, and with
    normalize=False the sum over the region; the region holds, once each,
    the cells with inner <= alpha < outer.  When every cell of the grid has
    inner <= alpha < outer, the normalized value of a batch element whose
    total intensity is not zero is exactly 1. *)
Theorem annular_detect_ratio
        (sqrt : Q -> Q) (arctan2 : Q -> Q -> Q)
        (inner outer : Q) (waves : Waves) (kx ky : list Q) :
  (inner < outer)%Q ->
  frequency_axes (gpts waves)
                 (fst (angular_sampling waves) / 1000,
                  snd (angular_sampling waves) / 1000)%Q = Ok (kx, ky) ->
  (exists k, In k (cells kx ky)
             /\ valid sqrt (inner / 1000) (outer / 1000) k = true) ->
  let in_band (k : Q * Q) :=
    (inner / 1000 <= alpha_of sqrt k)%Q /\ (alpha_of sqrt k < outer / 1000)%Q in
  exists region,
    NoDup region
    /\ (forall i, In i region
                  <-> exists k, nth_error (cells kx ky) i = Some k /\ in_band k)
    /\ fst (annular_detect sqrt arctan2 (AnnularDetector inner outer) waves true)
       = Ok (map (fun a => np_div (np_sum (take_indices a region)) (np_sum a))
                 (intensity waves))
    /\ fst (annular_detect sqrt arctan2 (AnnularDetector inner outer) waves false)
       = Ok (map (fun a => Some (np_sum (take_indices a region)))
                 (intensity waves))
    /\ ((forall k, In k (cells kx ky) -> in_band k) ->
        forall a, In a (intensity waves) ->
                  length a = length (cells kx ky) ->
                  ~ (np_sum a == 0)%Q ->
                  np_div (np_sum (take_indices a region)) (np_sum a) = Some 1%Q).
Proof.
  intros Hband Haxes [k0 [Hk0 Hv0]] in_band.
  assert (inner / 1000 < outer / 1000)%Q as Hband'
    by (apply Qmult_lt_compat_r; [reflexivity | exact Hband]).
  set (cutoff := Some (min_pair (cutoff_scattering_angles waves))).
  set (labels := map (cell_label sqrt arctan2 (inner / 1000) (outer / 1000) 1 1)
                     (cells kx ky)).
  (* the labels are not all -1 *)
  apply In_nth_error in Hk0. destruct Hk0 as [i0 Hi0].
  assert (0 <= label_at labels i0) as Hl0.
  { unfold labels. rewrite (label_at_map _ _ _ k0 Hi0).
    apply (cell_label_sign sqrt arctan2 _ _ 1 1 Hband' ltac:(lia) k0 ltac:(lia)),
      Hv0. }
  assert (i0 < length labels)%nat as Hlen0.
  { unfold labels. rewrite length_map. apply nth_error_Some.
    rewrite Hi0. discriminate. }
  assert (forallb (Z.eqb (-1)) labels = false) as Hall.
  { apply not_true_is_false. intro H.
    apply forallb_minus_one in H. rewrite Forall_forall in H.
    assert (label_at labels i0 = -1) as E
      by (apply H; unfold label_at; apply nth_In, Hlen0).
    lia. }
  destruct (label_to_index_total labels) as [groups Hg].
  { intro E. rewrite E in Hlen0. simpl in Hlen0. lia. }
  assert (compute_regions sqrt arctan2 (AnnularDetector inner outer)
                          (gpts waves) (angular_sampling waves) cutoff
          = Ok groups) as Hrun.
  { unfold compute_regions, _polar_regions.
    rewrite (annular_bins inner outer cutoff Hband). simpl.
    rewrite Haxes. simpl.
    rewrite (label_cells_ok sqrt arctan2 _ _ 1 1 Hband').
    simpl. fold labels. rewrite Hall. exact Hg. }
  (* the first group exists *)
  destruct groups as [|region rest].
  { destruct (proj2 (grouped_indices labels [] Hg i0) (conj Hlen0 Hl0))
      as [g [[] _]]. }
  assert (forall normalize,
             fst (annular_detect sqrt arctan2 (AnnularDetector inner outer)
                                 waves normalize)
             = if normalize
               then Ok (map (fun a => np_div (np_sum (take_indices a region))
                                             (np_sum a)) (intensity waves))
               else Ok (map Some (map (fun a => np_sum (take_indices a region))
                                      (intensity waves)))) as Hdetect.
  { intro normalize.
    unfold annular_detect, _integrate_array, _get_regions.
    fold cutoff. simpl cache. cbv iota. rewrite Hrun. simpl.
    reflexivity. }
  assert (forall i, In i region
                    <-> exists k, nth_error (cells kx ky) i = Some k /\ in_band k)
    as Hmem.
  { intro i.
    rewrite (group_members labels (region :: rest) Hg 0 region i eq_refl).
    unfold labels at 1. rewrite length_map. simpl Z.of_nat.
    split.
    - intros [Hlt Hl].
      destruct (nth_error (cells kx ky) i) as [k|] eqn:Hk;
        [|apply nth_error_None in Hk; lia].
      exists k. split; [reflexivity|].
      unfold labels in Hl. rewrite (label_at_map _ _ _ k Hk) in Hl.
      apply (single_bin_label_zero sqrt arctan2 _ _ k Hband'), Hl.
    - intros [k [Hk Hin]].
      split; [apply nth_error_Some; rewrite Hk; discriminate|].
      unfold labels. rewrite (label_at_map _ _ _ k Hk).
      apply (single_bin_label_zero sqrt arctan2 _ _ k Hband'), Hin. }
  assert (NoDup region) as Hnd
    by (apply (group_NoDup labels (region :: rest) Hg); left; reflexivity).
  exists region.
  split; [exact Hnd|]. split; [exact Hmem|].
  split; [apply (Hdetect true)|].
  split; [rewrite (Hdetect false), map_map; reflexivity|].
  intros Hfull a _ Hshape Hsum.
  apply np_div_same; [|exact Hsum].
  apply np_sum_full_region; [exact Hnd|].
  intro i. rewrite Hmem, Hshape. split.
  - intros [k [Hk _]]. apply nth_error_Some. rewrite Hk. discriminate.
  - intro Hlt.
    destruct (nth_error (cells kx ky) i) as [k|] eqn:Hk;
      [|apply nth_error_None in Hk; lia].
    exists k. split; [reflexivity|].
    apply Hfull. apply nth_error_In with i. exact Hk.
Qed.

Lemma annular_detect_ratio_witness :
  fst (annular_detect sqrt_grid arctan2_grid (AnnularDetector 0 3)
                      small_waves true) = Ok [Some 1%Q].
Proof.
  destruct (annular_detect_ratio sqrt_grid arctan2_grid 0 3 small_waves
              [0 # 4000; 4 # 4000; -8 # 4000; -4 # 4000]%Q
              [0 # 4000; 4 # 4000; -8 # 4000; -4 # 4000]%Q)
    as [region [_ [_ [Hrun [_ Hfull]]]]].
  - reflexivity.
  - reflexivity.
  - exists (0 # 4000, 0 # 4000)%Q. split; [left; reflexivity | reflexivity].
  - rewrite Hrun. simpl map. f_equal. f_equal.
    apply Hfull.
    + intros k Hk. simpl in Hk.
      repeat (destruct Hk as [<-|Hk];
              [split; [apply Qle_bool_iff; reflexivity | reflexivity]|]).
      contradiction.
    + left. reflexivity.
    + reflexivity.
    + discriminate.
Defined.


(** * Segmented detection when the group count matches the bin counts *)












(** * Bin counts for positive steps *)

Lemma Qceiling_pos (q : Q) : (0 < q)%Q -> 1 <= Qceiling q.
Proof.
  intro H. pose proof (Qle_ceiling q) as Hc.
  assert (0 < inject_Z (Qceiling q))%Q as Hpos by lra.
  change 0%Q with (inject_Z 0) in Hpos. rewrite <- Zlt_Qlt in Hpos. lia.
Qed.

(** X18. With positive radial and azimuthal steps and inner < outer there
    is at least one radial and one azimuthal bin. *)
Lemma get_bins_counts_positive (self : PolarDetector) (cutoff : option Q)
      (nr na : Z) (inner outer : Q) :
  _get_bins self cutoff = Ok (nr, na, inner, outer) ->
  (0 < _radial_steps self)%Q -> (0 < _azimuthal_steps self)%Q ->
  (inner < outer)%Q ->
  1 <= nr /\ 1 <= na.
Proof.
  intros Hbins Hr Ha Hband.
  unfold _get_bins in Hbins.
  destruct (match _outer self with
            | Some o => Ok o
            | None => _
            end) as [o|e]; [|discriminate].
  cbn [bind] in Hbins.
  rewrite py_div_ok in Hbins by (intro E; lra). cbn [bind] in Hbins.
  rewrite py_div_ok in Hbins by (intro E; lra). cbn [bind] in Hbins.
  injection Hbins as <- <- <- <-.
  split; apply Qceiling_pos.
  - apply Qlt_shift_div_l; lra.
  - apply Qlt_shift_div_l; [exact Ha|].
    rewrite Qmult_0_l. reflexivity.
Qed.

(** * The cache *)


(** A second call with the same key returns the remembered regions. *)
Lemma get_regions_hit (sqrt : Q -> Q) (arctan2 : Q -> Q -> Q)
      (self : PolarDetector) (shape : nat * nat) (sampling : Q * Q)
      (cutoff : option Q) (regions : list (list nat)) (self' : PolarDetector) :
  _get_regions sqrt arctan2 self shape sampling cutoff = (Ok regions, self') ->
  _get_regions sqrt arctan2 self' shape sampling cutoff = (Ok regions, self').
Proof.
  assert (key_eqb (shape, sampling, cutoff) (shape, sampling, cutoff) = true)
    as Hkey.
  { unfold key_eqb, pair_eqb, cutoff_eqb.
    rewrite !Nat.eqb_refl. simpl.
    rewrite (proj2 (Qeq_bool_iff _ _) (Qeq_refl (fst sampling))).
    rewrite (proj2 (Qeq_bool_iff _ _) (Qeq_refl (snd sampling))).
    destruct cutoff as [c|]; [|reflexivity].
    simpl. apply Qeq_bool_iff. reflexivity. }
  unfold _get_regions.
  destruct (cache self) as [[key' cached]|] eqn:Hc.
  - destruct (key_eqb key' (shape, sampling, cutoff)) eqn:Hk.
    + intro H. injection H as <- <-. rewrite Hc, Hk. reflexivity.
    + destruct (compute_regions sqrt arctan2 self shape sampling cutoff);
        intro H; [|discriminate].
      injection H as <- <-. cbn [cache set_cache]. rewrite Hkey. reflexivity.
  - destruct (compute_regions sqrt arctan2 self shape sampling cutoff);
      intro H; [|discriminate].
    injection H as <- <-. cbn [cache set_cache]. rewrite Hkey. reflexivity.
Qed.


(** * The save file *)

Lemma list_ascii_of_string_app (s t : string) :
  list_ascii_of_string (s ++ t)
  = list_ascii_of_string s ++ list_ascii_of_string t.
Proof.
  induction s as [|c s IH]; simpl; [reflexivity|]. rewrite IH. reflexivity.
Qed.

Lemma ends_with_append (suffix s : string) :
  ends_with suffix (s ++ suffix) = true.
Proof.
  unfold ends_with. rewrite list_ascii_of_string_app, length_app.
  apply andb_true_iff. split.
  - apply Nat.leb_le. lia.
  - replace (length (list_ascii_of_string s)
             + length (list_ascii_of_string suffix)
             - length (list_ascii_of_string suffix))%nat
      with (length (list_ascii_of_string s)) by lia.
    rewrite skipn_app, skipn_all, Nat.sub_diag. simpl.
    destruct (list_eq_dec Ascii.ascii_dec (list_ascii_of_string suffix)
                          (list_ascii_of_string suffix)); [reflexivity|].
    contradiction.
Qed.

(** X1. A save file that is given always ends up with the extension
    '.hdf5': a name that has it is kept, any other name gets it appended;
    doing it twice changes nothing, and no name stays no name. *)
Theorem init_save_file_extension (save_file : option string) :
  (forall s, save_file = Some s ->
             exists t, init_save_file save_file = Some t
                       /\ ends_with ".hdf5" t = true
                       /\ (ends_with ".hdf5" s = true -> t = s)
                       /\ (ends_with ".hdf5" s = false
                           -> t = (s ++ ".hdf5")%string))
  /\ (save_file = None -> init_save_file save_file = None)
  /\ init_save_file (init_save_file save_file) = init_save_file save_file.
Proof.
  split; [|split].
  - intros s ->. unfold init_save_file. cbv beta iota.
    destruct (ends_with ".hdf5" s) eqn:E.
    + exists s. repeat split; auto. discriminate.
    + exists (s ++ ".hdf5")%string.
      split; [reflexivity|]. split; [apply ends_with_append|].
      split; [discriminate | reflexivity].
  - intros ->. reflexivity.
  - destruct save_file as [s|]; [|reflexivity].
    unfold init_save_file. cbv beta iota.
    destruct (ends_with ".hdf5" s) eqn:E; cbv beta iota.
    + rewrite E. reflexivity.
    + rewrite ends_with_append. reflexivity.
Qed.

Lemma init_save_file_extension_witness :
  init_save_file (Some "scan"%string) = Some "scan.hdf5"%string
  /\ init_save_file (Some "scan.hdf5"%string) = Some "scan.hdf5"%string.
Proof.
  destruct (init_save_file_extension (Some "scan"%string)) as [H1 _].
  destruct (H1 "scan"%string eq_refl) as [t [Ht [_ [_ Hno]]]].
  destruct (init_save_file_extension (Some "scan.hdf5"%string)) as [H2 _].
  destruct (H2 "scan.hdf5"%string eq_refl) as [u [Hu [_ [Hyes _]]]].
  split.
  - rewrite Ht. f_equal. apply Hno. reflexivity.
  - rewrite Hu. f_equal. apply Hyes. reflexivity.
Defined.

Lemma py_div_by_zero (x y : Q) : (y == 0)%Q -> py_div x y = Err ZeroDivisionError.
Proof.
  intro H. unfold py_div.
  rewrite (proj2 (Qeq_bool_iff y 0) H). reflexivity.
Qed.

(** * Writing the limits of an annular detector *)

Lemma Qceiling_one (q : Q) : Qceiling q = 1 <-> (0 < q)%Q /\ (q <= 1)%Q.
Proof.
  pose proof (Qle_ceiling q) as Hup.
  pose proof (Qceiling_lt q) as Hlow.
  split.
  - intro E. rewrite E in Hup, Hlow. simpl in Hlow. split; assumption.
  - intros [H0 H1].
    assert (1 <= Qceiling q) as Hge by (apply Qceiling_pos; exact H0).
    assert (Qceiling q - 1 < 1) as Hlt.
    { apply Z.lt_nge. intro Hbig.
      assert (inject_Z 1 <= inject_Z (Qceiling q - 1))%Q as Hi
        by (rewrite <- Zle_Qle; exact Hbig).
      change (inject_Z 1) with 1%Q in Hi. lra. }
    lia.
Qed.

(** The regions depend on the detector through its bins only. *)
Lemma compute_regions_same_bins (sqrt : Q -> Q) (arctan2 : Q -> Q -> Q)
      (self self' : PolarDetector) (shape : nat * nat) (sampling : Q * Q)
      (cutoff : option Q) :
  _get_bins self cutoff = _get_bins self' cutoff ->
  compute_regions sqrt arctan2 self shape sampling cutoff
  = compute_regions sqrt arctan2 self' shape sampling cutoff.
Proof. intro H. unfold compute_regions. rewrite H. reflexivity. Qed.

Lemma annular_detect_same_bins (sqrt : Q -> Q) (arctan2 : Q -> Q -> Q)
      (self self' : PolarDetector) (waves : Waves) (normalize : bool) :
  cache self = None -> cache self' = None ->
  (forall cutoff, _get_bins self cutoff = _get_bins self' cutoff) ->
  fst (annular_detect sqrt arctan2 self waves normalize)
  = fst (annular_detect sqrt arctan2 self' waves normalize).
Proof.
  intros Hc Hc' Hbins.
  unfold annular_detect, _integrate_array, _get_regions.
  rewrite Hc, Hc'.
  rewrite (compute_regions_same_bins sqrt arctan2 self self' _ _ _ (Hbins _)).
  destruct (compute_regions sqrt arctan2 self' (gpts waves)
              (angular_sampling waves)
              (Some (min_pair (cutoff_scattering_angles waves))));
    reflexivity.
Qed.

Lemma stale_step_bins (inner outer step : Q) (cutoff : option Q)
      (max_angle : option Q) :
  ~ (step == 0)%Q ->
  _get_bins (mkPolarDetector (Some inner) (Some outer) step two_pi
                             max_angle None) cutoff
  = Ok (Qceiling ((outer - inner) / step), 1, inner, outer).
Proof.
  intro Hs. unfold _get_bins.
  cbn [_inner _outer _radial_steps _azimuthal_steps bind].
  rewrite (py_div_ok _ _ Hs). cbn [bind].
  rewrite (py_div_ok _ _ two_pi_nonzero). cbn [bind].
  reflexivity.
Qed.

(** X4. Writing [inner] or [outer] of a freshly built annular detector so
    that the band gets narrower (or stays) gives the same detected values
    as building the detector with the new limits.  Writing an [outer]
    beyond the old one does not: the band is then cut into at least two
    radial bins, of which [detect] sums the first. *)
Theorem annular_narrowing
        (sqrt : Q -> Q) (arctan2 : Q -> Q -> Q) (inner outer : Q) :
  (inner < outer)%Q ->
  (forall outer' waves normalize,
      (inner < outer')%Q -> (outer' <= outer)%Q ->
      fst (annular_detect sqrt arctan2
             (annular_set_outer outer' (AnnularDetector inner outer))
             waves normalize)
      = fst (annular_detect sqrt arctan2 (AnnularDetector inner outer')
                            waves normalize))
  /\ (forall inner' waves normalize,
         (inner <= inner')%Q -> (inner' < outer)%Q ->
         fst (annular_detect sqrt arctan2
                (set_inner inner' (AnnularDetector inner outer))
                waves normalize)
         = fst (annular_detect sqrt arctan2 (AnnularDetector inner' outer)
                               waves normalize))
  /\ (forall outer' cutoff,
         (outer < outer')%Q ->
         exists nr,
           _get_bins (annular_set_outer outer' (AnnularDetector inner outer))
                     cutoff = Ok (nr, 1, inner, outer')
           /\ 2 <= nr).
Proof.
  intro Hband.
  assert (~ (outer - inner == 0)%Q) as Hstep by (intro E; lra).
  split; [|split].
  - intros outer' waves normalize Hlo Hhi.
    apply annular_detect_same_bins; [reflexivity | reflexivity|].
    intro cutoff.
    unfold annular_set_outer, annular_write_outer, notify_changed, set_cache,
      AnnularDetector.
    cbn [_inner _outer _radial_steps _azimuthal_steps _max_detected_angle cache].
    rewrite (stale_step_bins inner outer' (outer - inner) cutoff _ Hstep).
    rewrite (stale_step_bins inner outer' (outer' - inner) cutoff _)
      by (intro E; lra).
    assert (Qceiling ((outer' - inner) / (outer - inner)) = 1) as ->.
    { apply Qceiling_one. split.
      - apply Qlt_shift_div_l; lra.
      - apply Qle_shift_div_r; lra. }
    assert (Qceiling ((outer' - inner) / (outer' - inner)) = 1) as ->.
    { apply Qceiling_one. split.
      - apply Qlt_shift_div_l; lra.
      - apply Qle_shift_div_r; lra. }
    reflexivity.
  - intros inner' waves normalize Hlo Hhi.
    apply annular_detect_same_bins; [reflexivity | reflexivity|].
    intro cutoff.
    unfold set_inner, notify_changed, set_cache, AnnularDetector.
    cbn [_inner _outer _radial_steps _azimuthal_steps _max_detected_angle cache].
    rewrite (stale_step_bins inner' outer (outer - inner) cutoff _ Hstep).
    rewrite (stale_step_bins inner' outer (outer - inner') cutoff _)
      by (intro E; lra).
    assert (Qceiling ((outer - inner') / (outer - inner)) = 1) as ->.
    { apply Qceiling_one. split.
      - apply Qlt_shift_div_l; lra.
      - apply Qle_shift_div_r; lra. }
    assert (Qceiling ((outer - inner') / (outer - inner')) = 1) as ->.
    { apply Qceiling_one. split.
      - apply Qlt_shift_div_l; lra.
      - apply Qle_shift_div_r; lra. }
    reflexivity.
  - intros outer' cutoff Hbeyond.
    unfold annular_set_outer, annular_write_outer, notify_changed, set_cache,
      AnnularDetector.
    cbn [_inner _outer _radial_steps _azimuthal_steps _max_detected_angle cache].
    rewrite (stale_step_bins inner outer' (outer - inner) cutoff _ Hstep).
    eexists. split; [reflexivity|].
    pose proof (Qle_ceiling ((outer' - inner) / (outer - inner))) as Hup.
    assert (1 < (outer' - inner) / (outer - inner))%Q as Hgt
      by (apply Qlt_shift_div_l; lra).
    assert (inject_Z 1 < inject_Z (Qceiling ((outer' - inner) / (outer - inner))))%Q
      as Hz by (change (inject_Z 1) with 1%Q; lra).
    rewrite <- Zlt_Qlt in Hz. lia.
Qed.

Lemma annular_narrowing_witness :
  fst (annular_detect sqrt_grid arctan2_grid
         (annular_set_outer (3 # 2) (AnnularDetector 0 3)) small_waves true)
  = fst (annular_detect sqrt_grid arctan2_grid (AnnularDetector 0 (3 # 2))
                        small_waves true).
Proof.
  destruct (annular_narrowing sqrt_grid arctan2_grid 0 3) as [Hnarrow _].
  - reflexivity.
  - apply Hnarrow.
    + reflexivity.
    + apply Qle_bool_iff. reflexivity.
Defined.

(** * When the maximum angle is refused *)

(** X5. [check_max_angle_exceeded] raises exactly when [max_angle] is a
    number above the smaller cutoff scattering angle, and returns for a
    string, for [None] and for a number up to that cutoff (the cutoff
    itself included); [PixelatedDetector.allocate_measurement] raises the
    max-angle error exactly when, in addition, the grid is defined. *)
Theorem max_angle_error_iff
        (downsampled_gpts : Waves -> angle_option -> option (nat * nat))
        (self : PixelatedDetector) (waves : Waves) (scan : option (list Z)) :
  let exceeds (m : angle_option) :=
    exists a, m = AngleNum a
              /\ (min_pair (cutoff_scattering_angles waves) < a)%Q in
  (forall m, check_max_angle_exceeded waves m = Err MaxAngleExceeded
             <-> exceeds m)
  /\ (forall m, check_max_angle_exceeded waves m = Ok tt <-> ~ exceeds m)
  /\ (allocate_measurement downsampled_gpts self waves scan
      = Err MaxAngleExceeded
      <-> grid_defined waves = true /\ exceeds (_max_angle self)).
Proof.
  intro exceeds.
  assert (forall m, check_max_angle_exceeded waves m = Err MaxAngleExceeded
                    <-> exceeds m) as Hraise.
  { intro m. unfold exceeds, check_max_angle_exceeded.
    destruct m as [s|a|].
    - split; [discriminate | intros [a [H _]]; discriminate].
    - destruct (Qlt_le_dec (min_pair (cutoff_scattering_angles waves)) a)
        as [Hlt|Hle].
      + split; [|reflexivity]. intros _. exists a. split; [reflexivity | exact Hlt].
      + split; [discriminate|].
        intros [b [Hb Hlt]]. injection Hb as <-. lra.
    - split; [discriminate | intros [a [H _]]; discriminate]. }
  split; [exact Hraise|]. split.
  - intro m. rewrite <- Hraise.
    unfold check_max_angle_exceeded.
    destruct m as [s|a|]; try (split; [discriminate | reflexivity]).
    destruct (Qlt_le_dec (min_pair (cutoff_scattering_angles waves)) a);
      split; try discriminate; try reflexivity.
    intro H. exfalso. apply H. reflexivity.
  - rewrite <- Hraise. unfold allocate_measurement.
    destruct (grid_defined waves); cbn [bind].
    + destruct (check_max_angle_exceeded waves (_max_angle self))
        as [[]|e] eqn:Echeck; cbn [bind].
      * split; [|intros [_ H]; discriminate].
        intro H. exfalso. revert H.
        apply bind_not_error;
          [destruct (downsampled_gpts waves (_max_angle self)); discriminate
          | intro g].
        apply bind_not_error; [apply resampled_gpts_error | intros [n a]].
        repeat (apply bind_not_error; [apply py_div_error; discriminate | intro]).
        discriminate.
      * split.
        -- intro H. injection H as ->. split; reflexivity.
        -- intros [_ H]. injection H as ->. reflexivity.
    + split; [discriminate | intros [H _]; discriminate].
Qed.

(** * Quotients that are integers *)

Lemma trunc_integer (q : Q) (z : Z) : (q == inject_Z z)%Q -> trunc q = z.
Proof.
  destruct q as [n d]. unfold Qeq, trunc. simpl. intro H.
  rewrite Z.mul_1_r in H. subst n. apply Z.quot_mul. discriminate.
Qed.

Lemma ceil_integer (q : Q) (z : Z) : (q == inject_Z z)%Q -> ceil q = z.
Proof.
  intro H. unfold ceil. rewrite (Qceiling_comp _ _ H). apply Qceiling_Z.
Qed.

Lemma inject_Z_nonzero (z : Z) : z <> 0 -> ~ (inject_Z z == 0)%Q.
Proof.
  intros Hz E. apply Hz.
  unfold Qeq in E. simpl in E. lia.
Qed.

(** * Allocated measurements of the polar detectors *)

(** The measurement allocated for given bins: an axis for the radial bins
    and one for the azimuthal bins, each only when there are at least two. *)
Lemma polar_allocate_measurement_bins (self : PolarDetector) (waves : Waves)
      (scan : option Scan) (nr na : Z) (inner outer : Q) :
  _get_bins self (Some (min_pair (cutoff_scattering_angles waves)))
  = Ok (nr, na, inner, outer) ->
  polar_allocate_measurement self waves scan
  = Ok (mkMeasurement
          (scan_shape_of scan
           ++ (if 1 <? nr then [nr] else [])
           ++ (if 1 <? na then [na] else []))
          (scan_calibrations_of scan
           ++ (if 1 <? nr
               then [mkCalibration inner (_radial_steps self) "mrad"] else [])
           ++ (if 1 <? na
               then [mkCalibration 0 (_azimuthal_steps self) "rad"] else []))).
Proof.
  intro Hbins. unfold polar_allocate_measurement. rewrite Hbins. cbn [bind].
  destruct (1 <? nr); destruct (1 <? na); cbv beta iota zeta;
    rewrite ?app_nil_r, <- ?app_assoc; reflexivity.
Qed.

(** X9. The measurement allocated for a freshly built annular detector has
    the shape and the calibrations of the scan and nothing more: one
    number per scan position, and a zero-dimensional array without a
    scan. *)
Theorem annular_measurement_shape (inner outer : Q) (waves : Waves)
        (scan : option Scan) :
  (inner < outer)%Q ->
  polar_allocate_measurement (AnnularDetector inner outer) waves scan
  = Ok (mkMeasurement (scan_shape_of scan) (scan_calibrations_of scan)).
Proof.
  intro Hband.
  rewrite (polar_allocate_measurement_bins _ waves scan 1 1 inner outer
             (annular_bins inner outer _ Hband)).
  simpl. rewrite !app_nil_r. reflexivity.
Qed.

Lemma annular_measurement_shape_witness :
  polar_allocate_measurement (AnnularDetector 0 3) small_waves
                             (Some (mkScan [5; 7] []))
  = Ok (mkMeasurement [5; 7] []).
Proof.
  apply (annular_measurement_shape 0 3 small_waves (Some (mkScan [5; 7] []))).
  reflexivity.
Defined.

(** * The grouper on any label array *)

Lemma arange_NoDup (n : Z) : NoDup (arange n).
Proof.
  unfold arange. generalize 0%nat as s.
  induction (Z.to_nat n) as [|k IH]; intro s; simpl; constructor.
  - rewrite in_map_iff. intros [x [Hx Hin]].
    apply in_seq in Hin. lia.
  - apply IH.
Qed.

Lemma concat_filters_NoDup (key : nat -> Z) (order : list nat) (vs : list Z) :
  NoDup order -> NoDup vs ->
  NoDup (concat (map (fun v => filter (fun i => key i =? v) order) vs)).
Proof.
  intros Horder Hvs. induction Hvs as [|v vs Hv _ IH]; simpl; [constructor|].
  apply NoDup_app.
  - apply NoDup_filter, Horder.
  - exact IH.
  - intros a Ha Hrest.
    apply filter_In in Ha. destruct Ha as [_ Ha]. apply Z.eqb_eq in Ha.
    apply in_concat in Hrest. destruct Hrest as [g [Hg Hag]].
    apply in_map_iff in Hg. destruct Hg as [w [<- Hw]].
    apply filter_In in Hag. destruct Hag as [_ Hag]. apply Z.eqb_eq in Hag.
    apply Hv. rewrite <- Ha, Hag. exact Hw.
Qed.

(** X12. On any label array that is not empty, [_label_to_index] returns
    max(labels) + 1 groups (none when every label is negative); the group
    at position [a] holds exactly the indices labelled [a]; the groups put
    end to end hold every index with a label that is not negative exactly
    once and no other index. *)
Theorem label_to_index_spec (labels : list Z) :
  labels <> [] ->
  exists groups m,
    _label_to_index labels = Ok groups
    /\ np_max labels = Ok m
    /\ length groups = Z.to_nat (m + 1)
    /\ (forall a g i, nth_error groups a = Some g ->
                      (In i g <-> (i < length labels)%nat
                                  /\ label_at labels i = Z.of_nat a))
    /\ NoDup (concat groups)
    /\ (forall i, In i (concat groups)
                  <-> (i < length labels)%nat /\ 0 <= label_at labels i).
Proof.
  intro Hne.
  destruct (label_to_index_total labels Hne) as [groups Hg].
  destruct (label_to_index_groups labels groups Hg) as [m [Hm Hgroups]].
  exists groups, m.
  split; [exact Hg|]. split; [exact Hm|].
  split; [apply (groups_count labels groups Hg m Hm)|].
  split; [intros a g i; apply (group_members labels groups Hg)|].
  split.
  - rewrite Hgroups.
    apply concat_filters_NoDup; [apply argsort_NoDup | apply arange_NoDup].
  - intro i. rewrite in_concat.
    apply (grouped_indices labels groups Hg).
Qed.

Lemma label_to_index_spec_witness :
  exists groups,
    _label_to_index [2; -1; 0; 2; -5] = Ok groups
    /\ length groups = 3%nat
    /\ NoDup (concat groups).
Proof.
  destruct (label_to_index_spec [2; -1; 0; 2; -5])
    as [groups [m [Hg [Hm [Hlen [_ [Hnd _]]]]]]].
  - discriminate.
  - exists groups. split; [exact Hg|]. split; [|exact Hnd].
    vm_compute in Hm. injection Hm as <-. exact Hlen.
Defined.

Lemma label_to_index_empty : _label_to_index [] = Err ValueError.
Proof. reflexivity. Qed.

(** * Regions of a detector with a proper band *)

Section ProperBand.

Variable sqrt : Q -> Q.
Variable arctan2 : Q -> Q -> Q.
Variable self : PolarDetector.
Variable waves : Waves.
Variables nr na : Z.
Variables inner outer : Q.
Variables kx ky : list Q.

Let cutoff := Some (min_pair (cutoff_scattering_angles waves)).
Let labels :=
  map (cell_label sqrt arctan2 (inner / 1000) (outer / 1000) nr na)
      (cells kx ky).

Hypothesis bins : _get_bins self cutoff = Ok (nr, na, inner, outer).
Hypothesis band : (inner < outer)%Q.
Hypothesis axes :
  frequency_axes (gpts waves)
                 (fst (angular_sampling waves) / 1000,
                  snd (angular_sampling waves) / 1000)%Q = Ok (kx, ky).

Lemma scaled_band : (inner / 1000 < outer / 1000)%Q.
Proof. apply Qmult_lt_compat_r; [reflexivity | exact band]. Qed.

Lemma polar_regions_labels :
  _polar_regions sqrt arctan2 (gpts waves)
                 (fst (angular_sampling waves) / 1000,
                  snd (angular_sampling waves) / 1000)%Q
                 (inner / 1000) (outer / 1000) nr na = Ok labels.
Proof.
  unfold _polar_regions. rewrite axes. cbn [bind fst snd].
  apply label_cells_ok. exact scaled_band.
Qed.

Lemma compute_regions_labels :
  compute_regions sqrt arctan2 self (gpts waves) (angular_sampling waves) cutoff
  = if forallb (Z.eqb (-1)) labels then Err ZeroSizedRegion
    else _label_to_index labels.
Proof.
  unfold compute_regions. rewrite bins. cbn [bind].
  rewrite polar_regions_labels. reflexivity.
Qed.

Hypothesis radial_count : 0 <= nr.
Hypothesis azimuthal_count : 1 <= na.

Lemma valid_index_label (i : nat) :
  (exists k, nth_error (cells kx ky) i = Some k
             /\ valid sqrt (inner / 1000) (outer / 1000) k = true)
  <-> (i < length labels)%nat /\ 0 <= label_at labels i.
Proof.
  unfold labels. rewrite length_map. split.
  - intros [k [Hk Hv]].
    split; [apply nth_error_Some; rewrite Hk; discriminate|].
    rewrite (label_at_map _ _ _ k Hk).
    apply (cell_label_sign sqrt arctan2 _ _ nr na scaled_band radial_count k
                           azimuthal_count), Hv.
  - intros [Hlt Hl].
    destruct (nth_error (cells kx ky) i) as [k|] eqn:Hk;
      [|apply nth_error_None in Hk; lia].
    exists k. split; [reflexivity|].
    rewrite (label_at_map _ _ _ k Hk) in Hl.
    destruct (valid sqrt (inner / 1000) (outer / 1000) k) eqn:Hv;
      [reflexivity|].
    apply (cell_label_sign sqrt arctan2 _ _ nr na scaled_band radial_count k
                           azimuthal_count) in Hv.
    lia.
Qed.

Hypothesis some_valid :
  exists k, In k (cells kx ky)
            /\ valid sqrt (inner / 1000) (outer / 1000) k = true.

(** With a valid cell the regions are those of the grouper, and there is
    at least one. *)
Lemma compute_regions_groups :
  exists first rest,
    compute_regions sqrt arctan2 self (gpts waves) (angular_sampling waves)
                    cutoff = Ok (first :: rest)
    /\ _label_to_index labels = Ok (first :: rest).
Proof.
  destruct some_valid as [k0 [Hk0 Hv0]].
  apply In_nth_error in Hk0. destruct Hk0 as [i0 Hi0].
  destruct (proj1 (valid_index_label i0)) as [Hlen0 Hl0];
    [exists k0; auto|].
  assert (forallb (Z.eqb (-1)) labels = false) as Hall.
  { apply not_true_is_false. intro H.
    apply forallb_minus_one in H. rewrite Forall_forall in H.
    assert (label_at labels i0 = -1) as E
      by (apply H; unfold label_at; apply nth_In, Hlen0).
    lia. }
  destruct (label_to_index_total labels) as [groups Hg].
  { intro E. rewrite E in Hlen0. simpl in Hlen0. lia. }
  destruct groups as [|first rest].
  { destruct (proj2 (grouped_indices labels [] Hg i0) (conj Hlen0 Hl0))
      as [g [[] _]]. }
  exists first, rest. split; [|exact Hg].
  rewrite compute_regions_labels, Hall. exact Hg.
Qed.

End ProperBand.

(** * Flexible annular detection *)






(** * The array of region numbers of [show] *)

Lemma length_update {A : Type} (l : list A) (i : nat) (v : A) :
  length (update l i v) = length l.
Proof.
  revert i. induction l as [|x l IH]; intros [|i]; simpl; auto.
Qed.

Lemma nth_update {A : Type} (l : list A) (i j : nat) (v d : A) :
  (i < length l)%nat ->
  nth j (update l i v) d = if (j =? i)%nat then v else nth j l d.
Proof.
  revert i j. induction l as [|x l IH]; intros i j Hi; simpl in Hi; [lia|].
  destruct i as [|i], j as [|j]; simpl; try reflexivity.
  apply IH. lia.
Qed.

Lemma assign_spec (array : list Z) (indices : list nat) (v : Z) :
  Forall (fun i => i < length array)%nat indices ->
  exists a,
    assign array indices v = Ok a
    /\ length a = length array
    /\ forall j, (In j indices -> nth j a (-1) = v)
                 /\ (~ In j indices -> nth j a (-1) = nth j array (-1)).
Proof.
  intro Hall. unfold assign.
  assert (forallb (fun i => (i <? length array)%nat) indices = true) as ->.
  { apply forallb_forall. rewrite Forall_forall in Hall.
    intros i Hi. apply Nat.ltb_lt, Hall, Hi. }
  eexists. split; [reflexivity|].
  revert array Hall.
  induction indices as [|i rest IH]; intros array Hall; simpl.
  - split; [reflexivity|]. intro j. split; [contradiction | reflexivity].
  - inversion Hall as [|? ? Hi Hrest]; subst.
    destruct (IH (update array i v)) as [Hlen Hnth].
    { rewrite length_update. exact Hrest. }
    rewrite length_update in Hlen.
    split; [exact Hlen|].
    intro j. destruct (Hnth j) as [Hin Hout].
    destruct (in_dec Nat.eq_dec j rest) as [Hj|Hj].
    + split; [intros _; apply Hin, Hj|].
      intro H. exfalso. apply H. right. exact Hj.
    + split.
      * intros [<-|H]; [|contradiction].
        rewrite (Hout Hj), (nth_update array i i v (-1) Hi), Nat.eqb_refl.
        reflexivity.
      * intro H. rewrite (Hout Hj), (nth_update array i j v (-1) Hi).
        destruct (Nat.eqb_spec j i) as [->|_]; [|reflexivity].
        exfalso. apply H. left. reflexivity.
Qed.

(** Writing the region numbers from [k] on, for regions that hold the
    indices labelled k, k + 1, ...: the cells with these labels get their
    label, the others keep their entry. *)
Lemma scatter_spec (labels : list Z) (regions : list (list nat)) :
  forall (k : nat) (array : list Z),
    length array = length labels ->
    (forall j g, nth_error regions j = Some g ->
                 forall i, In i g <-> (i < length labels)%nat
                                      /\ label_at labels i = Z.of_nat (k + j)) ->
    exists array',
      scatter array k regions = Ok array'
      /\ length array' = length labels
      /\ forall i,
          nth i array' (-1)
          = if (Z.of_nat k <=? label_at labels i)
               && (label_at labels i <? Z.of_nat (k + length regions))
            then label_at labels i
            else nth i array (-1).
Proof.
  induction regions as [|g rest IH]; intros k array Hlen Hmem.
  - exists array. split; [reflexivity|]. split; [exact Hlen|].
    intro i. simpl. rewrite Nat.add_0_r.
    destruct (Z.of_nat k <=? label_at labels i) eqn:E1;
      destruct (label_at labels i <? Z.of_nat k) eqn:E2; simpl; try reflexivity.
    apply Z.leb_le in E1. apply Z.ltb_lt in E2. lia.
  - pose proof (Hmem 0%nat g eq_refl) as Hg. rewrite Nat.add_0_r in Hg.
    destruct (assign_spec array g (Z.of_nat k)) as [a [Ha [Hla Hnth]]].
    { apply Forall_forall. intros i Hi. apply Hg in Hi. lia. }
    destruct (IH (S k) a) as [array' [Hrun [Hlen' Hnth']]].
    { lia. }
    { intros j g' Hj i. rewrite (Hmem (S j) g' Hj i).
      replace (k + S j)%nat with (S k + j)%nat by lia. reflexivity. }
    exists array'. split; [simpl; rewrite Ha; exact Hrun|].
    split; [exact Hlen'|].
    intro i. rewrite Hnth'. simpl length.
    replace (S k + length rest)%nat with (k + S (length rest))%nat by lia.
    destruct (Hnth i) as [Hin Hout].
    destruct (Z.leb_spec (Z.of_nat (S k)) (label_at labels i)) as [E1|E1];
      destruct (Z.ltb_spec (label_at labels i)
                           (Z.of_nat (k + S (length rest)))) as [E2|E2];
      destruct (Z.leb_spec (Z.of_nat k) (label_at labels i)) as [E3|E3];
      simpl; try reflexivity; try lia;
      try (apply Hout; intro Hi; apply Hg in Hi; lia).
    assert (label_at labels i = Z.of_nat k) as El by lia.
    destruct (Nat.lt_ge_cases i (length labels)) as [Hi|Hi].
    + rewrite Hin, El; [reflexivity|]. apply Hg. split; assumption.
    + rewrite (label_at_outside labels i Hi) in El. lia.
Qed.

Lemma length_fftfreq (n : nat) (d : Q) : length (fftfreq n d) = n.
Proof. unfold fftfreq. rewrite length_map, length_seq. reflexivity. Qed.

Lemma frequency_axes_lengths (shape : nat * nat) (sampling : Q * Q)
      (kx ky : list Q) :
  frequency_axes shape sampling = Ok (kx, ky) ->
  length kx = fst shape /\ length ky = snd shape.
Proof.
  unfold frequency_axes.
  destruct (py_div 1 (fst sampling)) as [a|]; [|discriminate]. cbn [bind].
  destruct (py_div a _) as [s0|]; [|discriminate]. cbn [bind].
  destruct (py_div 1 (snd sampling)) as [b|]; [|discriminate]. cbn [bind].
  destruct (py_div b _) as [s1|]; [|discriminate]. cbn [bind].
  unfold spatial_frequencies. intro H. injection H as <- <-.
  split; apply length_fftfreq.
Qed.

(** X14. [show] rebuilds the label array from the regions: for a detector
    with an empty cache, bins with inner < outer and a grid with a valid
    cell, the array it fills from [_get_regions], region number by region
    number over a background of -1, is the array of labels that
    [_polar_regions] computes. *)
Theorem show_array_is_label_array
        (sqrt : Q -> Q) (arctan2 : Q -> Q -> Q)
        (self : PolarDetector) (waves : Waves)
        (nr na : Z) (inner outer : Q) (kx ky : list Q) :
  grid_defined waves = true ->
  cache self = None ->
  _get_bins self (Some (min_pair (cutoff_scattering_angles waves)))
  = Ok (nr, na, inner, outer) ->
  (inner < outer)%Q -> 0 <= nr -> 1 <= na ->
  frequency_axes (gpts waves)
                 (fst (angular_sampling waves) / 1000,
                  snd (angular_sampling waves) / 1000)%Q = Ok (kx, ky) ->
  (exists k, In k (cells kx ky)
             /\ valid sqrt (inner / 1000) (outer / 1000) k = true) ->
  exists labels,
    _polar_regions sqrt arctan2 (gpts waves)
                   (fst (angular_sampling waves) / 1000,
                    snd (angular_sampling waves) / 1000)%Q
                   (inner / 1000) (outer / 1000) nr na = Ok labels
    /\ fst (show_array sqrt arctan2 self waves) = Ok labels.
Proof.
  intros Hgrid Hcache Hbins Hband Hnr Hna Haxes Hvalid.
  set (labels := map (cell_label sqrt arctan2 (inner / 1000) (outer / 1000)
                                 nr na) (cells kx ky)).
  exists labels.
  split; [apply (polar_regions_labels sqrt arctan2 waves nr na inner outer
                                      kx ky Hband Haxes)|].
  destruct (compute_regions_groups sqrt arctan2 self waves nr na inner outer
              kx ky Hbins Hband Haxes Hnr Hna Hvalid)
    as [first [rest [Hrun Hg]]].
  fold labels in Hg.
  assert (length labels = (fst (gpts waves) * snd (gpts waves))%nat) as Hsize.
  { unfold labels, cells. rewrite length_map, length_prod.
    destruct (frequency_axes_lengths _ _ _ _ Haxes) as [-> ->]. reflexivity. }
  destruct (scatter_spec labels (first :: rest) 0
              (repeat (-1) (fst (gpts waves) * snd (gpts waves))))
    as [array [Hscatter [Hlen Hnth]]].
  { rewrite repeat_length. symmetry. exact Hsize. }
  { intros j g Hj i. apply (group_members labels (first :: rest) Hg j g i Hj). }
  unfold show_array, _get_regions. rewrite Hgrid, Hcache, Hrun.
  cbv beta iota zeta. unfold fst at 1. cbn [bind].
  rewrite Hscatter. f_equal.
  apply nth_ext with (d := -1) (d' := -1); [exact Hlen|].
  intros i Hi. rewrite Hlen in Hi. rewrite Hnth.
  change (nth i labels (-1)) with (label_at labels i).
  destruct (label_to_index_groups labels _ Hg) as [m [Hm _]].
  pose proof (groups_count labels _ Hg m Hm) as Hcount.
  destruct (np_max_spec labels m Hm) as [_ Hall].
  rewrite Forall_forall in Hall.
  assert (label_at labels i <= m) as Hle
    by (apply Hall; unfold label_at; apply nth_In, Hi).
  destruct (Z.leb_spec (Z.of_nat 0) (label_at labels i)) as [E1|E1];
    destruct (Z.ltb_spec (label_at labels i)
                         (Z.of_nat (0 + length (first :: rest)))) as [E2|E2];
    simpl andb; cbv iota; try reflexivity.
  - rewrite Hcount in E2. simpl in E1. lia.
  - rewrite nth_repeat.
    destruct (nth_error (cells kx ky) i) as [k|] eqn:Hk.
    + unfold labels. rewrite (label_at_map _ _ _ k Hk).
      unfold labels in E1. rewrite (label_at_map _ _ _ k Hk) in E1.
      destruct (valid sqrt (inner / 1000) (outer / 1000) k) eqn:Hv.
      * apply (cell_label_sign sqrt arctan2 _ _ nr na
                 (scaled_band inner outer Hband) Hnr k Hna) in Hv.
        simpl in E1. lia.
      * symmetry.
        apply (cell_label_sign sqrt arctan2 _ _ nr na
                 (scaled_band inner outer Hband) Hnr k Hna), Hv.
    + apply nth_error_None in Hk. unfold labels in Hi.
      rewrite length_map in Hi. lia.
  - rewrite nth_repeat.
    destruct (nth_error (cells kx ky) i) as [k|] eqn:Hk.
    + unfold labels. rewrite (label_at_map _ _ _ k Hk).
      unfold labels in E1. rewrite (label_at_map _ _ _ k Hk) in E1.
      destruct (valid sqrt (inner / 1000) (outer / 1000) k) eqn:Hv.
      * apply (cell_label_sign sqrt arctan2 _ _ nr na
                 (scaled_band inner outer Hband) Hnr k Hna) in Hv.
        simpl in E1. lia.
      * symmetry.
        apply (cell_label_sign sqrt arctan2 _ _ nr na
                 (scaled_band inner outer Hband) Hnr k Hna), Hv.
    + apply nth_error_None in Hk. unfold labels in Hi.
      rewrite length_map in Hi. lia.
Qed.

Lemma show_array_is_label_array_witness :
  fst (show_array sqrt_grid arctan2_grid (FlexibleAnnularDetector 1)
                  small_waves)
  = Ok [0; 1; 2; 1; 1; 1; -1; 1; 2; -1; -1; -1; 1; 1; -1; 1].
Proof.
  edestruct (show_array_is_label_array sqrt_grid arctan2_grid
               (FlexibleAnnularDetector 1) small_waves)
    as [labels [Hlabels Hshow]].
  - reflexivity.
  - reflexivity.
  - vm_compute. reflexivity.
  - reflexivity.
  - lia.
  - lia.
  - vm_compute. reflexivity.
  - exists (0 # 4000, 0 # 4000)%Q. split; [left; reflexivity | reflexivity].
  - rewrite Hshow. rewrite <- Hlabels. vm_compute. reflexivity.
Defined.

(** * How many regions there can be *)







Lemma get_bins_counts_positive_witness :
  exists nr na,
    _get_bins (mkPolarDetector (Some 0%Q) (Some 3%Q) (3 # 2) (two_pi / 4)
                               None None) None
    = Ok (nr, na, 0%Q, 3%Q)
    /\ 1 <= nr /\ 1 <= na.
Proof.
  exists 2, 4. split; [vm_compute; reflexivity|].
  apply (get_bins_counts_positive
           (mkPolarDetector (Some 0%Q) (Some 3%Q) (3 # 2) (two_pi / 4) None None)
           None 2 4 0 3).
  - vm_compute. reflexivity.
  - reflexivity.
  - reflexivity.
  - reflexivity.
Defined.

(** * The measurement of a pixelated detector *)

(** X19. With resample = False, a defined grid, a maximum angle that is
    not refused, angular samplings that are not zero and a downsampled
    grid without an empty axis, [PixelatedDetector.allocate_measurement]
    allocates an array with the scan's shape followed by the downsampled
    grid.  A downsampled grid with an empty axis raises a division by
    zero. *)
Theorem pixelated_measurement_shape
        (downsampled_gpts : Waves -> angle_option -> option (nat * nat))
        (max_angle : angle_option) (waves : Waves) (scan : option (list Z))
        (g0 g1 : nat) :
  grid_defined waves = true ->
  check_max_angle_exceeded waves max_angle = Ok tt ->
  downsampled_gpts waves max_angle = Some (g0, g1) ->
  ~ (fst (angular_sampling waves) == 0)%Q ->
  ~ (snd (angular_sampling waves) == 0)%Q ->
  let allocated :=
    allocate_measurement downsampled_gpts
                         (mkPixelatedDetector max_angle ResampleFalse)
                         waves scan in
  (g0 <> 0%nat -> g1 <> 0%nat ->
   allocated
   = Ok (match scan with None => [] | Some shape => shape end
         ++ [Z.of_nat g0; Z.of_nat g1]))
  /\ (g0 = 0%nat \/ g1 = 0%nat -> allocated = Err ZeroDivisionError).
Proof.
  intros Hgrid Hcheck Hdown Hs0 Hs1 allocated.
  unfold allocated, allocate_measurement.
  rewrite Hgrid. cbn [bind _max_angle]. rewrite Hcheck. cbn [bind].
  rewrite Hdown. cbn [bind].
  unfold _resampled_gpts. cbn [_resample bind fst snd].
  rewrite (py_div_ok 1 _ Hs0). cbn [bind].
  split.
  - intros Hg0 Hg1.
    rewrite py_div_ok by (apply inject_Z_nonzero; lia). cbn [bind].
    rewrite (py_div_ok 1 _ Hs1). cbn [bind].
    rewrite py_div_ok by (apply inject_Z_nonzero; lia). cbn [bind].
    reflexivity.
  - intros [->| ->].
    + rewrite py_div_by_zero by reflexivity. reflexivity.
    + destruct (py_div (1 / fst (angular_sampling waves))
                       (inject_Z (Z.of_nat g0))) as [s|e] eqn:E; cbn [bind].
      * rewrite (py_div_ok 1 _ Hs1). cbn [bind].
        rewrite py_div_by_zero by reflexivity. reflexivity.
      * unfold py_div in E.
        destruct (Qeq_bool (inject_Z (Z.of_nat g0)) 0); [|discriminate].
        injection E as <-. reflexivity.
Qed.

Lemma pixelated_measurement_shape_witness :
  allocate_measurement (fun _ _ => Some (4, 4)%nat)
                       (mkPixelatedDetector (AngleStr "valid") ResampleFalse)
                       small_waves (Some [5; 7])
  = Ok [5; 7; 4; 4].
Proof.
  destruct (pixelated_measurement_shape
              (fun _ _ => Some (4, 4)%nat) (AngleStr "valid") small_waves
              (Some [5; 7]) 4 4 eq_refl eq_refl eq_refl)
    as [Hshape _].
  - discriminate.
  - discriminate.
  - apply Hshape; discriminate.
Defined.

(** * Nodes and weights of the bilinear resampling *)

Lemma length_fftshift {A : Type} (l : list A) : length (fftshift l) = length l.
Proof.
  unfold fftshift. rewrite length_app, length_skipn, length_firstn.
  assert ((length l + 1) / 2 <= length l)%nat.
  { destruct (length l) as [|n]; [reflexivity|].
    apply Nat.Div0.div_le_upper_bound. lia. }
  lia.
Qed.












Lemma sequence_map_ok {A B : Type} (f : A -> result B) (g : A -> B)
      (l : list A) :
  (forall a, In a l -> f a = Ok (g a)) ->
  sequence (map f l) = Ok (map g l).
Proof.
  induction l as [|a l IH]; intro H; simpl; [reflexivity|].
  rewrite (H a (or_introl eq_refl)). cbn [bind].
  rewrite IH by (intros b Hb; apply H; right; exact Hb).
  reflexivity.
Qed.





(** One axis of the loop: a single old grid point fails at k[1]; with two
    or more there is one node and one weight per new grid point, whatever
    the samplings are. *)
Lemma axis_outcome (n m : nat) (r d : Q) :
  (n = 1%nat -> axis_nodes_and_weights n m r d = Err IndexError)
  /\ ((2 <= n)%nat ->
      exists nodes weights,
        axis_nodes_and_weights n m r d = Ok (nodes, weights)
        /\ length nodes = m /\ length weights = m).
Proof.
  unfold axis_nodes_and_weights.
  pose proof (length_fftshift (fftfreq n r)) as Hlen.
  rewrite length_fftfreq in Hlen.
  pose proof (length_fftshift (fftfreq m d)) as Hnew.
  rewrite length_fftfreq in Hnew.
  destruct (fftshift (fftfreq n r)) as [|k0 rest]; simpl in Hlen.
  - split; intro; lia.
  - rewrite (sequence_map_ok
               (fun kn => column_argmin (map (distance kn) (k0 :: rest)))
               (fun kn => argmin_from 0 (distance kn k0) 1
                                      (map (distance kn) rest)))
      by (intros; reflexivity).
    cbn [bind]. split.
    + intro Hn. destruct rest as [|k1 rest]; [reflexivity|].
      simpl in Hlen. lia.
    + intro Hn. destruct rest as [|k1 rest]; [simpl in Hlen; lia|].
      eexists. eexists. split; [reflexivity|].
      rewrite !length_map. split; exact Hnew.
Qed.

Lemma py_div_cases (x y : Q) :
  ((y == 0)%Q /\ py_div x y = Err ZeroDivisionError)
  \/ (~ (y == 0)%Q /\ py_div x y = Ok (x / y)%Q).
Proof.
  unfold py_div. destruct (Qeq_bool y 0) eqn:E.
  - left. split; [apply Qeq_bool_eq; exact E | reflexivity].
  - right. split; [|reflexivity].
    intro H. apply Qeq_eq_bool in H. congruence.
Qed.

Lemma inject_Z_of_nat_zero (n : nat) :
  (inject_Z (Z.of_nat n) == 0)%Q <-> n = 0%nat.
Proof.
  unfold Qeq. simpl. lia.
Qed.

(** X21 (src/abtem/detect.py, PixelatedDetector._bilinear_nodes_and_weight).
    The outcome of the whole function.  A zero among the four angular
    samplings and the four grid sizes raises a division by zero.  Without a
    zero, an old grid with a single point along an axis raises an index
    error (k[1] does not exist).  Otherwise the function returns nodes and
    weights, one per new grid point along each axis. *)
Theorem bilinear_nodes_outcome (old_shape new_shape : nat * nat)
        (old_angular_sampling new_angular_sampling : Q * Q) :
  let outcome :=
    _bilinear_nodes_and_weight old_shape new_shape
                               old_angular_sampling new_angular_sampling in
  let zero :=
    (fst old_angular_sampling == 0)%Q \/ fst old_shape = 0%nat
    \/ (snd old_angular_sampling == 0)%Q \/ snd old_shape = 0%nat
    \/ (fst new_angular_sampling == 0)%Q \/ fst new_shape = 0%nat
    \/ (snd new_angular_sampling == 0)%Q \/ snd new_shape = 0%nat in
  (zero -> outcome = Err ZeroDivisionError)
  /\ (~ zero -> fst old_shape = 1%nat \/ snd old_shape = 1%nat ->
      outcome = Err IndexError)
  /\ (~ zero -> (2 <= fst old_shape)%nat -> (2 <= snd old_shape)%nat ->
      exists v vw u uw,
        outcome = Ok ((v, vw), (u, uw))
        /\ length v = fst new_shape /\ length vw = fst new_shape
        /\ length u = snd new_shape /\ length uw = snd new_shape).
Proof.
  intros outcome zero. unfold outcome, _bilinear_nodes_and_weight.
  repeat
    match goal with
    | |- context [bind (py_div ?x ?y) _] =>
        let Hz := fresh "Hz" in
        let Hnz := fresh "Hnz" in
        destruct (py_div_cases x y) as [[Hz ->]|[Hnz ->]]; cbn [bind];
        [ try apply inject_Z_of_nat_zero in Hz;
          split; [reflexivity|];
          split; intros Hzero; exfalso; apply Hzero; unfold zero; tauto
        | try rewrite inject_Z_of_nat_zero in Hnz ]
    end.
  split; [intro Hzero; exfalso; unfold zero in Hzero; tauto|].
  destruct (axis_outcome (fst old_shape) (fst new_shape)
              (1 / fst old_angular_sampling / inject_Z (Z.of_nat (fst old_shape)))
              (1 / fst new_angular_sampling / inject_Z (Z.of_nat (fst new_shape))))
    as [Hone0 Hmany0].
  destruct (axis_outcome (snd old_shape) (snd new_shape)
              (1 / snd old_angular_sampling / inject_Z (Z.of_nat (snd old_shape)))
              (1 / snd new_angular_sampling / inject_Z (Z.of_nat (snd new_shape))))
    as [Hone1 Hmany1].
  split.
  - intros _ [H0|H1].
    + rewrite (Hone0 H0). reflexivity.
    + destruct (Nat.eq_dec (fst old_shape) 1) as [H0|H0].
      * rewrite (Hone0 H0). reflexivity.
      * destruct Hmany0 as [v [vw [-> _]]]; [lia|]. cbn [bind].
        rewrite (Hone1 H1). reflexivity.
  - intros _ H0 H1.
    destruct (Hmany0 H0) as [v [vw [-> [Hv Hvw]]]].
    destruct (Hmany1 H1) as [u [uw [-> [Hu Huw]]]].
    cbn [bind]. exists v, vw, u, uw.
    split; [reflexivity|]. tauto.
Qed.

Lemma bilinear_nodes_outcome_witness :
  _bilinear_nodes_and_weight (4, 1)%nat (3, 3)%nat (1, 1)%Q (1, 1)%Q
  = Err IndexError
  /\ exists v vw u uw,
      _bilinear_nodes_and_weight (4, 4)%nat (3, 3)%nat (1, 1)%Q (1, 1)%Q
      = Ok ((v, vw), (u, uw))
      /\ length v = 3%nat /\ length vw = 3%nat
      /\ length u = 3%nat /\ length uw = 3%nat.
Proof.
  split.
  - destruct (bilinear_nodes_outcome (4, 1)%nat (3, 3)%nat (1, 1)%Q (1, 1)%Q)
      as [_ [Hone _]].
    apply Hone.
    + cbn [fst snd]. intro Hz.
      repeat (destruct Hz as [Hz|Hz]; [discriminate Hz|]). discriminate Hz.
    + right. reflexivity.
  - destruct (bilinear_nodes_outcome (4, 4)%nat (3, 3)%nat (1, 1)%Q (1, 1)%Q)
      as [_ [_ Hmany]].
    apply Hmany.
    + cbn [fst snd]. intro Hz.
      repeat (destruct Hz as [Hz|Hz]; [discriminate Hz|]). discriminate Hz.
    + cbn [fst]. lia.
    + cbn [snd]. lia.
Defined.

(** * Cells: [is_orthogonal] and [standardize_cell] *)

Lemma is_3x3_inv (m : matrix) :
  is_3x3 m ->
  exists a b c d e f g h i, m = [[a; b; c]; [d; e; f]; [g; h; i]].
Proof.
  intros [Hlen Hrows].
  destruct m as [|r0 [|r1 [|r2 [|]]]]; try discriminate.
  inversion Hrows as [|? ? H0 Hrows1]; subst.
  inversion Hrows1 as [|? ? H1 Hrows2]; subst.
  inversion Hrows2 as [|? ? H2 _]; subst.
  destruct r0 as [|a [|b [|c [|]]]]; try discriminate.
  destruct r1 as [|d [|e [|f [|]]]]; try discriminate.
  destruct r2 as [|g [|h [|i [|]]]]; try discriminate.
  exists a, b, c, d, e, f, g, h, i. reflexivity.
Qed.

Lemma below_three (i : nat) : (i < 3)%nat -> i = 0%nat \/ i = 1%nat \/ i = 2%nat.
Proof. lia. Qed.

Lemma argmax_from_spec (rest : list Q) :
  forall (pre : list Q) (best_i : nat) (best : Q),
    nth_error pre best_i = Some best ->
    Forall (fun x => x <= best)%Q pre ->
    exists v,
      nth_error (pre ++ rest) (argmax_from best_i best (length pre) rest)
      = Some v
      /\ Forall (fun x => x <= v)%Q (pre ++ rest).
Proof.
  induction rest as [|x rest IH]; intros pre best_i best Hbest Hpre.
  - simpl. exists best. rewrite app_nil_r. split; assumption.
  - simpl. destruct (Qlt_le_dec best x) as [Hlt|Hle].
    + destruct (IH (pre ++ [x]) (length pre) x) as [v [Hv Hall]].
      * rewrite nth_error_app2 by lia. rewrite Nat.sub_diag. reflexivity.
      * apply Forall_app. split.
        -- rewrite Forall_forall in Hpre |- *. intros y Hy.
           specialize (Hpre y Hy). simpl in Hpre. lra.
        -- constructor; [apply Qle_refl | constructor].
      * rewrite length_app, Nat.add_1_r in Hv. rewrite <- app_assoc in Hv, Hall.
        exists v. split; assumption.
    + destruct (IH (pre ++ [x]) best_i best) as [v [Hv Hall]].
      * rewrite nth_error_app1; [exact Hbest|].
        apply nth_error_Some. congruence.
      * apply Forall_app. split; [exact Hpre|].
        constructor; [exact Hle | constructor].
      * rewrite length_app, Nat.add_1_r in Hv. rewrite <- app_assoc in Hv, Hall.
        exists v. split; assumption.
Qed.

(** [argmax] points at an entry that no entry exceeds. *)
Lemma argmax_spec (l : list Q) :
  l <> [] ->
  exists v, nth_error l (argmax l) = Some v /\ Forall (fun x => x <= v)%Q l.
Proof.
  destruct l as [|x rest]; [congruence|]. intros _.
  apply (argmax_from_spec rest [x] 0%nat x); [reflexivity|].
  constructor; [apply Qle_refl | constructor].
Qed.

Lemma argmax_from_first (rest : list Q) :
  forall (best_i i : nat) (best : Q),
    Forall (fun x => x <= best)%Q rest ->
    argmax_from best_i best i rest = best_i.
Proof.
  induction rest as [|x rest IH]; intros best_i i best Hall; [reflexivity|].
  inversion Hall as [|? ? Hx Hrest]; subst. simpl.
  destruct (Qlt_le_dec best x) as [Hlt|_]; [lra|].
  apply IH. exact Hrest.
Qed.

Lemma nth_column (m : matrix) (i j : nat) :
  nth i (column m j) 0%Q = entry m i j.
Proof.
  unfold column, entry. revert i.
  induction m as [|row m IH]; intros [|i]; simpl; try reflexivity.
  - destruct j; reflexivity.
  - destruct j; reflexivity.
  - apply IH.
Qed.

Lemma entry_take_rows (m : matrix) (indices : list nat) (i j : nat) :
  (i < length indices)%nat ->
  entry (take_rows m indices) i j = entry m (nth i indices 0%nat) j.
Proof.
  intro Hi. unfold entry, take_rows. f_equal.
  rewrite (nth_indep _ [] (nth 0 m [])) by (rewrite length_map; exact Hi).
  apply (map_nth (fun i => nth i m [])).
Qed.

Lemma padded_entry (old : matrix) (tol : Q) (i j : nat) :
  is_3x3 old -> (i < 3)%nat -> (j < 3)%nat ->
  (entry (matrix_add (np_abs old) (matrix_scale identity3 tol)) i j
   == Qabs (entry old i j) + (if (i =? j)%nat then tol else 0))%Q.
Proof.
  intros Hshape Hi Hj.
  destruct (is_3x3_inv old Hshape)
    as [a [b [c [d [e [f [g [h [k ->]]]]]]]]].
  destruct (below_three i Hi) as [->|[->| ->]];
    destruct (below_three j Hj) as [->|[->| ->]];
    cbn; ring.
Qed.

Lemma padded_shape (old : matrix) (tol : Q) :
  is_3x3 old ->
  is_3x3 (matrix_add (np_abs old) (matrix_scale identity3 tol)).
Proof.
  intro Hshape.
  destruct (is_3x3_inv old Hshape)
    as [a [b [c [d [e [f [g [h [k ->]]]]]]]]].
  split; [reflexivity|]. repeat constructor.
Qed.

Lemma argmax_column (m : matrix) (j : nat) :
  is_3x3 m ->
  (argmax (column m j) < 3)%nat
  /\ forall i, (i < 3)%nat ->
               (entry m i j <= entry m (argmax (column m j)) j)%Q.
Proof.
  intros [Hlen Hrows].
  assert (length (column m j) = 3%nat) as Hcol
    by (unfold column; rewrite length_map; exact Hlen).
  destruct (argmax_spec (column m j)) as [v [Hv Hall]].
  { intro E. rewrite E in Hcol. discriminate. }
  assert (argmax (column m j) < 3)%nat as Hlt.
  { rewrite <- Hcol. apply nth_error_Some. congruence. }
  split; [exact Hlt|]. intros i Hi.
  rewrite <- !nth_column.
  rewrite (nth_error_nth _ _ 0%Q Hv).
  rewrite Forall_forall in Hall. apply Hall.
  apply nth_In. lia.
Qed.

Lemma standardized_entry (atoms : Atoms) (tol : Q) (i j : nat) :
  (i < 3)%nat ->
  let padded :=
    matrix_add (np_abs (atoms_cell atoms)) (matrix_scale identity3 tol) in
  entry (atoms_cell (standardize_cell atoms tol)) i j
  = entry padded (argmax (column padded i)) j.
Proof.
  intros Hi padded. unfold standardize_cell. cbn [atoms_cell].
  fold padded. rewrite entry_take_rows by exact Hi.
  f_equal. unfold argmax_axis0.
  destruct (below_three i Hi) as [->|[->| ->]]; reflexivity.
Qed.

(** X22 (src/abtem/transform.py, standardize_cell).  The new cell is made
    of rows of |old cell| + tol * identity and is again 3 x 3.  In every
    column the largest entry of |old cell| + tol * identity ends on the
    diagonal of the new cell, so no entry of a column of the new cell
    exceeds the diagonal entry of that column. *)
Theorem standardize_cell_column_maximum (atoms : Atoms) (tol : Q) :
  is_3x3 (atoms_cell atoms) ->
  let old_cell := atoms_cell atoms in
  let new_cell := atoms_cell (standardize_cell atoms tol) in
  is_3x3 new_cell
  /\ (forall i, (i < 3)%nat ->
        exists a, (a < 3)%nat
          /\ forall j, (j < 3)%nat ->
               (entry new_cell i j
                == Qabs (entry old_cell a j)
                   + (if (a =? j)%nat then tol else 0))%Q)
  /\ (forall i j, (i < 3)%nat -> (j < 3)%nat ->
        (Qabs (entry old_cell i j) + (if (i =? j)%nat then tol else 0)
         <= entry new_cell j j)%Q
        /\ (entry new_cell i j <= entry new_cell j j)%Q).
Proof.
  intros Hshape old_cell new_cell.
  pose proof (padded_shape old_cell tol Hshape) as Hpadded.
  set (padded := matrix_add (np_abs old_cell) (matrix_scale identity3 tol))
    in Hpadded.
  split; [|split].
  - unfold new_cell, standardize_cell. cbn [atoms_cell]. fold old_cell padded.
    split; [reflexivity|].
    unfold take_rows, argmax_axis0. rewrite Forall_forall.
    intros row Hrow. rewrite map_map in Hrow.
    apply in_map_iff in Hrow. destruct Hrow as [j [<- _]].
    destruct (argmax_column padded j Hpadded) as [Hlt _].
    destruct Hpadded as [Hlen Hrows]. rewrite Forall_forall in Hrows.
    apply Hrows. apply nth_In. lia.
  - intros i Hi.
    destruct (argmax_column padded i Hpadded) as [Hlt _].
    exists (argmax (column padded i)). split; [exact Hlt|].
    intros j Hj. unfold new_cell.
    rewrite (standardized_entry atoms tol i j Hi). fold old_cell padded.
    apply padded_entry; assumption.
  - intros i j Hi Hj.
    destruct (argmax_column padded j Hpadded) as [_ Hmax].
    destruct (argmax_column padded i Hpadded) as [Hlt _].
    unfold new_cell.
    rewrite (standardized_entry atoms tol j j Hj).
    rewrite (standardized_entry atoms tol i j Hi). fold old_cell padded.
    split.
    + rewrite <- (padded_entry old_cell tol i j Hshape Hi Hj).
      apply Hmax. exact Hi.
    + apply Hmax. exact Hlt.
Qed.

Lemma standardize_cell_column_maximum_witness :
  (Qabs (entry [[0; 3; 0]; [-2; 0; 0]; [0; 0; 5]]%Q 1 0) + 0
   <= entry (atoms_cell
               (standardize_cell
                  (mkAtoms [[0; 3; 0]; [-2; 0; 0]; [0; 0; 5]]%Q [[1; 1; 1]]%Q)
                  default_tol)) 0 0)%Q.
Proof.
  destruct (standardize_cell_column_maximum
              (mkAtoms [[0; 3; 0]; [-2; 0; 0]; [0; 0; 5]]%Q [[1; 1; 1]]%Q)
              default_tol)
    as [_ [_ Hmax]].
  - split; [reflexivity|]. repeat constructor.
  - apply (Hmax 1%nat 0%nat); lia.
Defined.

Lemma argmax_unique (l : list Q) (k : nat) (v : Q) :
  nth_error l k = Some v ->
  (forall i x, i <> k -> nth_error l i = Some x -> (x < v)%Q) ->
  argmax l = k.
Proof.
  intros Hk Hothers.
  destruct (argmax_spec l) as [w [Hw Hall]].
  { intro E. rewrite E in Hk. destruct k; discriminate. }
  destruct (Nat.eq_dec (argmax l) k) as [E|E]; [exact E|].
  exfalso. pose proof (Hothers _ _ E Hw) as Hlt.
  rewrite Forall_forall in Hall.
  pose proof (Hall v (nth_error_In _ _ Hk)) as Hle. lra.
Qed.

Lemma nth_error_column (m : matrix) (i j : nat) (x : Q) :
  nth_error (column m j) i = Some x -> (i < length m)%nat /\ x = entry m i j.
Proof.
  intro H.
  assert (i < length (column m j))%nat as Hi
    by (apply nth_error_Some; congruence).
  split; [unfold column in Hi; rewrite length_map in Hi; exact Hi|].
  rewrite <- nth_column. rewrite (nth_error_nth _ _ 0%Q H). reflexivity.
Qed.

Lemma column_nth_error (m : matrix) (i j : nat) :
  (i < length m)%nat -> nth_error (column m j) i = Some (entry m i j).
Proof.
  intro Hi. rewrite <- nth_column. apply nth_error_nth'.
  unfold column. rewrite length_map. exact Hi.
Qed.

Lemma off_diagonal_entries (m : matrix) :
  off_diagonal m
  = [entry m 0 1; entry m 0 2; entry m 1 0; entry m 1 2;
     entry m 2 0; entry m 2 1].
Proof. reflexivity. Qed.

(** [is_orthogonal] holds exactly when no entry off the diagonal exceeds
    [tol] in absolute value. *)
Lemma is_orthogonal_iff (atoms : Atoms) (tol : Q) :
  is_orthogonal atoms tol = true
  <-> forall i j, (i < 3)%nat -> (j < 3)%nat -> i <> j ->
                  (Qabs (entry (atoms_cell atoms) i j) <= tol)%Q.
Proof.
  unfold is_orthogonal. rewrite negb_true_iff, off_diagonal_entries.
  set (m := atoms_cell atoms).
  set (f := fun x : Q => if Qlt_le_dec tol (Qabs x) then true else false).
  assert (forall x, f x = false <-> (Qabs x <= tol)%Q) as Hf.
  { intro x. unfold f. destruct (Qlt_le_dec tol (Qabs x)); split; intro H;
      try discriminate; try assumption; try reflexivity.
    exfalso. lra. }
  split.
  - intros H i j Hi Hj Hij. apply Hf.
    destruct (f (entry m i j)) eqn:E; [|reflexivity].
    rewrite <- H. symmetry. apply existsb_exists.
    exists (entry m i j). split; [|exact E].
    destruct (below_three i Hi) as [->|[->| ->]];
      destruct (below_three j Hj) as [->|[->| ->]];
      try congruence; simpl; tauto.
  - intro H.
    destruct (existsb f _) eqn:E; [|reflexivity].
    apply existsb_exists in E. destruct E as [x [Hx Hfx]].
    assert (f x = false) as Hno.
    { apply Hf. simpl in Hx.
      destruct Hx as [<-|[<-|[<-|[<-|[<-|[<-|[]]]]]]]; apply H; lia. }
    congruence.
Qed.

(** X23 (src/abtem/transform.py, standardize_cell then is_orthogonal).  Take
    a cell whose lattice vectors lie along the three axes in any order
    ([sigma i] is the axis of vector [i]), each longer than [tol], of either
    sign, and [tol] not negative.  After [standardize_cell] the vector along
    axis [sigma i] is row [sigma i], its diagonal entry is the length of the
    old vector (plus [tol] if the vector already was in its place), and
    [is_orthogonal] accepts the cell at the same [tol].  The cell need not
    be diagonal: a vector that changed its place keeps an entry [tol] in the
    column of its old place. *)
Theorem standardize_cell_orthorhombic (atoms : Atoms) (tol : Q)
        (sigma : nat -> nat) :
  is_3x3 (atoms_cell atoms) ->
  (0 <= tol)%Q ->
  (forall i, (i < 3)%nat -> (sigma i < 3)%nat) ->
  (forall i i', (i < 3)%nat -> (i' < 3)%nat -> sigma i = sigma i' -> i = i') ->
  (forall i j, (i < 3)%nat -> (j < 3)%nat -> j <> sigma i ->
               (entry (atoms_cell atoms) i j == 0)%Q) ->
  (forall i, (i < 3)%nat ->
             (tol < Qabs (entry (atoms_cell atoms) i (sigma i)))%Q) ->
  let new_cell := atoms_cell (standardize_cell atoms tol) in
  is_orthogonal (standardize_cell atoms tol) tol = true
  /\ (forall i, (i < 3)%nat ->
        (entry new_cell (sigma i) (sigma i)
         == Qabs (entry (atoms_cell atoms) i (sigma i))
            + (if (i =? sigma i)%nat then tol else 0))%Q)
  /\ (forall i, (i < 3)%nat -> sigma i <> i ->
        (entry new_cell (sigma i) i == tol)%Q).
Proof.
  intros Hshape Htol Hrange Hinj Hzero Hlong new_cell.
  set (old_cell := atoms_cell atoms) in *.
  pose proof (padded_shape old_cell tol Hshape) as Hpadded.
  set (padded := matrix_add (np_abs old_cell) (matrix_scale identity3 tol))
    in Hpadded.
  assert (forall i j, (i < 3)%nat -> (j < 3)%nat ->
            (entry padded i j
             == Qabs (entry old_cell i j)
                + (if (i =? j)%nat then tol else 0))%Q) as Hentry
    by (intros i j Hi Hj; apply padded_entry; assumption).
  assert (forall i j, (i < 3)%nat -> (j < 3)%nat -> j <> sigma i ->
            (entry padded i j == (if (i =? j)%nat then tol else 0))%Q)
    as Hsmall.
  { intros i j Hi Hj Hne. rewrite (Hentry i j Hi Hj).
    rewrite (Hzero i j Hi Hj Hne). change (Qabs 0) with 0%Q. ring. }
  assert (forall i, (i < 3)%nat -> argmax (column padded (sigma i)) = i)
    as Hargmax.
  { intros i Hi.
    apply (argmax_unique _ i (entry padded i (sigma i))).
    - apply column_nth_error. destruct Hpadded as [-> _]. exact Hi.
    - intros i' x Hne Hx. apply nth_error_column in Hx.
      destruct Hx as [Hi' ->]. destruct Hpadded as [Hlen _].
      rewrite Hlen in Hi'.
      assert (sigma i <> sigma i') as Hdiff
        by (intro E; apply Hne; symmetry; apply Hinj; assumption).
      rewrite (Hsmall i' (sigma i) Hi' (Hrange i Hi) Hdiff).
      rewrite (Hentry i (sigma i) Hi (Hrange i Hi)).
      specialize (Hlong i Hi). fold old_cell in Hlong.
      destruct (i' =? sigma i)%nat; destruct (i =? sigma i)%nat; lra. }
  assert (forall i j, (i < 3)%nat -> (j < 3)%nat ->
            entry new_cell (sigma i) j = entry padded i j) as Hnew.
  { intros i j Hi Hj. unfold new_cell.
    rewrite (standardized_entry atoms tol (sigma i) j (Hrange i Hi)).
    fold old_cell padded. rewrite (Hargmax i Hi). reflexivity. }
  split; [|split].
  - apply is_orthogonal_iff. fold new_cell. intros r j Hr Hj Hrj.
    assert (exists i, (i < 3)%nat /\ sigma i = r) as [i [Hi <-]].
    { pose proof (Hrange 0%nat ltac:(lia)) as R0.
      pose proof (Hrange 1%nat ltac:(lia)) as R1.
      pose proof (Hrange 2%nat ltac:(lia)) as R2.
      assert (sigma 0%nat <> sigma 1%nat) as D01
        by (intro E; apply Hinj in E; lia).
      assert (sigma 0%nat <> sigma 2%nat) as D02
        by (intro E; apply Hinj in E; lia).
      assert (sigma 1%nat <> sigma 2%nat) as D12
        by (intro E; apply Hinj in E; lia).
      assert (r = sigma 0%nat \/ r = sigma 1%nat \/ r = sigma 2%nat)
        as [->|[->| ->]] by lia;
        [exists 0%nat | exists 1%nat | exists 2%nat]; split; try lia;
        reflexivity. }
    rewrite (Hnew i j Hi Hj).
    rewrite (Hsmall i j Hi Hj) by congruence.
    destruct (i =? j)%nat.
    + rewrite Qabs_pos; [apply Qle_refl | exact Htol].
    + exact Htol.
  - intros i Hi. rewrite (Hnew i (sigma i) Hi (Hrange i Hi)).
    apply Hentry; [exact Hi | apply Hrange; exact Hi].
  - intros i Hi Hmoved. rewrite (Hnew i i Hi Hi).
    rewrite (Hsmall i i Hi Hi) by congruence.
    rewrite Nat.eqb_refl. reflexivity.
Qed.

Lemma standardize_cell_orthorhombic_witness :
  is_orthogonal
    (standardize_cell
       (mkAtoms [[0; 3; 0]; [-2; 0; 0]; [0; 0; 5]]%Q [[1; 1; 1]]%Q)
       default_tol) default_tol = true
  /\ (entry (atoms_cell
               (standardize_cell
                  (mkAtoms [[0; 3; 0]; [-2; 0; 0]; [0; 0; 5]]%Q [[1; 1; 1]]%Q)
                  default_tol)) 0 1 == default_tol)%Q.
Proof.
  destruct (standardize_cell_orthorhombic
              (mkAtoms [[0; 3; 0]; [-2; 0; 0]; [0; 0; 5]]%Q [[1; 1; 1]]%Q)
              default_tol
              (fun i => match i with 0 => 1 | 1 => 0 | _ => 2 end)%nat)
    as [Horthogonal [_ Hmoved]].
  - split; [reflexivity|]. repeat constructor.
  - discriminate.
  - intros i Hi. destruct (below_three i Hi) as [->|[->| ->]]; lia.
  - intros i i' Hi Hi' E.
    destruct (below_three i Hi) as [->|[->| ->]];
      destruct (below_three i' Hi') as [->|[->| ->]];
      try reflexivity; discriminate E.
  - intros i j Hi Hj Hne.
    destruct (below_three i Hi) as [->|[->| ->]];
      destruct (below_three j Hj) as [->|[->| ->]];
      try reflexivity; exfalso; apply Hne; reflexivity.
  - intros i Hi.
    destruct (below_three i Hi) as [->|[->| ->]]; reflexivity.
  - split; [exact Horthogonal|].
    apply (Hmoved 1%nat); [lia | discriminate].
Defined.

Lemma column_rows (r0 r1 r2 : list Q) (j : nat) :
  column [r0; r1; r2] j = [nth j r0 0; nth j r1 0; nth j r2 0]%Q.
Proof. reflexivity. Qed.

(** X24 (src/abtem/transform.py, standardize_cell).  The tie rule of
    [argmax]: when the first row of |old cell| + tol * identity is not
    exceeded in any column by another row, all three lattice vectors of the
    new cell are that first row, so the new cell is not a permutation of
    the old lattice vectors. *)
Theorem standardize_cell_dominant_row (atoms : Atoms) (tol : Q) :
  is_3x3 (atoms_cell atoms) ->
  (forall i j, (i < 3)%nat -> (j < 3)%nat ->
     (Qabs (entry (atoms_cell atoms) i j) + (if (i =? j)%nat then tol else 0)
      <= Qabs (entry (atoms_cell atoms) 0 j)
         + (if (0 =? j)%nat then tol else 0))%Q) ->
  forall i j, (i < 3)%nat -> (j < 3)%nat ->
    (entry (atoms_cell (standardize_cell atoms tol)) i j
     == Qabs (entry (atoms_cell atoms) 0 j)
        + (if (0 =? j)%nat then tol else 0))%Q.
Proof.
  intros Hshape Hdominant i j Hi Hj.
  set (old_cell := atoms_cell atoms) in *.
  pose proof (padded_shape old_cell tol Hshape) as Hpadded.
  rewrite (standardized_entry atoms tol i j Hi). fold old_cell.
  set (padded := matrix_add (np_abs old_cell) (matrix_scale identity3 tol))
    in *.
  assert (argmax (column padded i) = 0%nat) as ->.
  { assert (forall r, (r < 3)%nat ->
                      (entry padded r i <= entry padded 0 i)%Q) as Hle.
    { intros r Hr. unfold padded.
      rewrite (padded_entry old_cell tol r i Hshape Hr Hi).
      rewrite (padded_entry old_cell tol 0 i Hshape ltac:(lia) Hi).
      apply Hdominant; assumption. }
    destruct (is_3x3_inv padded Hpadded)
      as [a [b [c [d [e [f [g [h [k E]]]]]]]]].
    rewrite E in Hle |- *. rewrite column_rows. cbn [argmax].
    apply argmax_from_first.
    constructor; [apply (Hle 1%nat); lia|].
    constructor; [apply (Hle 2%nat); lia | constructor]. }
  apply padded_entry; [exact Hshape | lia | exact Hj].
Qed.

Lemma standardize_cell_dominant_row_witness :
  (entry (atoms_cell
            (standardize_cell
               (mkAtoms [[5; 5; 5]; [1; 1; 1]; [1; 1; 1]]%Q [[0; 0; 0]]%Q)
               default_tol)) 2 1
   == Qabs (entry [[5; 5; 5]; [1; 1; 1]; [1; 1; 1]]%Q 0 1) + 0)%Q.
Proof.
  apply (standardize_cell_dominant_row
           (mkAtoms [[5; 5; 5]; [1; 1; 1]; [1; 1; 1]]%Q [[0; 0; 0]]%Q)
           default_tol).
  - split; [reflexivity|]. repeat constructor.
  - intros i j Hi Hj.
    destruct (below_three i Hi) as [->|[->| ->]];
      destruct (below_three j Hj) as [->|[->| ->]];
      vm_compute; discriminate.
  - lia.
  - lia.
Defined.

(** X25 (src/abtem/transform.py, standardize_cell).  A diagonal cell
    diag(a, b, c) with [tol] not negative and |b| + tol, |c| + tol positive
    becomes diag(|a| + tol, |b| + tol, |c| + tol): a negative lattice vector
    is reversed and every length grows by [tol].  Every atom is moved by
    the same vector, half of the change of each diagonal entry. *)
Theorem standardize_cell_diagonal (a b c tol : Q) (positions : matrix) :
  (0 <= tol)%Q -> (0 < Qabs b + tol)%Q -> (0 < Qabs c + tol)%Q ->
  let atoms := mkAtoms [[a; 0; 0]; [0; b; 0]; [0; 0; c]]%Q positions in
  let new_atoms := standardize_cell atoms tol in
  (exists a' b' c' z01 z02 z10 z12 z20 z21,
     atoms_cell new_atoms = [[a'; z01; z02]; [z10; b'; z12]; [z20; z21; c']]
     /\ (a' == Qabs a + tol)%Q /\ (b' == Qabs b + tol)%Q
     /\ (c' == Qabs c + tol)%Q
     /\ (z01 == 0)%Q /\ (z02 == 0)%Q /\ (z10 == 0)%Q
     /\ (z12 == 0)%Q /\ (z20 == 0)%Q /\ (z21 == 0)%Q)
  /\ exists s0 s1 s2,
      (s0 == (Qabs a + tol - a) / 2)%Q
      /\ (s1 == (Qabs b + tol - b) / 2)%Q
      /\ (s2 == (Qabs c + tol - c) / 2)%Q
      /\ atoms_positions new_atoms
         = map (fun p => vector_add p [s0; s1; s2]) positions.
Proof.
  intros Htol Hb Hc atoms new_atoms.
  unfold new_atoms, standardize_cell, atoms. cbn [atoms_cell atoms_positions].
  set (padded := matrix_add _ _).
  assert (argmax_axis0 padded = [0; 1; 2]%nat) as ->.
  { unfold argmax_axis0, padded. cbn.
    change (Qabs 0) with 0%Q.
    pose proof (Qabs_nonneg a) as Ha.
    repeat match goal with
           | |- context [Qlt_le_dec ?x ?y] =>
               destruct (Qlt_le_dec x y); try lra
           end.
    reflexivity. }
  split.
  - unfold padded. cbn.
    do 9 eexists. split; [reflexivity|].
    change (Qabs 0) with 0%Q.
    repeat split; ring.
  - unfold padded. cbn.
    do 3 eexists.
    split; [|split; [|split; [|reflexivity]]];
      change (Qabs 0) with 0%Q; unfold np_sum; cbn; field.
Qed.

Lemma standardize_cell_diagonal_witness :
  exists s0 s1 s2,
    (s0 == (Qabs (-2) + default_tol - (-2)) / 2)%Q
    /\ (s1 == (Qabs 3 + default_tol - 3) / 2)%Q
    /\ (s2 == (Qabs 5 + default_tol - 5) / 2)%Q
    /\ atoms_positions
         (standardize_cell
            (mkAtoms [[-2; 0; 0]; [0; 3; 0]; [0; 0; 5]]%Q [[1; 1; 1]]%Q)
            default_tol)
       = map (fun p => vector_add p [s0; s1; s2]) [[1; 1; 1]]%Q.
Proof.
  destruct (standardize_cell_diagonal (-2) 3 5 default_tol [[1; 1; 1]]%Q)
    as [_ Hshift].
  - discriminate.
  - reflexivity.
  - reflexivity.
  - exact Hshift.
Defined.

(** * Rounded arithmetic *)

Lemma bind_ok {A B : Type} (r : result A) (k : A -> result B) (b : B) :
  bind r k = Ok b -> exists a, r = Ok a /\ k a = Ok b.
Proof.
  destruct r as [a|e]; simpl; intro H; [|discriminate].
  exists a. split; [reflexivity | exact H].
Qed.

Lemma stored_ok (x : option Q) (y : Q) : stored x = Ok y -> x = Some y.
Proof.
  destruct x as [z|]; simpl; intro H; [|discriminate].
  injection H as ->. reflexivity.
Qed.

Lemma finite_ok (x : option Q) (y : Q) : finite x = Ok y -> x = Some y.
Proof.
  destruct x as [z|]; simpl; intro H; [|discriminate].
  injection H as ->. reflexivity.
Qed.

Lemma Qeq_bool_false (x y : Q) : ~ (x == y)%Q -> Qeq_bool x y = false.
Proof.
  intro H. destruct (Qeq_bool x y) eqn:E; [|reflexivity].
  apply Qeq_bool_eq in E. contradiction.
Qed.

(** Without rounding, and with a cutoff that is a Python float,
    [_get_bins_fl] is [_get_bins]. *)
Lemma get_bins_exact (self : PolarDetector) (cutoff : option Q) :
  _get_bins_fl exact self (option_map (fun c => (PyFloat, c)) cutoff)
  = _get_bins self cutoff.
Proof.
  unfold _get_bins_fl, _get_bins, py_div, exact.
  destruct (_outer self) as [o|]; destruct cutoff as [c|];
    cbn [option_map bind finite];
    destruct (Qeq_bool (_radial_steps self) 0);
    destruct (Qeq_bool (_azimuthal_steps self) 0);
    reflexivity.
Qed.




(** ** The rounding of the binary formats keeps the sign *)

Lemma pow2_pos (e : Z) : (0 < pow2 e)%Q.
Proof.
  destruct e as [|p|p]; [reflexivity | | reflexivity].
  unfold pow2. change 0%Q with (inject_Z 0). rewrite <- Zlt_Qlt.
  apply Z.pow_pos_nonneg; lia.
Qed.

Lemma round_half_even_nonneg (q : Q) : (0 <= q)%Q -> 0 <= round_half_even q.
Proof.
  intro H. unfold round_half_even.
  assert (0 <= Qfloor q) as Hf.
  { change 0 with (Qfloor (inject_Z 0)). apply Qfloor_resp_le. exact H. }
  destruct (Qcompare (q - inject_Z (Qfloor q)) (1 # 2)); [|lia|lia].
  destruct (Z.even (Qfloor q)); lia.
Qed.

Lemma binary_round_nonneg (prec emin emax : Z) (x y : Q) :
  (0 <= x)%Q -> binary_round prec emin emax x = Some y -> (0 <= y)%Q.
Proof.
  intros Hx. unfold binary_round.
  destruct (Qeq_bool x 0).
  - intro H. injection H as <-. apply Qle_refl.
  - match goal with
    | |- context [Qle_bool ?r ?bound] => destruct (Qle_bool r bound)
    end; [|discriminate].
    assert (Qle_bool 0 x = true) as -> by (apply Qle_bool_iff; exact Hx).
    intro H.
    assert (E := f_equal (fun o => match o with Some v => v | None => y end) H).
    cbv beta iota in E. rewrite <- E, Qred_correct.
    apply Qmult_le_0_compat.
    + change 0%Q with (inject_Z 0). rewrite <- Zle_Qle.
      apply round_half_even_nonneg.
      apply Qle_shift_div_l; [apply pow2_pos|].
      rewrite Qmult_0_l. apply Qabs_nonneg.
    + apply Qlt_le_weak, pow2_pos.
Qed.

(** ** The labels of [_polar_regions] *)

Lemma sequence_map_inv {A B : Type} (f : A -> result B) (l : list A) :
  forall l' : list B,
    sequence (map f l) = Ok l' ->
    length l' = length l
    /\ forall i a, nth_error l i = Some a ->
                   exists b, nth_error l' i = Some b /\ f a = Ok b.
Proof.
  induction l as [|a l IH]; intros l' H; simpl in H.
  - injection H as <-. split; [reflexivity|].
    intros [|i] a Ha; discriminate.
  - apply bind_ok in H. destruct H as [b [Hb H]].
    apply bind_ok in H. destruct H as [tail [Htail H]].
    injection H as <-.
    destruct (IH tail Htail) as [Hlen Hnth].
    split; [simpl; now rewrite Hlen|].
    intros [|i] x Hx; simpl in Hx.
    + injection Hx as <-. exists b. split; [reflexivity | exact Hb].
    + apply Hnth. exact Hx.
Qed.

Lemma np_mod_positive (fla : rounding) (theta tp angle : Q) :
  (0 < tp)%Q ->
  np_mod fla theta tp = Ok angle ->
  let rem := (theta - tp * inject_Z (Z.quot (Qnum (theta / tp))
                                            (Zpos (Qden (theta / tp)))))%Q in
  ((rem == 0)%Q -> angle = 0%Q)
  /\ ((0 < rem)%Q -> angle = rem)
  /\ ((rem < 0)%Q -> fla (rem + tp)%Q = Some angle).
Proof.
  intros Htp H rem. unfold np_mod, trunc in H.
  rewrite Qeq_bool_false in H by (intro E; lra).
  fold rem in H.
  assert (Qle_bool 0 tp = true) as Hb by (apply Qle_bool_iff; lra).
  rewrite Hb in H. cbn [negb xorb] in H.
  destruct (Qeq_bool rem 0) eqn:E0.
  - apply Qeq_bool_eq in E0. injection H as <-.
    split; [reflexivity|]. split; intro; lra.
  - assert (~ (rem == 0)%Q) as Hne
      by (intro E; apply Qeq_eq_bool in E; congruence).
    destruct (Qle_bool 0 rem) eqn:E1; cbn [negb] in H.
    + apply Qle_bool_iff in E1. injection H as <-.
      split; [intro; contradiction|]. split; [reflexivity | intro; lra].
    + assert (rem < 0)%Q as Hneg.
      { apply Qnot_le_lt. intro Hle. apply Qle_bool_iff in Hle. congruence. }
      apply stored_ok in H.
      split; [intro; contradiction|]. split; [intro; lra | intro; exact H].
Qed.

(** C2 (amended). When [_polar_regions] runs to its end, it returns one
    label per cell; cell (i, j), at flat index i * gpts[1] + j, gets -1 when
    its alpha lies outside [inner, outer] (or is inf) and otherwise
    azimuthal_bin + radial_bin * nbins_azimuthal.  The radial bin is the
    float nbins_radial * (alpha - inner) / (outer - inner), every operation
    rounded, truncated to an integer and not clipped; the truncation is the
    floor for a bin count that is not negative and inner below outer.  A
    cell with alpha = outer gets radial bin nbins_radial when no operation
    rounds.  The azimuthal bin is the floor of the float
    nbins_azimuthal * ((arctan2(kx, ky) mod 2 pi) / (2 pi)), clipped to
    [0, nbins_azimuthal - 1]; the mod is the remainder of the division
    truncated toward zero, with 2 pi added when it is negative. *)
Theorem polar_regions_label_formula
        (fl fla : rounding) (sqrt : Q -> Q) (arctan2 : Q -> Q -> Q)
        (shape : nat * nat) (sampling : Q * Q) (inner outer : Q)
        (nbins_radial nbins_azimuthal : Z) (kx ky : list Q)
        (labels : list Z) :
  (forall x y, (0 <= x)%Q -> fla x = Some y -> (0 <= y)%Q) ->
  frequency_axes_fl fl fla shape sampling = Ok (kx, ky) ->
  _polar_regions_fl fl fla sqrt arctan2 shape sampling inner outer
                    nbins_radial nbins_azimuthal = Ok labels ->
  length labels = (length kx * length ky)%nat
  /\ exists ci co width d n na tp,
      fla inner = Some ci /\ fla outer = Some co
      /\ fl (outer - inner)%Q = Some width /\ fla width = Some d
      /\ fla (inject_Z nbins_radial) = Some n
      /\ fla (inject_Z nbins_azimuthal) = Some na
      /\ fla two_pi = Some tp
      /\ forall (i j : nat) (x y : Q),
          nth_error kx i = Some x -> nth_error ky j = Some y ->
          let label := label_at labels (i * length ky + j) in
          let theta := arctan2 x y in
          let rem :=
            (theta - tp * inject_Z (Z.quot (Qnum (theta / tp))
                                           (Zpos (Qden (theta / tp)))))%Q in
          exists angle f v,
            (0 < tp)%Q
            /\ ((rem == 0)%Q -> angle = 0%Q)
            /\ ((0 < rem)%Q -> angle = rem)
            /\ ((rem < 0)%Q -> fla (rem + tp)%Q = Some angle)
            /\ fla (angle / tp)%Q = Some f
            /\ fla (na * f)%Q = Some v
            /\ let azimuthal :=
                 Z.min (nbins_azimuthal - 1) (Z.max (Qfloor v) 0) in
               (1 <= nbins_azimuthal -> 0 <= azimuthal <= nbins_azimuthal - 1)
               /\ (fla (x * x)%Q = None \/ fla (y * y)%Q = None
                   \/ (exists x2 y2, fla (x * x)%Q = Some x2
                                     /\ fla (y * y)%Q = Some y2
                                     /\ fla (x2 + y2)%Q = None) ->
                   label = -1)
               /\ forall x2 y2 s,
                   fla (x * x)%Q = Some x2 -> fla (y * y)%Q = Some y2 ->
                   fla (x2 + y2)%Q = Some s ->
                   let alpha := sqrt s in
                   (~ ((ci <= alpha)%Q /\ (alpha <= co)%Q) -> label = -1)
                   /\ ((ci <= alpha)%Q -> (alpha <= co)%Q ->
                       exists t p q,
                         fla (alpha - ci)%Q = Some t
                         /\ fla (n * t)%Q = Some p
                         /\ ~ (d == 0)%Q
                         /\ fla (p / d)%Q = Some q
                         /\ let radial := Z.quot (Qnum q) (Zpos (Qden q)) in
                            label = azimuthal + radial * nbins_azimuthal
                            /\ (0 <= nbins_radial -> (0 < d)%Q ->
                                (0 <= q)%Q /\ radial = Qfloor q)
                            /\ ((t == alpha - ci)%Q -> (p == n * t)%Q ->
                                (q == p / d)%Q -> (d == alpha - ci)%Q ->
                                (n == inject_Z nbins_radial)%Q ->
                                radial = nbins_radial)).
Proof.
  intros Hsign Haxes Hrun.
  unfold _polar_regions_fl in Hrun. rewrite Haxes in Hrun.
  cbn [bind fst snd] in Hrun. unfold label_cells_fl in Hrun.
  apply bind_ok in Hrun. destruct Hrun as [ci [Hci Hrun]].
  apply bind_ok in Hrun. destruct Hrun as [co [Hco Hrun]].
  apply bind_ok in Hrun. destruct Hrun as [width [Hwidth Hrun]].
  apply bind_ok in Hrun. destruct Hrun as [d [Hd Hrun]].
  apply bind_ok in Hrun. destruct Hrun as [n [Hn Hrun]].
  apply bind_ok in Hrun. destruct Hrun as [na [Hna Hrun]].
  apply bind_ok in Hrun. destruct Hrun as [tp [Htp Hrun]].
  apply stored_ok in Hci, Hco, Hwidth, Hd, Hn, Hna, Htp.
  apply sequence_map_inv in Hrun. destruct Hrun as [Hlen Hcells].
  split; [rewrite Hlen; unfold cells; apply length_prod|].
  exists ci, co, width, d, n, na, tp.
  repeat (split; [assumption|]).
  intros i j x y Hx Hy label theta rem.
  destruct (Hcells _ _ (nth_error_list_prod kx ky i j x y Hx Hy))
    as [b [Hb Hcell]].
  assert (label = b) as Hlabel
    by (unfold label, label_at; apply nth_error_nth; exact Hb).
  clearbody label. subst b. clear Hb.
  unfold cell_label_fl in Hcell.
  apply bind_ok in Hcell. destruct Hcell as [az [Haz Hcell]].
  unfold angular_bin_fl in Haz. cbn [fst snd] in Haz.
  apply bind_ok in Haz. destruct Haz as [angle [Hangle Haz]].
  apply bind_ok in Haz. destruct Haz as [f [Hf Haz]].
  apply bind_ok in Haz. destruct Haz as [v [Hv Haz]].
  apply stored_ok in Hf, Hv. injection Haz as <-.
  assert (0 < tp)%Q as Htp_pos.
  { assert (0 <= tp)%Q as H0
      by (apply (Hsign two_pi); [vm_compute; discriminate | exact Htp]).
    assert (~ (tp == 0)%Q) as Hne.
    { intro E. unfold np_mod in Hangle.
      apply Qeq_eq_bool in E. rewrite E in Hangle. discriminate. }
    lra. }
  destruct (np_mod_positive fla theta tp angle Htp_pos Hangle)
    as [Hzero [Hpos Hneg]].
  exists angle, f, v.
  split; [exact Htp_pos|]. split; [exact Hzero|]. split; [exact Hpos|].
  split; [exact Hneg|]. split; [exact Hf|]. split; [exact Hv|].
  unfold clip in Hcell.
  set (azimuthal := Z.min (nbins_azimuthal - 1) (Z.max (Qfloor v) 0)) in *.
  split; [unfold azimuthal; lia|].
  unfold alpha_fl in Hcell. cbn [fst snd] in Hcell.
  split.
  - intros [H|[H|[x2 [y2 [H1 [H2 H3]]]]]].
    + rewrite H in Hcell. injection Hcell as <-. reflexivity.
    + rewrite H in Hcell. destruct (fla (x * x)%Q);
        injection Hcell as <-; reflexivity.
    + rewrite H1, H2, H3 in Hcell. injection Hcell as <-. reflexivity.
  - intros x2 y2 s H1 H2 H3 alpha.
    rewrite H1, H2, H3 in Hcell. fold alpha in Hcell.
    split.
    + intro Hout.
      destruct (Qle_bool ci alpha && Qle_bool alpha co) eqn:Hv';
        [|injection Hcell as <-; reflexivity].
      exfalso. apply Hout.
      apply andb_true_iff in Hv'. destruct Hv' as [Ha Hb'].
      split; apply Qle_bool_iff; assumption.
    + intros Hlow Hhigh.
      assert (Qle_bool ci alpha && Qle_bool alpha co = true) as Hv'
        by (apply andb_true_iff; split; apply Qle_bool_iff; assumption).
      rewrite Hv' in Hcell.
      apply bind_ok in Hcell. destruct Hcell as [radial [Hradial Hcell]].
      injection Hcell as <-.
      unfold radial_bin_fl in Hradial.
      apply bind_ok in Hradial. destruct Hradial as [t [Ht Hradial]].
      apply bind_ok in Hradial. destruct Hradial as [p [Hp Hradial]].
      apply bind_ok in Hradial. destruct Hradial as [q [Hq Hradial]].
      apply stored_ok in Ht, Hp. injection Hradial as <-.
      destruct (Qeq_bool d 0) eqn:Ed; [discriminate|].
      apply stored_ok in Hq.
      assert (~ (d == 0)%Q) as Hdne
        by (intro E; apply Qeq_eq_bool in E; congruence).
      exists t, p, q.
      split; [exact Ht|]. split; [exact Hp|]. split; [exact Hdne|].
      split; [exact Hq|].
      cbv zeta. fold (trunc q).
      split; [reflexivity|]. split.
      * intros Hnr Hdpos.
        assert (0 <= t)%Q as Ht0
          by (apply (Hsign (alpha - ci)%Q); [lra | exact Ht]).
        assert (0 <= n)%Q as Hn0.
        { apply (Hsign (inject_Z nbins_radial)); [|exact Hn].
          change 0%Q with (inject_Z 0). rewrite <- Zle_Qle. exact Hnr. }
        assert (0 <= p)%Q as Hp0
          by (apply (Hsign (n * t)%Q); [apply Qmult_le_0_compat|]; assumption).
        assert (0 <= q)%Q as Hq0.
        { apply (Hsign (p / d)%Q); [|exact Hq].
          apply Qle_shift_div_l; [exact Hdpos|]. rewrite Qmult_0_l. exact Hp0. }
        split; [exact Hq0|]. apply trunc_nonneg. exact Hq0.
      * intros Et Ep Eq Ed' En. apply trunc_integer.
        rewrite Eq, Ep, Et, En, <- Ed'. field. exact Hdne.
Qed.

Lemma polar_regions_label_formula_witness :
  exists labels,
    _polar_regions_fl binary64 binary64 sqrt_grid arctan2_grid
                      (3, 3)%nat (1 # 2 ^ 60, 1)%Q (1 # 2)%Q 2%Q 2 4
    = Ok labels
    /\ length labels = 9%nat
    /\ labels = [-1; 0; 2; -1; 0; 2; -1; 3; 2].
Proof.
  edestruct (polar_regions_label_formula
               binary64 binary64 sqrt_grid arctan2_grid
               (3, 3)%nat (1 # 2 ^ 60, 1)%Q (1 # 2)%Q 2%Q 2 4)
    as [Hlen _].
  - intros x y. apply binary_round_nonneg.
  - vm_compute. reflexivity.
  - vm_compute. reflexivity.
  - eexists. split; [vm_compute; reflexivity|].
    split; [exact Hlen | reflexivity].
Defined.

(** C2, as stated, fails.  On a 1 x 4 grid with one unit per pixel the
    frequencies are 0, 1, -2, -1 and the cells at flat index 1 and 3 have
    alpha = 1 = outer.  With inner = 0.8 and 11 radial bins the float
    11 * (1 - 0.8) / (1 - 0.8) is below 11 and the two cells get radial bin
    10, not 11: in doubles, and also when the frequency arrays are in
    single precision. *)
Lemma rim_cell_below_last_bin :
  frequency_axes_fl binary64 binary64 (1, 4)%nat (1, 1)%Q
  = Ok ([0%Q], [0; 1; -2; -1]%Q)
  /\ alpha_fl binary64 sqrt_grid (0, 1)%Q = Some 1%Q
  /\ alpha_fl binary32 sqrt_grid (0, 1)%Q = Some 1%Q
  /\ _polar_regions_fl binary64 binary64 sqrt_grid arctan2_grid
                       (1, 4)%nat (1, 1)%Q (double (4 # 5)) 1%Q 11 1
     = Ok [-1; 10; -1; 10]
  /\ _polar_regions_fl binary64 binary32 sqrt_grid arctan2_grid
                       (1, 4)%nat (1, 1)%Q (double (4 # 5)) 1%Q 11 1
     = Ok [-1; 10; -1; 10]
  /\ label_at [-1; 10; -1; 10] (0 * 4 + 1) <> 0 + 11 * 1.
Proof.
  split; [vm_compute; reflexivity|].
  split; [vm_compute; reflexivity|].
  split; [vm_compute; reflexivity|].
  split; [vm_compute; reflexivity|].
  split; [vm_compute; reflexivity|].
  vm_compute. discriminate.
Qed.

(** * The rim of an annular detector *)

(** C6 (fails on the code).  [AnnularDetector(0, 2)] on the 1 x 4 grid of
    1 mrad per pixel: every cell passes the mask inner <= alpha <= outer,
    so the annulus covers the whole grid, but the cell with alpha = 2 gets
    radial bin 1 and falls into a second region, which [_integrate_array]
    leaves out.  On uniform intensity [detect] returns 3/4, and 3 without
    normalization, where the whole grid sums to 4.  The labels are the
    same with every operation rounded, in double and in single precision. *)
Theorem annular_rim_cell_not_integrated :
  frequency_axes (1, 4)%nat (1 / 1000, 1 / 1000)%Q
  = Ok ([0 # 1000], [0 # 4000; 4 # 4000; -8 # 4000; -4 # 4000])%Q
  /\ forallb (valid sqrt_grid (0 / 1000) (2 / 1000))
             (cells [0 # 1000] [0 # 4000; 4 # 4000; -8 # 4000; -4 # 4000])%Q
     = true
  /\ _polar_regions sqrt_grid arctan2_grid (1, 4)%nat (1 / 1000, 1 / 1000)%Q
                    (0 / 1000)%Q (2 / 1000)%Q 1 1
     = Ok [0; 0; 1; 0]
  /\ fst (annular_detect sqrt_grid arctan2_grid (AnnularDetector 0 2)
                         rim_waves true)
     = Ok [Some (3 # 4)%Q]
  /\ fst (annular_detect sqrt_grid arctan2_grid (AnnularDetector 0 2)
                         rim_waves false)
     = Ok [Some 3%Q]
  /\ np_sum (repeat 1%Q 4) = 4%Q
  /\ _polar_regions_fl binary64 binary64 sqrt64 arctan2_grid (1, 4)%nat
                       (double (1 / 1000), double (1 / 1000))
                       (double (0 / 1000)) (double (2 / 1000)) 1 1
     = Ok [0; 0; 1; 0]
  /\ _polar_regions_fl binary64 binary32 sqrt32 arctan2_grid (1, 4)%nat
                       (double (1 / 1000), double (1 / 1000))
                       (double (0 / 1000)) (double (2 / 1000)) 1 1
     = Ok [0; 0; 1; 0].
Proof.
  split; [vm_compute; reflexivity|].
  split; [vm_compute; reflexivity|].
  split; [vm_compute; reflexivity|].
  split; [vm_compute; reflexivity|].
  split; [vm_compute; reflexivity|].
  split; [vm_compute; reflexivity|].
  split; [vm_compute; reflexivity|].
  vm_compute. reflexivity.
Qed.

(** * The outcomes of [_get_bins] *)

(** X2. [_get_bins] ends in one of these ways, in this order.  With
    neither an outer limit nor a cutoff it raises 'The outer integration
    angle is not set.'.  A radial step of zero raises a ZeroDivisionError,
    except when the outer limit is taken from a cutoff that is a
    numpy.float64: then outer becomes nan and the conversion to an integer
    raises a ValueError.  With a radial step that is not zero and floats
    that stay finite, an azimuthal step of zero raises a
    ZeroDivisionError, and otherwise bins are returned, with the outer
    limit of the detector when it has one.  No other error than these
    three and the OverflowError of a float that became inf comes out. *)
Theorem get_bins_outcome (fl : rounding) (self : PolarDetector)
        (cutoff : option (float_kind * Q)) :
  let inner := match _inner self with None => 0%Q | Some i => i end in
  (_outer self = None -> cutoff = None ->
   _get_bins_fl fl self cutoff = Err OuterNotSet)
  /\ (forall c, _outer self = None -> (_radial_steps self == 0)%Q ->
                _get_bins_fl fl self (Some (PyFloat, c)) = Err ZeroDivisionError
                /\ _get_bins_fl fl self (Some (NpFloat64, c)) = Err ValueError)
  /\ (forall o, _outer self = Some o -> (_radial_steps self == 0)%Q ->
                _get_bins_fl fl self cutoff = Err ZeroDivisionError)
  /\ (forall o w r,
         _outer self = Some o -> ~ (_radial_steps self == 0)%Q ->
         fl (o - inner)%Q = Some w ->
         fl (w / _radial_steps self)%Q = Some r ->
         ((_azimuthal_steps self == 0)%Q ->
          _get_bins_fl fl self cutoff = Err ZeroDivisionError)
         /\ (forall a, ~ (_azimuthal_steps self == 0)%Q ->
                       fl (two_pi / _azimuthal_steps self)%Q = Some a ->
                       exists nr na,
                         _get_bins_fl fl self cutoff = Ok (nr, na, inner, o)))
  /\ (forall kind c q o w r,
         _outer self = None -> cutoff = Some (kind, c) ->
         ~ (_radial_steps self == 0)%Q ->
         fl (c / _radial_steps self)%Q = Some q ->
         fl (inject_Z (Qfloor q) * _radial_steps self)%Q = Some o ->
         fl (o - inner)%Q = Some w ->
         fl (w / _radial_steps self)%Q = Some r ->
         ((_azimuthal_steps self == 0)%Q ->
          _get_bins_fl fl self cutoff = Err ZeroDivisionError)
         /\ (forall a, ~ (_azimuthal_steps self == 0)%Q ->
                       fl (two_pi / _azimuthal_steps self)%Q = Some a ->
                       exists nr na,
                         _get_bins_fl fl self cutoff = Ok (nr, na, inner, o)))
  /\ (forall e, _get_bins_fl fl self cutoff = Err e ->
                e = OuterNotSet \/ e = ZeroDivisionError \/ e = ValueError
                \/ e = OverflowError).
Proof.
  intro inner.
  split; [|split; [|split; [|split; [|split]]]].
  - intros Ho Hc. unfold _get_bins_fl. rewrite Ho, Hc. reflexivity.
  - intros c Ho Hz. unfold _get_bins_fl. rewrite Ho.
    apply Qeq_eq_bool in Hz. rewrite Hz. split; reflexivity.
  - intros o Ho Hz. unfold _get_bins_fl. rewrite Ho.
    apply Qeq_eq_bool in Hz. rewrite Hz. reflexivity.
  - intros o w r Ho Hr Hw Hrr.
    unfold _get_bins_fl. rewrite Ho, (Qeq_bool_false _ _ Hr).
    cbn [bind]. fold inner. rewrite Hw. cbn [finite bind].
    rewrite Hrr. cbn [finite bind].
    split.
    + intro Hz. apply Qeq_eq_bool in Hz. rewrite Hz. reflexivity.
    + intros a Ha Haa. rewrite (Qeq_bool_false _ _ Ha), Haa.
      cbn [finite bind]. eexists. eexists. reflexivity.
  - intros kind c q o w r Ho Hc Hr Hq Hoo Hw Hrr.
    unfold _get_bins_fl. rewrite Ho, Hc, (Qeq_bool_false _ _ Hr).
    rewrite Hq. cbn [finite bind]. rewrite Hoo. cbn [finite bind].
    fold inner. rewrite Hw. cbn [finite bind].
    rewrite Hrr. cbn [finite bind].
    split.
    + intro Hz. apply Qeq_eq_bool in Hz. rewrite Hz. reflexivity.
    + intros a Ha Haa. rewrite (Qeq_bool_false _ _ Ha), Haa.
      cbn [finite bind]. eexists. eexists. reflexivity.
  - intros e. unfold _get_bins_fl. fold inner.
    destruct (_outer self) as [o|].
    + cbn [bind].
      destruct (Qeq_bool (_radial_steps self) 0); cbn [bind];
        [intro H; injection H as <-; tauto|].
      destruct (fl (o - inner)%Q) as [w|]; cbn [finite bind];
        [|intro H; injection H as <-; tauto].
      destruct (fl (w / _radial_steps self)%Q) as [r|]; cbn [finite bind];
        [|intro H; injection H as <-; tauto].
      destruct (Qeq_bool (_azimuthal_steps self) 0); cbn [bind];
        [intro H; injection H as <-; tauto|].
      destruct (fl (two_pi / _azimuthal_steps self)%Q) as [a|];
        cbn [finite bind];
        [discriminate | intro H; injection H as <-; tauto].
    + destruct cutoff as [[kind c]|]; cbn [bind];
        [|intro H; injection H as <-; tauto].
      destruct (Qeq_bool (_radial_steps self) 0); cbn [bind].
      * destruct kind; cbn [bind]; intro H; injection H as <-; tauto.
      * destruct (fl (c / _radial_steps self)%Q) as [q|]; cbn [finite bind];
          [|intro H; injection H as <-; tauto].
        destruct (fl (inject_Z (Qfloor q) * _radial_steps self)%Q) as [o|];
          cbn [finite bind]; [|intro H; injection H as <-; tauto].
        destruct (fl (o - inner)%Q) as [w|]; cbn [finite bind];
          [|intro H; injection H as <-; tauto].
        destruct (fl (w / _radial_steps self)%Q) as [r|]; cbn [finite bind];
          [|intro H; injection H as <-; tauto].
        destruct (Qeq_bool (_azimuthal_steps self) 0); cbn [bind];
          [intro H; injection H as <-; tauto|].
        destruct (fl (two_pi / _azimuthal_steps self)%Q) as [a|];
          cbn [finite bind];
          [discriminate | intro H; injection H as <-; tauto].
Qed.

Lemma get_bins_outcome_witness :
  _get_bins_fl binary64 (FlexibleAnnularDetector 0)
               (Some (NpFloat64, double (35 # 100))) = Err ValueError
  /\ _get_bins_fl binary64 (FlexibleAnnularDetector 0)
                  (Some (PyFloat, double (35 # 100))) = Err ZeroDivisionError
  /\ _get_bins_fl binary64 (AnnularDetector 3 3) None = Err ZeroDivisionError
  /\ exists nr na,
      _get_bins_fl binary64 (AnnularDetector 1 3) None
      = Ok (nr, na, 1%Q, 3%Q).
Proof.
  destruct (get_bins_outcome binary64 (FlexibleAnnularDetector 0) None)
    as [_ [Hzero _]].
  destruct (Hzero (double (35 # 100)) eq_refl ltac:(reflexivity)) as [Hpy Hnp].
  split; [exact Hnp|]. split; [exact Hpy|].
  split.
  - destruct (get_bins_outcome binary64 (AnnularDetector 3 3) None)
      as [_ [_ [Hset _]]].
    apply (Hset 3%Q); reflexivity.
  - destruct (get_bins_outcome binary64 (AnnularDetector 1 3) None)
      as [_ [_ [_ [Hreturns _]]]].
    edestruct (Hreturns 3%Q) as [_ Hok].
    + reflexivity.
    + vm_compute. discriminate.
    + vm_compute. reflexivity.
    + vm_compute. reflexivity.
    + edestruct Hok as [nr [na Hrun]].
      * vm_compute. discriminate.
      * vm_compute. reflexivity.
      * exists nr, na. exact Hrun.
Defined.

(** * Allocated measurements, with rounding *)

(** The measurement allocated for given bins. *)
Lemma polar_allocate_measurement_fl_bins (fl : rounding) (kind : float_kind)
      (self : PolarDetector) (waves : Waves) (scan : option Scan)
      (nr na : Z) (inner outer : Q) :
  _get_bins_fl fl self (Some (kind, min_pair (cutoff_scattering_angles waves)))
  = Ok (nr, na, inner, outer) ->
  polar_allocate_measurement_fl fl kind self waves scan
  = Ok (mkMeasurement
          (scan_shape_of scan
           ++ (if 1 <? nr then [nr] else [])
           ++ (if 1 <? na then [na] else []))
          (scan_calibrations_of scan
           ++ (if 1 <? nr
               then [mkCalibration inner (_radial_steps self) "mrad"] else [])
           ++ (if 1 <? na
               then [mkCalibration 0 (_azimuthal_steps self) "rad"] else []))).
Proof.
  intro Hbins. unfold polar_allocate_measurement_fl. rewrite Hbins. cbn [bind].
  destruct (1 <? nr); destruct (1 <? na); cbv beta iota zeta;
    rewrite ?app_nil_r, <- ?app_assoc; reflexivity.
Qed.



(** X11. A flexible annular detector has one azimuthal bin and inner 0.
    When [_get_bins] counts at least two radial bins, the allocated
    measurement has the scan's shape followed by that count, the samplings
    of the scan as spatial sampling, the step as angular sampling and
    offset 0.  With at most one radial bin there is no radial axis:
    without scan calibrations the allocation raises an IndexError, and
    with them the last scan calibration is taken for the radial axis. *)
Theorem flexible_measurement (fl : rounding) (kind : float_kind)
        (step_size : Q) (waves : Waves) (scan : option Scan)
        (nr na : Z) (inner outer : Q) :
  fl (two_pi / two_pi)%Q = Some 1%Q ->
  _get_bins_fl fl (FlexibleAnnularDetector step_size)
               (Some (kind, min_pair (cutoff_scattering_angles waves)))
  = Ok (nr, na, inner, outer) ->
  let allocated :=
    flexible_allocate_measurement_fl fl kind
                                     (FlexibleAnnularDetector step_size)
                                     waves scan in
  na = 1 /\ inner = 0%Q
  /\ (2 <= nr ->
      allocated
      = Ok (mkFlexibleAnnularMeasurement
              (scan_shape_of scan ++ [nr])
              (map sampling (scan_calibrations_of scan))
              step_size 0))
  /\ (nr <= 1 ->
      (scan_calibrations_of scan = [] -> allocated = Err IndexError)
      /\ (forall before last,
             scan_calibrations_of scan = before ++ [last] ->
             allocated
             = Ok (mkFlexibleAnnularMeasurement
                     (scan_shape_of scan) (map sampling before)
                     (sampling last) (offset last)))).
Proof.
  intros Hone Hbins allocated.
  assert (na = 1 /\ inner = 0%Q) as [-> ->].
  { unfold _get_bins_fl, FlexibleAnnularDetector in Hbins.
    cbn [_inner _outer _radial_steps _azimuthal_steps] in Hbins.
    destruct (Qeq_bool step_size 0); [destruct kind; discriminate|].
    apply bind_ok in Hbins. destruct Hbins as [o [_ Hbins]].
    apply bind_ok in Hbins. destruct Hbins as [r [_ Hbins]].
    assert (Qeq_bool two_pi 0 = false) as E by reflexivity.
    rewrite E, Hone in Hbins. cbn [finite bind] in Hbins.
    injection Hbins as _ <- <- _. split; reflexivity. }
  split; [reflexivity|]. split; [reflexivity|].
  unfold allocated, flexible_allocate_measurement_fl.
  rewrite (polar_allocate_measurement_fl_bins
             fl kind _ waves scan nr 1 0 outer Hbins).
  cbn [bind measurement_calibrations measurement_shape].
  change (1 <? 1) with false. rewrite !app_nil_r.
  split.
  - intro Hnr. destruct (Z.ltb_spec 1 nr) as [_|]; [|lia].
    rewrite rev_app_distr. cbn [rev app].
    rewrite rev_involutive. reflexivity.
  - intro Hnr. destruct (Z.ltb_spec 1 nr) as [|_]; [lia|].
    rewrite !app_nil_r.
    split.
    + intros ->. reflexivity.
    + intros before last ->. rewrite rev_app_distr. cbn [rev app].
      rewrite rev_involutive. reflexivity.
Qed.

Lemma flexible_measurement_witness :
  flexible_allocate_measurement_fl
    binary64 NpFloat64 (FlexibleAnnularDetector (double (1 # 10)))
    (mkWaves (4, 4)%nat (1, 1)%Q (double (35 # 100), double (35 # 100))
             (1 # 40)%Q true [repeat 1%Q 16])
    (Some (mkScan [5; 7] [mkCalibration 0 (1 # 2) "x";
                          mkCalibration 0 (1 # 4) "y"]))
  = Ok (mkFlexibleAnnularMeasurement [5; 7; 4] [(1 # 2)%Q; (1 # 4)%Q]
                                     (double (1 # 10)) 0).
Proof.
  edestruct (flexible_measurement
               binary64 NpFloat64 (double (1 # 10))
               (mkWaves (4, 4)%nat (1, 1)%Q
                        (double (35 # 100), double (35 # 100))
                        (1 # 40)%Q true [repeat 1%Q 16])
               (Some (mkScan [5; 7] [mkCalibration 0 (1 # 2) "x";
                                     mkCalibration 0 (1 # 4) "y"])))
    as [_ [_ [Hmany _]]].
  - vm_compute. reflexivity.
  - vm_compute. reflexivity.
  - apply Hmany. lia.
Defined.

(** * Bin counts read back from rounded steps *)

Lemma rounds_to_bounds (fl : rounding) (u x y : Q) :
  (0 <= x)%Q -> rounds_to fl u x y ->
  (x * (1 - u) <= y)%Q /\ (y <= x * (1 + u))%Q.
Proof.
  intros Hx [_ Hacc].
  rewrite (Qabs_pos x Hx) in Hacc.
  apply Qabs_Qle_condition in Hacc. destruct Hacc as [H1 H2].
  split; lra.
Qed.

Lemma round_trip_core (a n u s b x : Q) :
  (0 < a)%Q -> (1 <= n)%Q -> (0 <= u)%Q -> ((2 * n + 1) * u < 1)%Q ->
  (a * (1 - u) <= s)%Q -> (s <= a * (1 + u))%Q ->
  (b * s == a * n)%Q -> (0 < b)%Q ->
  (b * (1 - u) <= x)%Q -> (x <= b * (1 + u))%Q ->
  (n - 1 < x)%Q /\ (x < n + 1)%Q.
Proof.
  intros Ha Hn Hu Hsmall Hs1 Hs2 Hb Hbpos Hx1 Hx2.
  assert (u < 1)%Q as Hu1 by nra.
  assert (n <= b * (1 + u))%Q as H1.
  { assert (a * n <= a * (b * (1 + u)))%Q as H by nra.
    apply Qmult_le_l in H; assumption. }
  assert (b * (1 - u) <= n)%Q as H2.
  { assert (a * (b * (1 - u)) <= a * n)%Q as H by nra.
    apply Qmult_le_l in H; assumption. }
  split.
  - assert ((n - 1) * (1 + u) < x * (1 + u))%Q as H by nra.
    apply Qmult_lt_r in H; [exact H | lra].
  - assert (x * (1 - u) < (n + 1) * (1 - u))%Q as H by nra.
    apply Qmult_lt_r in H; [exact H | lra].
Qed.

(** A count [n] stored as the step width / n and read back as
    width / step, both divisions rounded: the quotient lies strictly
    between n - 1 and n + 1, and the step is positive. *)
Lemma round_trip_quotient (fl : rounding) (u width step x : Q) (n : Z) :
  (0 < width)%Q -> 1 <= n -> (0 <= u)%Q ->
  ((2 * inject_Z n + 1) * u < 1)%Q ->
  rounds_to fl u (width / inject_Z n) step ->
  rounds_to fl u (width / step) x ->
  (0 < step)%Q /\ (inject_Z n - 1 < x)%Q /\ (x < inject_Z n + 1)%Q.
Proof.
  intros Hw Hn Hu Hsmall Hstep Hx.
  assert (1 <= inject_Z n)%Q as Hn'
    by (change 1%Q with (inject_Z 1); rewrite <- Zle_Qle; exact Hn).
  assert (u < 1)%Q as Hu1 by nra.
  assert (0 < width / inject_Z n)%Q as Ha
    by (apply Qlt_shift_div_l; lra).
  destruct (rounds_to_bounds fl u _ _ (Qlt_le_weak _ _ Ha) Hstep) as [Hs1 Hs2].
  assert (0 < step)%Q as Hspos by nra.
  assert (0 < width / step)%Q as Hb by (apply Qlt_shift_div_l; lra).
  destruct (rounds_to_bounds fl u _ _ (Qlt_le_weak _ _ Hb) Hx) as [Hx1 Hx2].
  split; [exact Hspos|].
  apply (round_trip_core (width / inject_Z n) (inject_Z n) u step
                         (width / step) x); try assumption.
  field. split; lra.
Qed.

Lemma trunc_between (x : Q) (n : Z) :
  1 <= n -> (inject_Z n - 1 < x)%Q -> (x < inject_Z n + 1)%Q ->
  (trunc x = n - 1 /\ ceil x = n /\ (x < inject_Z n)%Q)
  \/ (trunc x = n /\ ceil x = n /\ (x == inject_Z n)%Q)
  \/ (trunc x = n /\ ceil x = n + 1 /\ (inject_Z n < x)%Q).
Proof.
  intros Hn Hlo Hhi.
  assert (0 <= x)%Q as Hx0.
  { assert (0 <= inject_Z n - 1)%Q; [|lra].
    assert (inject_Z 1 <= inject_Z n)%Q as H by (rewrite <- Zle_Qle; exact Hn).
    change (inject_Z 1) with 1%Q in H. lra. }
  destruct (trunc_nonneg x Hx0) as [-> _]. unfold ceil.
  assert (forall z : Z, (inject_Z z <= x)%Q -> z <= Qfloor x) as Hfloor.
  { intros z Hz. rewrite <- (Qfloor_Z z). apply Qfloor_resp_le. exact Hz. }
  assert (forall z : Z, (x < inject_Z z)%Q -> Qfloor x < z) as Hfloor'.
  { intros z Hz. apply Z.lt_nge. intro Hge.
    assert (inject_Z z <= inject_Z (Qfloor x))%Q as H
      by (rewrite <- Zle_Qle; exact Hge).
    pose proof (Qfloor_le x). lra. }
  assert (forall z : Z, (x <= inject_Z z)%Q -> Qceiling x <= z) as Hceil.
  { intros z Hz. rewrite <- (Qceiling_Z z). apply Qceiling_resp_le. exact Hz. }
  assert (forall z : Z, (inject_Z z < x)%Q -> z < Qceiling x) as Hceil'.
  { intros z Hz. apply Z.lt_nge. intro Hge.
    assert (inject_Z (Qceiling x) <= inject_Z z)%Q as H
      by (rewrite <- Zle_Qle; exact Hge).
    pose proof (Qle_ceiling x). lra. }
  assert (inject_Z (n - 1) == inject_Z n - 1)%Q as Em
    by (unfold Z.sub; rewrite inject_Z_plus; reflexivity).
  assert (inject_Z (n + 1) == inject_Z n + 1)%Q as Ep
    by (rewrite inject_Z_plus; reflexivity).
  destruct (Q_dec x (inject_Z n)) as [[Hlt|Hgt]|Heq].
  - left.
    pose proof (Hfloor (n - 1) ltac:(rewrite Em; lra)).
    pose proof (Hfloor' n Hlt).
    pose proof (Hceil n ltac:(lra)).
    pose proof (Hceil' (n - 1) ltac:(rewrite Em; lra)).
    repeat split; try lia. exact Hlt.
  - right. right.
    pose proof (Hfloor n ltac:(lra)).
    pose proof (Hfloor' (n + 1) ltac:(rewrite Ep; lra)).
    pose proof (Hceil (n + 1) ltac:(rewrite Ep; lra)).
    pose proof (Hceil' n Hgt).
    repeat split; try lia. exact Hgt.
  - right. left.
    rewrite (Qfloor_comp _ _ Heq), (Qceiling_comp _ _ Heq).
    rewrite Qfloor_Z, Qceiling_Z. repeat split. exact Heq.
Qed.

Lemma py_div_int_ok (fl : rounding) (x y : Q) (n : Z) :
  n <> 0 -> fl (inject_Z n) = Some (inject_Z n) ->
  fl (x / inject_Z n)%Q = Some y ->
  py_div_int fl (Some x) n = Ok y.
Proof.
  intros Hn Hcast Hy. unfold py_div_int. rewrite Hcast. cbn [finite bind].
  rewrite (Qeq_bool_false _ _ (inject_Z_nonzero n Hn)).
  cbn [followed bind]. rewrite Hy. reflexivity.
Qed.

(** X7. A segmented detector built with inner below outer and positive
    bin counts, every operation rounded with a relative error of at most
    [u], small against the counts.  The property [nbins_radial] reads back
    the count given or one less, [_get_bins] returns the count given or
    one more, and at least one of the two is the count given; both are
    when the quotient width / step comes out as the count itself.  The
    same holds for the angular count.  [_get_bins] returns the limits of
    the detector, whatever the cutoff. *)
Theorem segmented_counts_round_trip
        (fl : rounding) (u inner outer width rs x azs y : Q) (nr na : Z) :
  (0 <= u)%Q -> 1 <= nr -> 1 <= na ->
  ((2 * inject_Z nr + 1) * u < 1)%Q ->
  ((2 * inject_Z na + 1) * u < 1)%Q ->
  fl (inject_Z nr) = Some (inject_Z nr) ->
  fl (inject_Z na) = Some (inject_Z na) ->
  fl (outer - inner)%Q = Some width -> (0 < width)%Q ->
  rounds_to fl u (width / inject_Z nr) rs ->
  rounds_to fl u (width / rs) x ->
  rounds_to fl u (two_pi / inject_Z na) azs ->
  rounds_to fl u (two_pi / azs) y ->
  exists d read_nr read_na bins_nr bins_na,
    SegmentedDetector_fl fl inner outer nr na = Ok d
    /\ _radial_steps d = rs /\ _azimuthal_steps d = azs
    /\ nbins_radial_fl fl d = Ok read_nr
    /\ nbins_angular_fl fl d = Ok read_na
    /\ (forall cutoff,
           _get_bins_fl fl d cutoff = Ok (bins_nr, bins_na, inner, outer))
    /\ ((read_nr = nr - 1 /\ bins_nr = nr /\ (x < inject_Z nr)%Q)
        \/ (read_nr = nr /\ bins_nr = nr /\ (x == inject_Z nr)%Q)
        \/ (read_nr = nr /\ bins_nr = nr + 1 /\ (inject_Z nr < x)%Q))
    /\ ((read_na = na - 1 /\ bins_na = na /\ (y < inject_Z na)%Q)
        \/ (read_na = na /\ bins_na = na /\ (y == inject_Z na)%Q)
        \/ (read_na = na /\ bins_na = na + 1 /\ (inject_Z na < y)%Q)).
Proof.
  intros Hu Hnr Hna Hsr Hsa Hcr Hca Hw Hwpos Hrs Hx Hazs Hy.
  assert (0 < two_pi)%Q as Htp by reflexivity.
  destruct (round_trip_quotient fl u width rs x nr Hwpos Hnr Hu Hsr Hrs Hx)
    as [Hrspos [Hx1 Hx2]].
  destruct (round_trip_quotient fl u two_pi azs y na Htp Hna Hu Hsa Hazs Hy)
    as [Hazspos [Hy1 Hy2]].
  exists (mkPolarDetector (Some inner) (Some outer) rs azs (Some outer) None),
         (trunc x), (trunc y), (ceil x), (ceil y).
  split.
  { unfold SegmentedDetector_fl. rewrite Hw.
    rewrite (py_div_int_ok fl width rs nr ltac:(lia) Hcr (proj1 Hrs)).
    cbn [bind].
    rewrite (py_div_int_ok fl two_pi azs na ltac:(lia) Hca (proj1 Hazs)).
    reflexivity. }
  split; [reflexivity|]. split; [reflexivity|].
  split.
  { unfold nbins_radial_fl. cbn [_outer _inner _radial_steps].
    rewrite Qeq_bool_false by (intro E; lra).
    rewrite Hw. cbn [finite bind]. rewrite (proj1 Hx). reflexivity. }
  split.
  { unfold nbins_angular_fl. cbn [_azimuthal_steps].
    rewrite Qeq_bool_false by (intro E; lra).
    rewrite (proj1 Hy). reflexivity. }
  split.
  { intro cutoff. unfold _get_bins_fl.
    cbn [_outer _inner _radial_steps _azimuthal_steps bind].
    rewrite Qeq_bool_false by (intro E; lra).
    rewrite Hw. cbn [finite bind]. rewrite (proj1 Hx). cbn [finite bind].
    rewrite Qeq_bool_false by (intro E; lra).
    rewrite (proj1 Hy). reflexivity. }
  split.
  - apply trunc_between; assumption.
  - apply trunc_between; assumption.
Qed.

Lemma segmented_counts_round_trip_witness :
  exists d,
    SegmentedDetector_fl binary64 0 1 49 25 = Ok d
    /\ nbins_radial_fl binary64 d = Ok 49
    /\ nbins_angular_fl binary64 d = Ok 24
    /\ _get_bins_fl binary64 d None = Ok (50, 25, 0%Q, 1%Q).
Proof.
  edestruct (segmented_counts_round_trip binary64 u64 0 1)
    with (nr := 49) (na := 25)
    as [d [rr [ra [gr [ga [Hd [_ [_ [Hrr [Hra [Hbins _]]]]]]]]]]].
  - vm_compute. discriminate.
  - lia.
  - lia.
  - vm_compute. reflexivity.
  - vm_compute. reflexivity.
  - vm_compute. reflexivity.
  - vm_compute. reflexivity.
  - vm_compute. reflexivity.
  - reflexivity.
  - split; [vm_compute; reflexivity | vm_compute; discriminate].
  - split; [vm_compute; reflexivity | vm_compute; discriminate].
  - split; [vm_compute; reflexivity | vm_compute; discriminate].
  - split; [vm_compute; reflexivity | vm_compute; discriminate].
  - exists d. split; [exact Hd|].
    assert (Ed : Ok d = SegmentedDetector_fl binary64 0 1 49 25)
      by (symmetry; exact Hd).
    vm_compute in Ed. injection Ed as ->.
    split; [vm_compute; reflexivity|].
    split; [vm_compute; reflexivity|].
    vm_compute. reflexivity.
Defined.

(** X8. The setters of the bin counts, every operation rounded with a
    relative error of at most [u]: writing a positive count stores the
    rounded quotient as the step, leaves the limits and the other step
    alone, and the count read back is the count written or one less, one
    less exactly when the quotient of the width by the stored step rounds
    below the count.  Writing a count of zero raises ZeroDivisionError. *)
Theorem segmented_count_setters
        (fl : rounding) (u inner outer width rs x azs y : Q) (vr va : Z)
        (self : PolarDetector) :
  _inner self = Some inner -> _outer self = Some outer ->
  (0 <= u)%Q -> 1 <= vr -> 1 <= va ->
  ((2 * inject_Z vr + 1) * u < 1)%Q ->
  ((2 * inject_Z va + 1) * u < 1)%Q ->
  fl (inject_Z vr) = Some (inject_Z vr) ->
  fl (inject_Z va) = Some (inject_Z va) ->
  fl 0%Q = Some 0%Q ->
  fl (outer - inner)%Q = Some width -> (0 < width)%Q ->
  rounds_to fl u (width / inject_Z vr) rs ->
  rounds_to fl u (width / rs) x ->
  rounds_to fl u (two_pi / inject_Z va) azs ->
  rounds_to fl u (two_pi / azs) y ->
  (exists d read,
      set_nbins_radial_fl fl vr self = Ok d
      /\ _radial_steps d = rs
      /\ _azimuthal_steps d = _azimuthal_steps self
      /\ _inner d = Some inner /\ _outer d = Some outer
      /\ nbins_radial_fl fl d = Ok read
      /\ ((read = vr - 1 /\ (x < inject_Z vr)%Q)
          \/ (read = vr /\ (inject_Z vr <= x)%Q)))
  /\ (exists d read,
         set_nbins_angular_fl fl va self = Ok d
         /\ _azimuthal_steps d = azs
         /\ _radial_steps d = _radial_steps self
         /\ _inner d = Some inner /\ _outer d = Some outer
         /\ nbins_angular_fl fl d = Ok read
         /\ ((read = va - 1 /\ (y < inject_Z va)%Q)
             \/ (read = va /\ (inject_Z va <= y)%Q)))
  /\ set_nbins_radial_fl fl 0 self = Err ZeroDivisionError
  /\ set_nbins_angular_fl fl 0 self = Err ZeroDivisionError.
Proof.
  intros Hi Ho Hu Hvr Hva Hsr Hsa Hcr Hca Hzero Hw Hwpos Hrs Hx Hazs Hy.
  assert (0 < two_pi)%Q as Htp by reflexivity.
  destruct (round_trip_quotient fl u width rs x vr Hwpos Hvr Hu Hsr Hrs Hx)
    as [Hrspos [Hx1 Hx2]].
  destruct (round_trip_quotient fl u two_pi azs y va Htp Hva Hu Hsa Hazs Hy)
    as [Hazspos [Hy1 Hy2]].
  split; [|split; [|split]].
  - exists (notify_changed
              (mkPolarDetector (_inner self) (_outer self) rs
                               (_azimuthal_steps self)
                               (_max_detected_angle self) (cache self))),
           (trunc x).
    split.
    { unfold set_nbins_radial_fl. rewrite Hi, Ho, Hw.
      rewrite (py_div_int_ok fl width rs vr ltac:(lia) Hcr (proj1 Hrs)).
      reflexivity. }
    split; [reflexivity|]. split; [reflexivity|].
    split; [exact Hi|]. split; [exact Ho|].
    split.
    { unfold nbins_radial_fl, notify_changed, set_cache.
      cbn [_outer _inner _radial_steps]. rewrite Hi, Ho.
      rewrite Qeq_bool_false by (intro E; lra).
      rewrite Hw. cbn [finite bind]. rewrite (proj1 Hx). reflexivity. }
    destruct (trunc_between x vr Hvr Hx1 Hx2)
      as [[Ht [_ Hc]]|[[Ht [_ Hc]]|[Ht [_ Hc]]]].
    + left. split; assumption.
    + right. split; [assumption | lra].
    + right. split; [assumption | lra].
  - exists (notify_changed
              (mkPolarDetector (_inner self) (_outer self)
                               (_radial_steps self) azs
                               (_max_detected_angle self) (cache self))),
           (trunc y).
    split.
    { unfold set_nbins_angular_fl.
      rewrite (py_div_int_ok fl two_pi azs va ltac:(lia) Hca (proj1 Hazs)).
      reflexivity. }
    split; [reflexivity|]. split; [reflexivity|].
    split; [exact Hi|]. split; [exact Ho|].
    split.
    { unfold nbins_angular_fl, notify_changed, set_cache.
      cbn [_azimuthal_steps].
      rewrite Qeq_bool_false by (intro E; lra).
      rewrite (proj1 Hy). reflexivity. }
    destruct (trunc_between y va Hva Hy1 Hy2)
      as [[Ht [_ Hc]]|[[Ht [_ Hc]]|[Ht [_ Hc]]]].
    + left. split; assumption.
    + right. split; [assumption | lra].
    + right. split; [assumption | lra].
  - unfold set_nbins_radial_fl, py_div_int. rewrite Hi, Ho.
    change (inject_Z 0) with 0%Q. rewrite Hzero. reflexivity.
  - unfold set_nbins_angular_fl, py_div_int.
    change (inject_Z 0) with 0%Q. rewrite Hzero. reflexivity.
Qed.

Lemma segmented_count_setters_witness :
  (exists d,
      set_nbins_radial_fl binary64 49
        (mkPolarDetector (Some 0%Q) (Some 1%Q) 1 1 (Some 1%Q) None) = Ok d
      /\ nbins_radial_fl binary64 d = Ok 49)
  /\ (exists d,
         set_nbins_angular_fl binary64 25
           (mkPolarDetector (Some 0%Q) (Some 1%Q) 1 1 (Some 1%Q) None) = Ok d
         /\ nbins_angular_fl binary64 d = Ok 24)
  /\ set_nbins_radial_fl binary64 0
       (mkPolarDetector (Some 0%Q) (Some 1%Q) 1 1 (Some 1%Q) None)
     = Err ZeroDivisionError.
Proof.
  edestruct (segmented_count_setters binary64 u64 0 1)
    with (vr := 49) (va := 25)
         (self := mkPolarDetector (Some 0%Q) (Some 1%Q) 1 1 (Some 1%Q) None)
    as [[d [rr [Hd [_ [_ [_ [_ [Hrr _]]]]]]]]
          [[d' [ra [Hd' [_ [_ [_ [_ [Hra _]]]]]]]] [Hz _]]].
  - reflexivity.
  - reflexivity.
  - vm_compute. discriminate.
  - lia.
  - lia.
  - vm_compute. reflexivity.
  - vm_compute. reflexivity.
  - vm_compute. reflexivity.
  - vm_compute. reflexivity.
  - vm_compute. reflexivity.
  - vm_compute. reflexivity.
  - reflexivity.
  - split; [vm_compute; reflexivity | vm_compute; discriminate].
  - split; [vm_compute; reflexivity | vm_compute; discriminate].
  - split; [vm_compute; reflexivity | vm_compute; discriminate].
  - split; [vm_compute; reflexivity | vm_compute; discriminate].
  - split; [|split; [|exact Hz]].
    + exists d. split; [exact Hd|].
      assert (Ed : Ok d = set_nbins_radial_fl binary64 49
                (mkPolarDetector (Some 0%Q) (Some 1%Q) 1 1 (Some 1%Q) None))
        by (symmetry; exact Hd).
      vm_compute in Ed. injection Ed as ->. vm_compute. reflexivity.
    + exists d'. split; [exact Hd'|].
      assert (Ed : Ok d' = set_nbins_angular_fl binary64 25
                (mkPolarDetector (Some 0%Q) (Some 1%Q) 1 1 (Some 1%Q) None))
        by (symmetry; exact Hd').
      vm_compute in Ed. injection Ed as ->. vm_compute. reflexivity.
Defined.

Lemma product_quotient_bounds (k u step o b r : Q) :
  (0 <= k)%Q -> (0 <= u)%Q -> ((2 * k + 1) * u < 1)%Q -> (0 < step)%Q ->
  (k * step * (1 - u) <= o)%Q -> (o <= k * step * (1 + u))%Q ->
  (b * step == o)%Q ->
  (b * (1 - u) <= r)%Q -> (r <= b * (1 + u))%Q ->
  (k == 0 -> r == 0)%Q
  /\ (1 <= k -> k - 1 < r /\ r < k + 1)%Q.
Proof.
  intros Hk Hu Hsmall Hstep Ho1 Ho2 Hb Hr1 Hr2.
  assert (u < 1)%Q as Hu1 by nra.
  assert (k * (1 - u) <= b)%Q as Hb1.
  { assert (k * (1 - u) * step <= b * step)%Q as H by (rewrite Hb; lra).
    nra. }
  assert (b <= k * (1 + u))%Q as Hb2.
  { assert (b * step <= k * (1 + u) * step)%Q as H by (rewrite Hb; lra).
    nra. }
  split.
  - intro Hz. rewrite Hz in Hb1, Hb2. nra.
  - intro Hk1.
    assert (k * (1 - u) * (1 - u) <= r)%Q as Hlow by nra.
    assert (r <= k * (1 + u) * (1 + u))%Q as Hhigh by nra.
    split; nra.
Qed.

(** X3. The bins of a flexible annular detector with a positive step,
    every operation rounded with a relative error of at most [u]: with
    k the floor of the rounded quotient cutoff / step, inner is 0, outer
    is the rounded product of k and the step, there is one azimuthal bin,
    and the number of radial bins is k or k + 1: it is k + 1 exactly when
    the rounded quotient outer / step comes out above k. *)
Theorem flexible_bins (fl : rounding) (kind : float_kind)
        (u step cutoff q outer r : Q) :
  (0 <= u)%Q -> (0 < step)%Q ->
  fl (cutoff / step)%Q = Some q ->
  0 <= Qfloor q ->
  ((2 * inject_Z (Qfloor q) + 1) * u < 1)%Q ->
  rounds_to fl u (inject_Z (Qfloor q) * step) outer ->
  fl (outer - 0)%Q = Some outer ->
  rounds_to fl u (outer / step) r ->
  fl (two_pi / two_pi)%Q = Some 1%Q ->
  exists nr,
    _get_bins_fl fl (FlexibleAnnularDetector step) (Some (kind, cutoff))
    = Ok (nr, 1, 0%Q, outer)
    /\ ((nr = Qfloor q /\ (r <= inject_Z (Qfloor q))%Q)
        \/ (nr = Qfloor q + 1 /\ (inject_Z (Qfloor q) < r)%Q)).
Proof.
  intros Hu Hstep Hq Hk Hsmall Ho Hw Hr Hone.
  assert (0 <= inject_Z (Qfloor q))%Q as Hk'
    by (change 0%Q with (inject_Z 0); rewrite <- Zle_Qle; exact Hk).
  assert (u < 1)%Q as Hu1 by nra.
  assert (0 <= inject_Z (Qfloor q) * step)%Q as Ha by nra.
  destruct (rounds_to_bounds fl u _ _ Ha Ho) as [Ho1 Ho2].
  assert (0 <= outer)%Q as Hopos by nra.
  assert (outer / step * step == outer)%Q as Hb by (field; lra).
  assert (0 <= outer / step)%Q as Hbpos.
  { apply Qle_shift_div_l; [exact Hstep | lra]. }
  destruct (rounds_to_bounds fl u _ _ Hbpos Hr) as [Hr1 Hr2].
  destruct (product_quotient_bounds _ u step outer _ r
              Hk' Hu Hsmall Hstep Ho1 Ho2 Hb Hr1 Hr2) as [Hzero Hpos].
  exists (ceil r). split.
  { unfold _get_bins_fl, FlexibleAnnularDetector.
    cbn [_inner _outer _radial_steps _azimuthal_steps].
    rewrite Qeq_bool_false by (intro E; lra).
    rewrite Hq. cbn [finite bind]. rewrite (proj1 Ho). cbn [finite bind].
    rewrite Hw. cbn [finite bind]. rewrite (proj1 Hr). cbn [finite bind].
    rewrite Qeq_bool_false by (intro E; discriminate E).
    rewrite Hone. reflexivity. }
  destruct (Z.eq_dec (Qfloor q) 0) as [E|E].
  - left. rewrite E in *. change (inject_Z 0) with 0%Q in *.
    assert (r == 0)%Q as Hr0 by (apply Hzero; reflexivity).
    split; [|lra].
    unfold ceil. rewrite (Qceiling_comp _ _ Hr0). reflexivity.
  - assert (1 <= Qfloor q) as Hk1 by lia.
    assert (1 <= inject_Z (Qfloor q))%Q as Hk1'
      by (change 1%Q with (inject_Z 1); rewrite <- Zle_Qle; exact Hk1).
    destruct (Hpos Hk1') as [Hlo Hhi].
    destruct (trunc_between r (Qfloor q) Hk1 Hlo Hhi)
      as [[_ [Hc Hcmp]]|[[_ [Hc Hcmp]]|[_ [Hc Hcmp]]]].
    + left. split; [exact Hc | lra].
    + left. split; [exact Hc | lra].
    + right. split; [exact Hc | exact Hcmp].
Qed.

Lemma flexible_bins_witness :
  exists outer,
    _get_bins_fl binary64 (FlexibleAnnularDetector (double (1 # 10)))
                 (Some (NpFloat64, double (35 # 100)))
    = Ok (4, 1, 0%Q, outer)
    /\ (3 # 10 < outer)%Q.
Proof.
  edestruct (flexible_bins binary64 NpFloat64 u64
                           (double (1 # 10)) (double (35 # 100)))
    as [nr [Hbins Hnr]].
  - vm_compute. discriminate.
  - vm_compute. reflexivity.
  - vm_compute. reflexivity.
  - vm_compute. discriminate.
  - vm_compute. reflexivity.
  - split; [vm_compute; reflexivity | vm_compute; discriminate].
  - vm_compute. reflexivity.
  - split; [vm_compute; reflexivity | vm_compute; discriminate].
  - vm_compute. reflexivity.
  - eexists. split.
    + rewrite Hbins.
      destruct Hnr as [[_ Hle]|[-> _]];
        [vm_compute in Hle; exfalso; apply Hle; reflexivity
        | vm_compute; reflexivity].
    + vm_compute. reflexivity.
Defined.
